(** * A2A web-chat client: protocol client and conversation store

    A shallow embedding of [src/lib/a2aClient.ts] (the JSON-RPC client and
    its server-sent-event decoder) and of the conversation bookkeeping of
    the [useChat] hook, with the properties the specification states about
    them.

    Conventions.
    - A JavaScript string is the list of its UTF-16 code units
      ([jsstring]); [.length] is [length].
    - [undefined] is [None]; a value that came out of [JSON.parse] is a
      [JSON] tree.
    - [new Date()] and [uuidv4()] are inputs of the operations that call
      them.
    - Callbacks are observed as a trace.  A callback returns normally; it
      may call the stream's [cancel()] before it returns. *)

From Stdlib Require Import String Ascii List NArith ZArith Bool Lia.
From Stdlib.Strings Require Import Byte.
Import ListNotations.

Set Implicit Arguments.

(* ================================================================== *)
(** * JavaScript strings *)
(* ================================================================== *)

Module JsString.

Local Open Scope N_scope.

Definition jsstring := list N.

(** A literal of the source, given in ASCII. *)
Definition lit (s : string) : jsstring :=
  map N_of_ascii (list_ascii_of_string s).

Definition LF : N := 10.
Definition CR : N := 13.

Definition eqb (a b : jsstring) : bool :=
  if list_eq_dec N.eq_dec a b then true else false.

(** [!s] for a string: only the empty string is falsy. *)
Definition is_empty (s : jsstring) : bool :=
  match s with [] => true | _ :: _ => false end.

(** [s.startsWith(p)]. *)
Fixpoint startsWith (p s : jsstring) : bool :=
  match p, s with
  | [], _ => true
  | _ :: _, [] => false
  | a :: p', b :: s' => (a =? b) && startsWith p' s'
  end.

(** [s.slice(n)] and [s.slice(0, n)] for [0 <= n]. *)
Definition slice_from (n : nat) (s : jsstring) : jsstring := skipn n s.
Definition slice_to (n : nat) (s : jsstring) : jsstring := firstn n s.

(** White space and line terminators, the code units [trim] strips. *)
Definition is_space (c : N) : bool :=
  ((9 <=? c) && (c <=? 13)) || (c =? 32) || (c =? 160) || (c =? 5760)
  || ((8192 <=? c) && (c <=? 8202)) || (c =? 8232) || (c =? 8233)
  || (c =? 8239) || (c =? 8287) || (c =? 12288) || (c =? 65279).

Fixpoint trimStart (s : jsstring) : jsstring :=
  match s with
  | [] => []
  | c :: rest => if is_space c then trimStart rest else s
  end.

Definition trimEnd (s : jsstring) : jsstring := rev (trimStart (rev s)).

(** [s.trim()]. *)
Definition trim (s : jsstring) : jsstring := trimEnd (trimStart s).

(** [pieces.join(sep)]. *)
Fixpoint join (sep : jsstring) (pieces : list jsstring) : jsstring :=
  match pieces with
  | [] => []
  | [p] => p
  | p :: rest => p ++ sep ++ join sep rest
  end.

(** Put [c] in front of the first piece of a split. *)
Definition push_front (c : N) (pieces : list jsstring) : list jsstring :=
  match pieces with
  | [] => [[c]]
  | p :: ps => (c :: p) :: ps
  end.

(** [s.split('\n')]. *)
Fixpoint split_LF (s : jsstring) : list jsstring :=
  match s with
  | [] => [[]]
  | c :: rest =>
      if c =? LF then [] :: split_LF rest else push_front c (split_LF rest)
  end.

(** [s.split('\n\n')]: separators are found left to right and do not
    overlap. *)
Fixpoint split_LFLF (s : jsstring) : list jsstring :=
  match s with
  | [] => [[]]
  | c :: rest =>
      match rest with
      | [] => [[c]]
      | d :: rest' =>
          if (c =? LF) && (d =? LF) then [] :: split_LFLF rest'
          else push_front c (split_LFLF rest)
      end
  end.

(** [s.replace(/\r\n/g, '\n')]. *)
Fixpoint replace_CRLF (s : jsstring) : jsstring :=
  match s with
  | [] => []
  | c :: rest =>
      match rest with
      | [] => [c]
      | d :: rest' =>
          if (c =? CR) && (d =? LF) then LF :: replace_CRLF rest'
          else c :: replace_CRLF rest
      end
  end.

(** [s.replace(/\r/g, '\n')]. *)
Definition replace_CR (s : jsstring) : jsstring :=
  map (fun c => if c =? CR then LF else c) s.

(** Decimal digits of a non-negative integer, as in a template literal. *)
Definition digit (d : N) : N := 48 + d.

Fixpoint decimal_fuel (fuel : nat) (n : N) (acc : jsstring) : jsstring :=
  match fuel with
  | O => acc
  | S fuel' =>
      let acc' := digit (n mod 10) :: acc in
      if n / 10 =? 0 then acc' else decimal_fuel fuel' (n / 10) acc'
  end.

Definition decimal (n : N) : jsstring :=
  decimal_fuel (S (N.to_nat (N.log2 n))) n [].

End JsString.

Import JsString.

(* ================================================================== *)
(** * JSON values and the JavaScript operators applied to them *)
(* ================================================================== *)

Module Json.

(** A number is kept as the exact decimal [m * 10^e] of its literal.
    [JSON.parse] rounds it to a double; the client only ever tests a
    number for truthiness, which [num_truthy] decides from the decimal. *)
#[warnings="-register-all"]
Inductive JSON : Type :=
| JNull
| JBool (b : bool)
| JNum (m e : Z)
| JStr (s : jsstring)
| JArr (items : list JSON)
| JObj (fields : list (jsstring * JSON)).

(** A JavaScript value that is a JSON value or [undefined]. *)
Definition jsvalue := option JSON.

(** The decimal [m * 10^e] rounds to a non-zero double exactly when its
    magnitude exceeds [2^-1075], half the least subnormal (a tie rounds to
    the even neighbour, zero). *)
Definition num_truthy (m e : Z) : bool :=
  (negb (m =? 0)%Z)
  && ((0 <=? e)%Z || (10 ^ (- e) <? Z.abs m * 2 ^ 1075)%Z).

(** [!!v]. *)
Definition truthy (v : JSON) : bool :=
  match v with
  | JNull => false
  | JBool b => b
  | JNum m e => num_truthy m e
  | JStr s => negb (is_empty s)
  | JArr _ | JObj _ => true
  end.

Definition truthy_opt (v : jsvalue) : bool :=
  match v with None => false | Some j => truthy j end.

(** [v && typeof v === 'object']. *)
Definition is_object (v : jsvalue) : bool :=
  match v with
  | Some (JArr _) | Some (JObj _) => true
  | _ => false
  end.

(** Own property [key] of a parsed object; of duplicate keys in the text
    the last one counts. *)
Fixpoint lookup (key : jsstring) (fields : list (jsstring * JSON)) : jsvalue :=
  match fields with
  | [] => None
  | (k, v) :: rest =>
      match lookup key rest with
      | Some w => Some w
      | None => if JsString.eqb k key then Some v else None
      end
  end.

(** [v[key]] and [v?.[key]] for the keys the client reads (['jsonrpc'],
    ['result'], ['contextId'], ['kind'], ['status'], ['state'],
    ['message'], ['parts'], ['artifact']): none is inherited, none is an
    index, so only an object (not an array, not a primitive) has one.
    On [undefined] and [null] the client goes through [?.] or a guard. *)
Definition get (v : jsvalue) (key : jsstring) : jsvalue :=
  match v with
  | Some (JObj fields) => lookup key fields
  | _ => None
  end.

(** [!!(v?.length)]: an array or a string has its length, an object has
    what it stores under ['length'], anything else has none. *)
Definition has_length (v : jsvalue) : bool :=
  match v with
  | Some (JArr items) => negb (Nat.eqb (List.length items) 0)
  | Some (JStr s) => negb (is_empty s)
  | Some (JObj fields) => truthy_opt (lookup (lit "length") fields)
  | _ => false
  end.

(** [v === 'text']. *)
Definition is_string (v : jsvalue) (text : string) : bool :=
  match v with
  | Some (JStr s) => JsString.eqb s (lit text)
  | _ => false
  end.

End Json.

Import Json.

(* ================================================================== *)
(** * The JSON grammar, run on code units *)
(* ================================================================== *)

(** [JSON.parse] belongs to the platform.  The client is modelled over an
    arbitrary [JSON_parse : jsstring -> option JSON] ([None] for a
    [SyntaxError]); this module gives the instance used to evaluate the
    client on concrete streams. *)
Module JsonText.

Local Open Scope N_scope.

Definition is_ws (c : N) : bool :=
  (c =? 32) || (c =? 9) || (c =? 10) || (c =? 13).

Fixpoint skip_ws (s : jsstring) : jsstring :=
  match s with
  | [] => []
  | c :: rest => if is_ws c then skip_ws rest else s
  end.

Definition is_digit (c : N) : bool := (48 <=? c) && (c <=? 57).

Definition hex_value (c : N) : option N :=
  if is_digit c then Some (c - 48)
  else if (97 <=? c) && (c <=? 102) then Some (c - 87)
  else if (65 <=? c) && (c <=? 70) then Some (c - 55)
  else None.

Definition hex4 (a b c d : N) : option N :=
  match hex_value a, hex_value b, hex_value c, hex_value d with
  | Some x, Some y, Some z, Some w => Some (((x * 16 + y) * 16 + z) * 16 + w)
  | _, _, _, _ => None
  end.

Definition escape (c : N) : option N :=
  if (c =? 34) || (c =? 92) || (c =? 47) then Some c
  else if c =? 98 then Some 8
  else if c =? 102 then Some 12
  else if c =? 110 then Some 10
  else if c =? 114 then Some 13
  else if c =? 116 then Some 9
  else None.

(** The characters of a string after its opening quote, up to and
    including the closing one. *)
Fixpoint string_body (s : jsstring) : option (jsstring * jsstring) :=
  match s with
  | [] => None
  | c :: rest =>
      if c =? 34 then Some ([], rest)
      else if c <? 32 then None
      else if c =? 92 then
        match rest with
        | [] => None
        | e :: rest1 =>
            if e =? 117 then
              match rest1 with
              | h1 :: h2 :: h3 :: h4 :: rest2 =>
                  match hex4 h1 h2 h3 h4, string_body rest2 with
                  | Some u, Some (str, r) => Some (u :: str, r)
                  | _, _ => None
                  end
              | _ => None
              end
            else
              match escape e, string_body rest1 with
              | Some u, Some (str, r) => Some (u :: str, r)
              | _, _ => None
              end
        end
      else
        match string_body rest with
        | Some (str, r) => Some (c :: str, r)
        | None => None
        end
  end.

(** Leading decimal digits, most significant first. *)
Fixpoint digits (s : jsstring) : list N * jsstring :=
  match s with
  | [] => ([], [])
  | c :: rest =>
      if is_digit c then let (ds, r) := digits rest in (c - 48 :: ds, r)
      else ([], s)
  end.

Definition digits_value (ds : list N) : Z :=
  fold_left (fun acc d => (acc * 10 + Z.of_N d)%Z) ds 0%Z.

(** A number: an optional minus sign; an integer part that is 0 or starts
    with a non-zero digit; an optional fraction (a dot and at least one
    digit); an optional exponent (e or E, an optional sign, at least one
    digit).  The result is the mantissa, the decimal exponent and the rest
    of the text. *)
Definition number (s : jsstring) : option (Z * Z * jsstring) :=
  let (neg, s1) :=
    match s with
    | c :: rest => if c =? 45 then (true, rest) else (false, s)
    | [] => (false, s)
    end in
  let (int, s2) := digits s1 in
  match int with
  | [] => None
  | d :: more =>
      if (d =? 0) && negb (is_empty more) then None
      else
        let frac_part :=
          match s2 with
          | c :: rest =>
              if c =? 46 then
                let (fr, r) := digits rest in
                if is_empty fr then None else Some (fr, r)
              else Some ([], s2)
          | [] => Some ([], s2)
          end in
        match frac_part with
        | None => None
        | Some (frac, s3) =>
            let exp_part :=
              match s3 with
              | c :: rest =>
                  if (c =? 101) || (c =? 69) then
                    let (eneg, rest1) :=
                      match rest with
                      | sg :: rest' =>
                          if sg =? 45 then (true, rest')
                          else if sg =? 43 then (false, rest')
                          else (false, rest)
                      | [] => (false, rest)
                      end in
                    let (ex, r) := digits rest1 in
                    if is_empty ex then None
                    else
                      let v := digits_value ex in
                      Some (if eneg then (- v)%Z else v, r)
                  else Some (0%Z, s3)
              | [] => Some (0%Z, s3)
              end in
            match exp_part with
            | None => None
            | Some (ex, s4) =>
                let m := digits_value (int ++ frac) in
                Some (if neg then (- m)%Z else m,
                      (ex - Z.of_nat (List.length frac))%Z, s4)
            end
        end
  end.

Fixpoint value (fuel : nat) (s : jsstring) {struct fuel}
  : option (JSON * jsstring) :=
  match fuel with
  | O => None
  | S fuel' =>
      match skip_ws s with
      | [] => None
      | c :: rest =>
          if c =? 123 then
            match skip_ws rest with
            | [] => None
            | d :: rest' =>
                if d =? 125 then Some (JObj [], rest')
                else members fuel' rest []
            end
          else if c =? 91 then
            match skip_ws rest with
            | [] => None
            | d :: rest' =>
                if d =? 93 then Some (JArr [], rest')
                else elements fuel' rest []
            end
          else if c =? 34 then
            match string_body rest with
            | Some (str, r) => Some (JStr str, r)
            | None => None
            end
          else if startsWith (lit "true") (c :: rest) then
            Some (JBool true, skipn 4 (c :: rest))
          else if startsWith (lit "false") (c :: rest) then
            Some (JBool false, skipn 5 (c :: rest))
          else if startsWith (lit "null") (c :: rest) then
            Some (JNull, skipn 4 (c :: rest))
          else
            match number (c :: rest) with
            | Some (m, e, r) => Some (JNum m e, r)
            | None => None
            end
      end
  end

with elements (fuel : nat) (s : jsstring) (acc : list JSON) {struct fuel}
  : option (JSON * jsstring) :=
  match fuel with
  | O => None
  | S fuel' =>
      match value fuel' s with
      | None => None
      | Some (v, r) =>
          match skip_ws r with
          | [] => None
          | d :: r' =>
              if d =? 44 then elements fuel' r' (v :: acc)
              else if d =? 93 then Some (JArr (rev (v :: acc)), r')
              else None
          end
      end
  end

with members (fuel : nat) (s : jsstring) (acc : list (jsstring * JSON))
  {struct fuel} : option (JSON * jsstring) :=
  match fuel with
  | O => None
  | S fuel' =>
      match skip_ws s with
      | [] => None
      | q :: r0 =>
          if q =? 34 then
            match string_body r0 with
            | None => None
            | Some (k, r1) =>
                match skip_ws r1 with
                | [] => None
                | colon :: r2 =>
                    if colon =? 58 then
                      match value fuel' r2 with
                      | None => None
                      | Some (v, r3) =>
                          match skip_ws r3 with
                          | [] => None
                          | d :: r4 =>
                              if d =? 44 then members fuel' r4 ((k, v) :: acc)
                              else if d =? 125 then
                                Some (JObj (rev ((k, v) :: acc)), r4)
                              else None
                          end
                      end
                    else None
                end
            end
          else None
      end
  end.

(** One value, white space around it, nothing else.  Every recursive call
    consumes a character, so the fuel never runs out. *)
Definition parse (s : jsstring) : option JSON :=
  match value (2 * List.length s + 2) s with
  | Some (v, r) => if is_empty (skip_ws r) then Some v else None
  | None => None
  end.

End JsonText.

(* ================================================================== *)
(** * [new TextDecoder()] used with [{ stream: true }] *)
(* ================================================================== *)

(** The platform's UTF-8 decoder with replacement of malformed input, as
    the Encoding standard defines it: one byte at a time, the state kept
    from one [decode] call to the next.  The client never makes the final
    call without [stream], so bytes of an incomplete character at the end
    of the body are dropped. *)
Module TextDecoder.

Local Open Scope N_scope.

Record decoder : Type := {
  code_point : N;
  bytes_seen : N;
  bytes_needed : N;
  lower_boundary : N;
  upper_boundary : N;
  BOM_seen : bool
}.

Definition fresh : decoder :=
  {| code_point := 0; bytes_seen := 0; bytes_needed := 0;
     lower_boundary := 128; upper_boundary := 191; BOM_seen := false |}.

Definition idle (d : decoder) : decoder :=
  {| code_point := 0; bytes_seen := 0; bytes_needed := 0;
     lower_boundary := 128; upper_boundary := 191; BOM_seen := BOM_seen d |}.

Definition expect (d : decoder) (needed cp lower upper : N) : decoder :=
  {| code_point := cp; bytes_seen := 0; bytes_needed := needed;
     lower_boundary := lower; upper_boundary := upper;
     BOM_seen := BOM_seen d |}.

Definition REPLACEMENT : N := 65533.

(** A byte met when no character is in progress. *)
Definition first_byte (d : decoder) (b : N) : decoder * list N :=
  if b <=? 127 then (idle d, [b])
  else if (194 <=? b) && (b <=? 223) then (expect d 1 (b mod 32) 128 191, [])
  else if (224 <=? b) && (b <=? 239) then
    (expect d 2 (b mod 16)
       (if b =? 224 then 160 else 128) (if b =? 237 then 159 else 191), [])
  else if (240 <=? b) && (b <=? 244) then
    (expect d 3 (b mod 8)
       (if b =? 240 then 144 else 128) (if b =? 244 then 143 else 191), [])
  else (idle d, [REPLACEMENT]).

(** The decoder's handler: the code points one byte gives rise to.  A byte
    that cannot continue the character in progress ends it with a
    replacement character and is handled again as a first byte.
    [cp * 64 + b mod 64] is [(cp << 6) | (b & 0x3F)]. *)
Definition handler (d : decoder) (b : N) : decoder * list N :=
  if bytes_needed d =? 0 then first_byte d b
  else if (b <? lower_boundary d) || (upper_boundary d <? b) then
    let (d', out) := first_byte (idle d) b in (d', REPLACEMENT :: out)
  else
    let cp := code_point d * 64 + b mod 64 in
    if bytes_seen d + 1 =? bytes_needed d then (idle d, [cp])
    else
      ({| code_point := cp; bytes_seen := bytes_seen d + 1;
          bytes_needed := bytes_needed d;
          lower_boundary := 128; upper_boundary := 191;
          BOM_seen := BOM_seen d |}, []).

(** The first code point of the stream is dropped when it is the byte
    order mark. *)
Fixpoint strip_BOM (seen : bool) (cps : list N) : bool * list N :=
  match cps with
  | [] => (seen, [])
  | c :: rest =>
      if seen then (true, cps)
      else if c =? 65279 then strip_BOM true rest
      else (true, cps)
  end.

(** UTF-16 code units of a code point. *)
Definition code_units (c : N) : jsstring :=
  if c <? 65536 then [c]
  else [55296 + (c - 65536) / 1024; 56320 + (c - 65536) mod 1024].

Definition push (d : decoder) (b : byte) : decoder * jsstring :=
  let (d1, cps) := handler d (Byte.to_N b) in
  let (seen, out) := strip_BOM (BOM_seen d1) cps in
  ({| code_point := code_point d1; bytes_seen := bytes_seen d1;
      bytes_needed := bytes_needed d1;
      lower_boundary := lower_boundary d1;
      upper_boundary := upper_boundary d1; BOM_seen := seen |},
   flat_map code_units out).

(** [decoder.decode(value, { stream: true })]. *)
Fixpoint decode (d : decoder) (value : list byte) : decoder * jsstring :=
  match value with
  | [] => (d, [])
  | b :: rest =>
      let (d1, s1) := push d b in
      let (d2, s2) := decode d1 rest in
      (d2, s1 ++ s2)
  end.

End TextDecoder.

(* ================================================================== *)
(** * [src/types/a2a.ts] *)
(* ================================================================== *)

Module Types.

(** [TextPart | DataPart]; the tag [kind] is the constructor. *)
Inductive Part : Type :=
| TextPart (text : jsstring)
| DataPart (type : jsstring) (payload : JSON).

Inductive MessageStatus : Type := sending | streaming | done | error.

Inductive Role : Type := user | agent.

(** A [Date], in milliseconds. *)
Definition Date := Z.

(** [ChatMessage]; its [id] is [msg_id] here. *)
Record ChatMessage : Type := {
  msg_id : jsstring;
  role : Role;
  parts : list Part;
  status : MessageStatus;
  displayText : option jsstring;
  agentName : option jsstring;
  timestamp : Date
}.

(** [Conversation]; its [id] is [conv_id] here. *)
Record Conversation : Type := {
  conv_id : jsstring;
  agentId : jsstring;
  title : jsstring;
  messages : list ChatMessage;
  createdAt : Date;
  updatedAt : Date
}.

(** [AgentOption], by what [send] reads of it: [id], [card.name] and
    [card.capabilities?.streaming]. *)
Record AgentOption : Type := {
  agent_id : jsstring;
  card_name : jsstring;
  card_streaming : option bool
}.

(** [JsonRpcResponse<A2AMessage>], by what [sendMessage] reads of it. *)
Record RpcError : Type := {
  code : Z;
  message : jsstring
}.

Record RpcResult : Type := {
  result_parts : option (list Part);
  result_contextId : option jsstring
}.

Record JsonRpcResponse : Type := {
  rpc_result : option RpcResult;
  rpc_error : option RpcError
}.

End Types.

Import Types.

(* ================================================================== *)
(** * [src/lib/a2aClient.ts] *)
(* ================================================================== *)

Module A2AClient.

(** What a [catch] clause receives: an [Error] with its message, or some
    other value, given by what [String(err)] makes of it. *)
Inductive thrown : Type :=
| Error (message : jsstring)
| NotAnError (text : jsstring).

(** [err instanceof Error ? err : new Error(String(err))], by its message. *)
Definition as_Error (err : thrown) : jsstring :=
  match err with
  | Error message => message
  | NotAnError text => text
  end.

(** ** [message/send] *)

(** What [await res.json()] comes to. *)
Inductive body_result : Type :=
| Json (json : JsonRpcResponse)
| NotJson (err : thrown).

(** What [await fetch(...)] comes to, for a call that reads the body at
    once. *)
Inductive fetch_result : Type :=
| Failed (err : thrown)
| Responded (ok : bool) (status : N) (body : body_result).

(** A request as the gateway sees it: the JSON-RPC method and the fields
    of [buildMessageParams] (the two [uuidv4()] identifiers left out). *)
Record request : Type := {
  method : jsstring;
  to_agent : jsstring;
  text_sent : jsstring;
  contextId_sent : jsstring
}.

(** The gateway: the answer it gives to its [n]-th request. *)
Definition gateway := nat -> fetch_result.

(** [fetch]: the request is added to those made so far. *)
Definition fetch (gw : gateway) (rq : request) (made : list request)
  : fetch_result * list request :=
  (gw (List.length made), made ++ [rq]).

Record SendResult : Type := {
  sent_parts : list Part;
  sent_contextId : option jsstring
}.

(** [sendMessage]: [inr] is the value it throws. *)
Definition sendMessage (gw : gateway) (agentId text contextId : jsstring)
  (made : list request) : (SendResult + thrown) * list request :=
  let body :=
    {| method := lit "message/send"; to_agent := agentId;
       text_sent := text; contextId_sent := contextId |} in
  let (res, made1) := fetch gw body made in
  (match res with
   | Failed err => inr err
   | Responded ok status content =>
       if negb ok then inr (Error (lit "HTTP " ++ decimal status))
       else
         match content with
         | NotJson err => inr err
         | Json json =>
             match rpc_error json with
             | Some e => inr (Error (message e))
             | None =>
                 match rpc_result json with
                 | None => inr (Error (lit "Empty result"))
                 | Some r =>
                     inl {| sent_parts :=
                              match result_parts r with
                              | Some ps => ps
                              | None => []
                              end;
                            sent_contextId := result_contextId r |}
                 end
             end
         end
   end, made1).

(** [partsToText]. *)
Definition partsToText (ps : list Part) : jsstring :=
  join [LF]
    (flat_map
       (fun p => match p with TextPart t => [t] | DataPart _ _ => [] end)
       ps).

(** ** [message/stream] *)

(** One call of a member of [StreamCallbacks], with its argument. *)
Inductive callback : Type :=
| onWorking
| onPart (parts : JSON)
| onDone (contextId : jsvalue)
| onError (message : jsstring).

Definition is_terminal (c : callback) : bool :=
  match c with
  | onDone _ | onError _ => true
  | onWorking | onPart _ => false
  end.

(** The JSON-RPC envelope taken off: [envelope['jsonrpc'] === '2.0' &&
    envelope['result'] && typeof envelope['result'] === 'object' ?
    envelope['result'] : envelope]. *)
Definition unwrap (envelope : JSON) : JSON :=
  match get (Some envelope) (lit "result") with
  | Some result =>
      if is_string (get (Some envelope) (lit "jsonrpc")) "2.0"
         && is_object (Some result)
      then result else envelope
  | None => envelope
  end.

(** [if (parts?.length) cb.onPart(parts)]. *)
Definition part_callback (parts : jsvalue) : option callback :=
  match parts with
  | Some p => if has_length parts then Some (onPart p) else None
  | None => None
  end.

(** [dispatchSseEvent]: the callback a decoded payload leads to, if any. *)
Definition dispatchSseEvent (raw : JSON) : option callback :=
  if negb (is_object (Some raw)) then None
  else
    let event := Some (unwrap raw) in
    let kind := get event (lit "kind") in
    if is_string kind "status-update" then
      let status := get event (lit "status") in
      let state := get status (lit "state") in
      if is_string state "working" then
        let message := get status (lit "message") in
        let parts := get message (lit "parts") in
        if has_length parts then part_callback parts else Some onWorking
      else None
    else if is_string kind "artifact-update" then
      let artifact := get event (lit "artifact") in
      part_callback (get artifact (lit "parts"))
    else if is_string kind "message" then
      part_callback (get event (lit "parts"))
    else None.

(** The context identifier a payload carries: [inner['contextId']] of the
    unwrapped payload, when the payload is an object. *)
Definition payload_contextId (parsed : JSON) : jsvalue :=
  if is_object (Some parsed) then get (Some (unwrap parsed)) (lit "contextId")
  else None.

(** [if (cid && !firstContextId) firstContextId = cid]. *)
Definition capture (parsed : JSON) (firstContextId : jsvalue) : jsvalue :=
  let cid := payload_contextId parsed in
  if truthy_opt cid && negb (truthy_opt firstContextId) then cid
  else firstContextId.

(** The lines of a block that start with ["data: "], without that
    prefix. *)
Definition dataLines (eventBlock : jsstring) : list jsstring :=
  flat_map
    (fun line =>
       if startsWith (lit "data: ") line then [slice_from 6 line] else [])
    (split_LF eventBlock).

(** [dataLines.join('\n').trim()]. *)
Definition block_raw (eventBlock : jsstring) : jsstring :=
  trim (join [LF] (dataLines eventBlock)).

(** What can be observed of a stream: the callbacks it makes and the
    calls of the function [streamMessage] returned. *)
Inductive observation : Type :=
| Called (c : callback)
| Cancel.

Fixpoint called (trace : list observation) : list callback :=
  match trace with
  | [] => []
  | Called c :: rest => c :: called rest
  | Cancel :: rest => called rest
  end.

(** The variables the closures of one [streamMessage] call share, the
    trace so far and, for the statements about context identifiers, the
    payloads that went through the capture of the context identifier and
    [dispatchSseEvent] so far ([decoded], which the code does not keep). *)
Record state : Type := {
  buffer : jsstring;
  firstContextId : jsvalue;
  aborted : bool;
  decoder : TextDecoder.decoder;
  trace : list observation;
  decoded : list JSON
}.

Definition initial : state :=
  {| buffer := []; firstContextId := None; aborted := false;
     decoder := TextDecoder.fresh; trace := []; decoded := [] |}.

Definition set_buffer (b : jsstring) (st : state) : state :=
  {| buffer := b; firstContextId := firstContextId st;
     aborted := aborted st; decoder := decoder st; trace := trace st;
     decoded := decoded st |}.

Definition set_decoder (d : TextDecoder.decoder) (st : state) : state :=
  {| buffer := buffer st; firstContextId := firstContextId st;
     aborted := aborted st; decoder := d; trace := trace st;
     decoded := decoded st |}.

(** The function [streamMessage] returns:
    [() => { aborted = true; controller.abort(); }]. *)
Definition cancel (st : state) : state :=
  {| buffer := buffer st; firstContextId := firstContextId st;
     aborted := true; decoder := decoder st;
     trace := trace st ++ [Cancel]; decoded := decoded st |}.

(** One result of [await reader.read()]. *)
Inductive read : Type :=
| Value (value : list byte)
| Done
| Rejected (err : thrown).

(** A read together with what happened while it was pending: whether
    [cancel()] was called. *)
Record read_step : Type := {
  cancelled : bool;
  result : read
}.

(** What [await fetch(...)] comes to. *)
Inductive response : Type :=
| NetworkFailure (err : thrown)
| Response (ok : bool) (status : N) (body : option (list read_step)).

Record exchange : Type := {
  cancelled_during_fetch : bool;
  fetched : response
}.

Section Stream.

(** [JSON.parse], with [None] for a [SyntaxError]. *)
Variable JSON_parse : jsstring -> option JSON.

(** The caller's callbacks, by the two things that bear on the stream:
    [cancels history] tells whether the callback called last in [history]
    calls [cancel()], and [throws history] whether it throws, and what,
    in place of returning. *)
Variable cancels : list callback -> bool.
Variable throws : list callback -> option thrown.

(** A call of a callback: the state it leaves and what it throws, if
    anything. *)
Definition call (c : callback) (st : state) : state * option thrown :=
  let st1 :=
    {| buffer := buffer st; firstContextId := firstContextId st;
       aborted := aborted st; decoder := decoder st;
       trace := trace st ++ [Called c]; decoded := decoded st |} in
  (if cancels (called (trace st1)) then cancel st1 else st1,
   throws (called (trace st1))).

(** A payload reaches the capture of the context identifier. *)
Definition captured (parsed : JSON) (st : state) : state :=
  {| buffer := buffer st;
     firstContextId := capture parsed (firstContextId st);
     aborted := aborted st; decoder := decoder st; trace := trace st;
     decoded := decoded st ++ [parsed] |}.

(** How the body of the loop over [events] ends: it goes on to the next
    block, it leaves [processBuffer] by [return], or a callback threw. *)
Inductive completion : Type :=
| Continue
| Return
| Throw (err : thrown).

(** The body of the loop over [events] in [processBuffer]. *)
Definition processEvent (eventBlock : jsstring) (st : state)
  : state * completion :=
  if is_empty (trim eventBlock) then (st, Continue)
  else
    let raw := block_raw eventBlock in
    if is_empty raw || JsString.eqb raw (lit "[DONE]") then (st, Continue)
    else
      match JSON_parse raw with
      | None => (st, Continue)
      | Some parsed =>
          if aborted st then (st, Return)
          else
            let st1 := captured parsed st in
            match dispatchSseEvent parsed with
            | Some c =>
                let (st2, exn) := call c st1 in
                (st2,
                 match exn with Some err => Throw err | None => Continue end)
            | None => (st1, Continue)
            end
      end.

(** The loop over [events]: the state it leaves and what was thrown, if
    anything. *)
Fixpoint processEvents (events : list jsstring) (st : state)
  : state * option thrown :=
  match events with
  | [] => (st, None)
  | eventBlock :: rest =>
      match processEvent eventBlock st with
      | (st1, Continue) => processEvents rest st1
      | (st1, Return) => (st1, None)
      | (st1, Throw err) => (st1, Some err)
      end
  end.

(** [buffer.replace(/\r\n/g, '\n').replace(/\r/g, '\n')]. *)
Definition normalize (s : jsstring) : jsstring :=
  replace_CR (replace_CRLF s).

Definition processBuffer (st : state) : state * option thrown :=
  let normalized := normalize (buffer st) in
  let events := split_LFLF normalized in
  let st1 := set_buffer (last events []) st in
  processEvents (removelast events) st1.

(** The [catch] clause of the asynchronous body.  What [onError] throws
    there is caught by nothing. *)
Definition catch (err : thrown) (st : state) : state :=
  if aborted st then st else fst (call (onError (as_Error err)) st).

(** The [while (true)] loop, run on the results the reader gives.  When
    the results run out the loop is waiting for the next one. *)
Fixpoint read_loop (reads : list read_step) (st : state) : state :=
  match reads with
  | [] => st
  | r :: rest =>
      let st := if cancelled r then cancel st else st in
      match result r with
      | Rejected err => catch err st
      | Done =>
          if aborted st then st
          else
            match
              if is_empty (trim (buffer st)) then (st, None)
              else processBuffer (set_buffer (buffer st ++ [LF; LF]) st)
            with
            | (st1, Some err) => catch err st1
            | (st1, None) =>
                if aborted st1 then st1
                else
                  match call (onDone (firstContextId st1)) st1 with
                  | (st2, Some err) => catch err st2
                  | (st2, None) => st2
                  end
            end
      | Value value =>
          if aborted st then st
          else
            let (d, text) := TextDecoder.decode (decoder st) value in
            match
              processBuffer
                (set_buffer (buffer st ++ text) (set_decoder d st))
            with
            | (st1, Some err) => catch err st1
            | (st1, None) => read_loop rest st1
            end
      end
  end.

(** [streamMessage], from the moment the request is sent. *)
Definition streamMessage (x : exchange) : state :=
  let st := if cancelled_during_fetch x then cancel initial else initial in
  match fetched x with
  | NetworkFailure err => catch err st
  | Response ok status body =>
      if negb ok then catch (Error (lit "HTTP " ++ decimal status)) st
      else
        match body with
        | None => catch (Error (lit "No response body")) st
        | Some reads => read_loop reads st
        end
  end.

End Stream.

(** A stream nobody cancels: the response arrives, the body delivers
    [chunks] and then ends as [ending] says. *)
Definition undisturbed (r : read) : read_step :=
  {| cancelled := false; result := r |}.

Definition delivery (chunks : list (list byte)) (ending : list read) : exchange :=
  {| cancelled_during_fetch := false;
     fetched :=
       Response true 200
         (Some (map undisturbed (map Value chunks ++ ending))) |}.

(** Callbacks that never call [cancel()], and callbacks that always
    return. *)
Definition never (history : list callback) : bool := false.

Definition returns (history : list callback) : option thrown := None.

End A2AClient.

(* ================================================================== *)
(** * The [useChat] hook: conversations, messages and [send] *)
(* ================================================================== *)

Module UseChat.

Import A2AClient.

Local Open Scope N_scope.

(** [truncate(text, max = 42)]; the ellipsis is the one code unit
    U+2026. *)
Definition ELLIPSIS : N := 8230.

Definition truncate (text : jsstring) (max : nat) : jsstring :=
  if Nat.leb (List.length text) max then text
  else slice_to (max - 1) text ++ [ELLIPSIS].

(** The state of the hook that [send] and the updaters touch. *)
Record hook : Type := {
  conversations : list Conversation;
  activeConvId : option jsstring;
  selectedAgent : option AgentOption;
  input : jsstring;
  isLoading : bool
}.

Definition setConversations (f : list Conversation -> list Conversation)
  (h : hook) : hook :=
  {| conversations := f (conversations h); activeConvId := activeConvId h;
     selectedAgent := selectedAgent h; input := input h;
     isLoading := isLoading h |}.

Definition setActiveConvId (v : option jsstring) (h : hook) : hook :=
  {| conversations := conversations h; activeConvId := v;
     selectedAgent := selectedAgent h; input := input h;
     isLoading := isLoading h |}.

Definition setInput (v : jsstring) (h : hook) : hook :=
  {| conversations := conversations h; activeConvId := activeConvId h;
     selectedAgent := selectedAgent h; input := v;
     isLoading := isLoading h |}.

Definition setIsLoading (v : bool) (h : hook) : hook :=
  {| conversations := conversations h; activeConvId := activeConvId h;
     selectedAgent := selectedAgent h; input := input h;
     isLoading := v |}.

(** [{ ...c, messages }], [{ ...c, id }] and [{ ...c, messages, updatedAt }]. *)
Definition with_messages (ms : list ChatMessage) (c : Conversation)
  : Conversation :=
  {| conv_id := conv_id c; agentId := agentId c; title := title c;
     messages := ms; createdAt := createdAt c; updatedAt := updatedAt c |}.

Definition with_id (i : jsstring) (c : Conversation) : Conversation :=
  {| conv_id := i; agentId := agentId c; title := title c;
     messages := messages c; createdAt := createdAt c;
     updatedAt := updatedAt c |}.

Definition with_messages_updatedAt (ms : list ChatMessage) (now : Date)
  (c : Conversation) : Conversation :=
  {| conv_id := conv_id c; agentId := agentId c; title := title c;
     messages := ms; createdAt := createdAt c; updatedAt := now |}.

(** [{ ...m, status }]. *)
Definition with_status (st : MessageStatus) (m : ChatMessage) : ChatMessage :=
  {| msg_id := msg_id m; role := role m; parts := parts m; status := st;
     displayText := displayText m; agentName := agentName m;
     timestamp := timestamp m |}.

(** [{ ...m, parts, displayText, status }]. *)
Definition with_content (ps : list Part) (shown : jsstring)
  (st : MessageStatus) (m : ChatMessage) : ChatMessage :=
  {| msg_id := msg_id m; role := role m; parts := ps; status := st;
     displayText := Some shown; agentName := agentName m;
     timestamp := timestamp m |}.

(** The updater of [updateMessage]'s [setConversations]. *)
Definition updateMessage (convId msgId : jsstring)
  (updater : ChatMessage -> ChatMessage) (prev : list Conversation)
  : list Conversation :=
  map
    (fun c =>
       if negb (JsString.eqb (conv_id c) convId) then c
       else
         with_messages
           (map (fun m => if JsString.eqb (msg_id m) msgId then updater m else m)
              (messages c))
           c)
    prev.

(** The updater of [appendParts]'s [setConversations]; [now] is its
    [new Date()]. *)
Definition appendParts (now : Date) (convId msgId : jsstring)
  (newParts : list Part) (prev : list Conversation) : list Conversation :=
  map
    (fun c =>
       if negb (JsString.eqb (conv_id c) convId) then c
       else
         let messages :=
           map
             (fun m =>
                if negb (JsString.eqb (msg_id m) msgId) then m
                else
                  let merged := parts m ++ newParts in
                  let fullText := partsToText merged in
                  with_content merged fullText streaming m)
             (messages c) in
         with_messages_updatedAt messages now c)
    prev.

Definition markDone (convId msgId : jsstring) (prev : list Conversation)
  : list Conversation :=
  updateMessage convId msgId (with_status done) prev.

(** What one call of [send] keeps in its closure. *)
Record turn : Type := {
  localConvId : jsstring;
  agentMsgId : jsstring;
  currentConvIdRef : jsstring
}.

(** The updater of [adoptContextId]'s [setConversations]. *)
Definition renameConversation (oldId newId : jsstring)
  (prev : list Conversation) : list Conversation :=
  map (fun c => if JsString.eqb (conv_id c) oldId then with_id newId c else c)
    prev.

(** [adoptContextId]; [None] is [null]. *)
Definition adoptContextId (gatewayContextId : option jsstring)
  (t : turn) (h : hook) : turn * hook :=
  match gatewayContextId with
  | None => (t, h)
  | Some gid =>
      if is_empty gid || JsString.eqb gid (currentConvIdRef t) then (t, h)
      else
        let oldId := currentConvIdRef t in
        ({| localConvId := localConvId t; agentMsgId := agentMsgId t;
            currentConvIdRef := gid |},
         setActiveConvId (Some gid)
           (setConversations (renameConversation oldId gid) h))
  end.

(** [finaliseAgentMsg]. *)
Definition finaliseAgentMsg (gatewayContextId : option jsstring)
  (t : turn) (h : hook) : turn * hook :=
  let (t1, h1) := adoptContextId gatewayContextId t h in
  (t1,
   setConversations
     (map
        (fun c =>
           if negb (JsString.eqb (conv_id c) (currentConvIdRef t1))
              && negb (JsString.eqb (conv_id c) (localConvId t1))
           then c
           else
             with_messages
               (map
                  (fun m =>
                     if negb (JsString.eqb (msg_id m) (agentMsgId t1)) then m
                     else
                       match displayText m with
                       | Some (_ :: _) => m
                       | _ => with_status done m
                       end)
                  (messages c))
               c))
     h1).

(** What [uuidv4()] and [new Date()] give during one call of [send], in
    the order of the calls. *)
Record generated : Type := {
  uuid_conversation : jsstring;
  uuid_userMsg : jsstring;
  date_userMsg : Date;
  uuid_agentMsg : jsstring;
  date_agentMsg : Date;
  date_now : Date
}.

(** The content an error leaves on the agent message. *)
Definition error_content (msg : jsstring) (m : ChatMessage) : ChatMessage :=
  with_content [TextPart (lit "Error: " ++ msg)] (lit "Error: " ++ msg)
    error m.

(** [send] up to the choice between the two calls: [None] when [send]
    returns at once; otherwise the new state, the closure of the turn,
    the agent and the text. *)
Definition send_begin (g : generated) (h : hook)
  : option (hook * turn * AgentOption * jsstring) :=
  let text := trim (input h) in
  match selectedAgent h with
  | None => None
  | Some selected =>
      if is_empty text || isLoading h then None
      else
        let h1 := setIsLoading true (setInput [] h) in
        let agentName := card_name selected in
        let localConvId :=
          match activeConvId h with
          | Some i => if is_empty i then uuid_conversation g else i
          | None => uuid_conversation g
          end in
        let isNewConv :=
          match activeConvId h with
          | Some i => is_empty i
          | None => true
          end in
        let userMsg :=
          {| msg_id := uuid_userMsg g; role := user;
             parts := [TextPart text]; status := done;
             displayText := None; agentName := None;
             timestamp := date_userMsg g |} in
        let agentMsg :=
          {| msg_id := uuid_agentMsg g; role := agent; parts := [];
             status := sending; displayText := Some [];
             agentName := Some agentName;
             timestamp := date_agentMsg g |} in
        let now := date_now g in
        let h2 :=
          if isNewConv then
            let newConv :=
              {| conv_id := localConvId; agentId := agent_id selected;
                 title := truncate text 42;
                 messages := [userMsg; agentMsg];
                 createdAt := now; updatedAt := now |} in
            setActiveConvId (Some localConvId)
              (setConversations (fun prev => newConv :: prev) h1)
          else
            setConversations
              (map
                 (fun c =>
                    if negb (JsString.eqb (conv_id c) localConvId) then c
                    else
                      with_messages_updatedAt
                        (messages c ++ [userMsg; agentMsg]) now c))
              h1 in
        Some (h2,
              {| localConvId := localConvId;
                 agentMsgId := uuid_agentMsg g;
                 currentConvIdRef := localConvId |},
              selected, text)
  end.

(** [supportsStreaming]. *)
Definition supportsStreaming (a : AgentOption) : bool :=
  match card_streaming a with Some b => b | None => false end.

(** The [else] branch of [send], after [await sendMessage(...)] came to
    [outcome]: the [try], the [catch] and the [finally]. *)
Definition send_settle (outcome : SendResult + thrown) (t : turn) (h : hook)
  : turn * hook :=
  let (t1, h1) :=
    match outcome with
    | inl result =>
        let (t1, h1) := adoptContextId (sent_contextId result) t h in
        let fullText := partsToText (sent_parts result) in
        (t1,
         setConversations
           (updateMessage (currentConvIdRef t1) (agentMsgId t1)
              (with_content (sent_parts result) fullText streaming))
           h1)
    | inr err =>
        let msg :=
          match err with
          | Error message => message
          | NotAnError _ => lit "Unknown error"
          end in
        (t,
         setConversations
           (updateMessage (currentConvIdRef t) (agentMsgId t)
              (error_content msg))
           h)
    end in
  (t1, setIsLoading false h1).

(** The callbacks [send] gives to [streamMessage]. *)
Definition stream_onWorking (t : turn) (h : hook) : turn * hook :=
  (t,
   setConversations
     (updateMessage (currentConvIdRef t) (agentMsgId t) (with_status sending))
     h).

Definition stream_onPart (now : Date) (ps : list Part) (t : turn) (h : hook)
  : turn * hook :=
  (t,
   setConversations (appendParts now (currentConvIdRef t) (agentMsgId t) ps) h).

Definition stream_onDone (gatewayContextId : option jsstring)
  (t : turn) (h : hook) : turn * hook :=
  let (t1, h1) := finaliseAgentMsg gatewayContextId t h in
  (t1, setIsLoading false h1).

Definition stream_onError (msg : jsstring) (t : turn) (h : hook)
  : turn * hook :=
  (t,
   setIsLoading false
     (setConversations
        (updateMessage (currentConvIdRef t) (agentMsgId t) (error_content msg))
        h)).

(** ** The other operations of the hook *)

Definition setSelectedAgent (v : option AgentOption) (h : hook) : hook :=
  {| conversations := conversations h; activeConvId := activeConvId h;
     selectedAgent := v; input := input h; isLoading := isLoading h |}.

(** [openConversation]; [agentsRef] is [agentsRef.current]. *)
Definition openConversation (agentsRef : list AgentOption)
  (convId : jsstring) (h : hook) : hook :=
  let h1 := setIsLoading false (setInput [] (setActiveConvId (Some convId) h)) in
  match find (fun c => JsString.eqb (conv_id c) convId) (conversations h1) with
  | Some conv =>
      match
        find (fun a => JsString.eqb (agent_id a) (agentId conv)) agentsRef
      with
      | Some found => setSelectedAgent (Some found) h1
      | None => h1
      end
  | None => h1
  end.

Definition newConversation (h : hook) : hook :=
  setIsLoading false (setInput [] (setActiveConvId None h)).

Definition deleteConversation (convId : jsstring) (h : hook) : hook :=
  setActiveConvId
    (match activeConvId h with
     | Some cur => if JsString.eqb cur convId then None else Some cur
     | None => None
     end)
    (setConversations
       (filter (fun c => negb (JsString.eqb (conv_id c) convId))) h).

Definition selectAgent (a : AgentOption) (h : hook) : hook :=
  setIsLoading false
    (setInput [] (setActiveConvId None (setSelectedAgent (Some a) h))).

(** What can happen to the state of the hook: the operations the hook
    returns, the steps of [send] and the callbacks [send] hands to
    [streamMessage], each with any argument. *)
Inductive action : Type :=
| do_setInput (v : jsstring)
| do_send_begin (g : generated)
| do_send_settle (outcome : SendResult + thrown) (t : turn)
| do_onWorking (t : turn)
| do_onPart (now : Date) (ps : list Part) (t : turn)
| do_onDone (gatewayContextId : option jsstring) (t : turn)
| do_onError (msg : jsstring) (t : turn)
| do_markDone (convId msgId : jsstring)
| do_openConversation (agentsRef : list AgentOption) (convId : jsstring)
| do_newConversation
| do_deleteConversation (convId : jsstring)
| do_selectAgent (a : AgentOption).

Definition perform (a : action) (h : hook) : hook :=
  match a with
  | do_setInput v => setInput v h
  | do_send_begin g =>
      match send_begin g h with
      | Some (h1, _, _, _) => h1
      | None => h
      end
  | do_send_settle outcome t => snd (send_settle outcome t h)
  | do_onWorking t => snd (stream_onWorking t h)
  | do_onPart now ps t => snd (stream_onPart now ps t h)
  | do_onDone gid t => snd (stream_onDone gid t h)
  | do_onError msg t => snd (stream_onError msg t h)
  | do_markDone convId msgId => setConversations (markDone convId msgId) h
  | do_openConversation agentsRef convId => openConversation agentsRef convId h
  | do_newConversation => newConversation h
  | do_deleteConversation convId => deleteConversation convId h
  | do_selectAgent a => selectAgent a h
  end.

Fixpoint perform_all (actions : list action) (h : hook) : hook :=
  match actions with
  | [] => h
  | a :: rest => perform_all rest (perform a h)
  end.

(** A whole call of [send].  With an agent that does not stream,
    [during] is what else happens to the hook while [sendMessage] is
    awaited; the result is the final state and the requests made.  With
    a streaming agent [send] stops once [streamMessage] has sent its
    request, and the turn goes on in the callbacks above. *)
Definition send (g : generated) (gw : gateway) (during : list action)
  (h : hook) (made : list request) : hook * list request :=
  match send_begin g h with
  | None => (h, made)
  | Some (h1, t, selected, text) =>
      if supportsStreaming selected then
        (h1,
         made ++ [{| method := lit "message/stream";
                     to_agent := agent_id selected; text_sent := text;
                     contextId_sent := localConvId t |}])
      else
        let (outcome, made1) :=
          sendMessage gw (agent_id selected) text (localConvId t) made in
        (snd (send_settle outcome t (perform_all during h1)), made1)
  end.

End UseChat.

(* ================================================================== *)
(** * Notions the statements use *)
(* ================================================================== *)

Module Statements.

Import A2AClient UseChat.

(** The identities of the conversations of a store, in order. *)
Definition ids (convs : list Conversation) : list jsstring :=
  map conv_id convs.

(** No message of a conversation named [convId] is named [msgId]: the
    conversation is absent, or the message is absent from it. *)
Definition message_absent (convId msgId : jsstring)
  (convs : list Conversation) : Prop :=
  forall c, In c convs -> conv_id c = convId ->
  forall m, In m (messages c) -> msg_id m <> msgId.

(** Two conversations that differ at most by their identity. *)
Definition same_but_id (c c' : Conversation) : Prop :=
  agentId c' = agentId c /\ title c' = title c
  /\ messages c' = messages c /\ createdAt c' = createdAt c
  /\ updatedAt c' = updatedAt c.

(** What adoption of [gid] does to one conversation, [old] being the
    identity the turn goes by: everything but the identity is kept; the
    identity is kept unless it is [old]; if it is [old] it becomes [gid],
    when [gid] is a non-empty string. *)
Definition adopted (gid : option jsstring) (old : jsstring)
  (c c' : Conversation) : Prop :=
  same_but_id c c'
  /\ (conv_id c <> old -> conv_id c' = conv_id c)
  /\ (conv_id c = old ->
      conv_id c' = match gid with
                   | Some g => if is_empty g then old else g
                   | None => old
                   end).

(** [send] finds no active conversation and creates one. *)
Definition starts_conversation (h : hook) : Prop :=
  match activeConvId h with
  | Some i => i = []
  | None => True
  end.

(** The four ways the synchronous call fails, each with the message of
    the error [sendMessage] throws. *)
Inductive fails_with : fetch_result -> jsstring -> Prop :=
| transport_failure err :
    fails_with (Failed err)
      match err with
      | Error message => message
      | NotAnError _ => lit "Unknown error"
      end
| http_status status content :
    fails_with (Responded false status content)
      (lit "HTTP " ++ decimal status)
| rpc_error_field status result e :
    fails_with
      (Responded true status
         (Json {| rpc_result := result; rpc_error := Some e |}))
      (message e)
| missing_result status :
    fails_with
      (Responded true status
         (Json {| rpc_result := None; rpc_error := None |}))
      (lit "Empty result").

(** The agent message of a turn shows the failure [msg]. *)
Definition shows_error (msg : jsstring) (m : ChatMessage) : Prop :=
  parts m = [TextPart (lit "Error: " ++ msg)]
  /\ displayText m = Some (lit "Error: " ++ msg)
  /\ status m = error.

(** ** Streams *)

(** The first truthy context identifier among payloads, after unwrapping;
    [None] is [null]. *)
Fixpoint first_contextId (payloads : list JSON) : jsvalue :=
  match payloads with
  | [] => None
  | p :: rest =>
      if truthy_opt (payload_contextId p) then payload_contextId p
      else first_contextId rest
  end.

(** The kind of a payload, after unwrapping, is one [dispatchSseEvent]
    knows. *)
Definition recognized (payload : JSON) : bool :=
  is_object (Some payload)
  && (let kind := get (Some (unwrap payload)) (lit "kind") in
      is_string kind "status-update" || is_string kind "artifact-update"
      || is_string kind "message").

Definition is_final (r : read_step) : bool :=
  match result r with
  | Value _ => false
  | Done | Rejected _ => true
  end.

(** The exchange comes to an end: the request fails, or the response is
    not a success or has no body, or the body ends or breaks. *)
Definition completes (x : exchange) : bool :=
  match fetched x with
  | NetworkFailure _ => true
  | Response ok _ body =>
      negb ok
      || match body with
         | None => true
         | Some reads => existsb is_final reads
         end
  end.

Definition is_cancel (o : observation) : bool :=
  match o with Cancel => true | Called _ => false end.

(** [cancel()] was not called. *)
Definition cancel_free (tr : list observation) : bool :=
  forallb (fun o => negb (is_cancel o)) tr.

(** No callback after the first [cancel()]. *)
Fixpoint quiet (tr : list observation) : bool :=
  match tr with
  | [] => true
  | Called _ :: rest => quiet rest
  | Cancel :: rest => match called rest with [] => true | _ :: _ => false end
  end.

Definition no_terminal (cs : list callback) : bool :=
  forallb (fun c => negb (is_terminal c)) cs.

(** A stream that has made no terminal callback yet: no callback came
    after a [cancel()], [aborted] tells whether [cancel()] was called,
    and [firstContextId] is the first truthy identifier of the payloads
    decoded so far. *)
Definition running (st : state) : Prop :=
  quiet (trace st) = true
  /\ aborted st = negb (cancel_free (trace st))
  /\ no_terminal (called (trace st)) = true
  /\ firstContextId st = first_contextId (decoded st).

(** [onDone] returns whenever it is called. *)
Definition onDone_returns (throws : list callback -> option thrown) : Prop :=
  forall history v, throws (history ++ [onDone v]) = None.

(** The terminal callbacks come last: none, or one, or [onDone], which
    threw, and then [onError] with what it threw; an [onDone] that threw
    is the last callback only when [cancel()] was called; [onDone] with
    the first truthy identifier of the payloads decoded; no callback
    after a [cancel()]. *)
Definition settled (throws : list callback -> option thrown) (st : state)
  : Prop :=
  quiet (trace st) = true
  /\ (exists pre tail,
        called (trace st) = pre ++ tail /\ no_terminal pre = true
        /\ (tail = []
            \/ (exists t, tail = [t] /\ is_terminal t = true
                          /\ forall v, t = onDone v ->
                                v = first_contextId (decoded st)
                                /\ forall err,
                                     throws (pre ++ [t]) = Some err ->
                                     cancel_free (trace st) = false)
            \/ (exists err,
                  tail = [onDone (first_contextId (decoded st));
                          onError (as_Error err)]
                  /\ throws (pre ++ [onDone (first_contextId (decoded st))])
                     = Some err))).

(** A chunk boundary that falls between a carriage return and the line
    feed after it. *)
Definition ends_with_CR (bs : list byte) : bool :=
  match rev bs with
  | b :: _ => N.eqb (Byte.to_N b) CR
  | [] => false
  end.

Definition starts_with_LF (bs : list byte) : bool :=
  match bs with
  | b :: _ => N.eqb (Byte.to_N b) LF
  | [] => false
  end.

(** No boundary between [chunks], delivered after the bytes [sofar],
    falls between a carriage return and its line feed. *)
Fixpoint CRLF_kept (sofar : list byte) (chunks : list (list byte)) : bool :=
  match chunks with
  | [] => true
  | c :: rest =>
      negb (ends_with_CR sofar && starts_with_LF c)
      && CRLF_kept (sofar ++ c) rest
  end.

(** ** Chunks *)

Definition ends_CR (s : jsstring) : bool :=
  match rev s with
  | c :: _ => N.eqb c CR
  | [] => false
  end.

Definition starts_LF (s : jsstring) : bool :=
  match s with
  | c :: _ => N.eqb c LF
  | [] => false
  end.

Definition no_CR (s : jsstring) : Prop := Forall (fun c => c <> CR) s.

(** What [processBuffer] makes of the buffer [buf] once [text] is added
    to it: the blocks it goes through and the buffer it leaves. *)
Definition feed (buf text : jsstring) : list jsstring * jsstring :=
  let events := split_LFLF (normalize (buf ++ text)) in
  (removelast events, last events []).

(** The blocks the loop goes through for [chunks] when nothing stops it,
    and the decoder and the buffer it is left with. *)
Fixpoint blocks_of (d : TextDecoder.decoder) (buf : jsstring)
  (chunks : list (list byte))
  : list jsstring * (TextDecoder.decoder * jsstring) :=
  match chunks with
  | [] => ([], (d, buf))
  | value :: rest =>
      let (d1, text) := TextDecoder.decode d value in
      let (events, buf1) := feed buf text in
      let (more, final) := blocks_of d1 buf1 rest in
      (events ++ more, final)
  end.

(** A decoder between two characters, or inside one whose code point
    will be 128 or more. *)
Definition well (d : TextDecoder.decoder) : Prop :=
  let needed := TextDecoder.bytes_needed d in
  let seen := TextDecoder.bytes_seen d in
  let cp := TextDecoder.code_point d in
  let lower := TextDecoder.lower_boundary d in
  let upper := TextDecoder.upper_boundary d in
  (needed = 0
   \/ ((seen < needed) /\ (128 <= lower) /\ (upper <= 191)
       /\ ((needed = seen + 1 /\ 2 <= cp)
           \/ (seen + 2 <= needed /\ (1 <= cp \/ 144 <= lower)))))%N.

(** The code points one byte gives rise to: none, with a character left
    in progress; the byte itself, below 128; a replacement character and
    the byte itself, below 128; or code points that are all 128 or
    more. *)
Inductive shape (b : N) (before after : TextDecoder.decoder) : list N -> Prop :=
| shape_none : TextDecoder.bytes_needed after <> 0%N -> shape b before after []
| shape_ascii :
    (b <= 127)%N -> TextDecoder.bytes_needed before = 0%N -> shape b before after [b]
| shape_broken_ascii :
    (b <= 127)%N -> shape b before after [TextDecoder.REPLACEMENT; b]
| shape_high cps :
    cps <> [] -> Forall (fun c => (128 <= c)%N) cps -> shape b before after cps.


(** The code units one byte gives rise to, once the byte order mark is
    dropped: the same four cases. *)
Inductive units_shape (b : N) (before after : TextDecoder.decoder)
  : jsstring -> Prop :=
| units_none :
    TextDecoder.bytes_needed after <> 0%N
    \/ TextDecoder.BOM_seen before = false ->
    units_shape b before after []
| units_ascii :
    (b <= 127)%N -> TextDecoder.bytes_needed before = 0%N ->
    units_shape b before after [b]
| units_broken_ascii :
    (b <= 127)%N -> units_shape b before after [TextDecoder.REPLACEMENT; b]
| units_high us :
    us <> [] -> Forall (fun u => (128 <= u)%N) us ->
    units_shape b before after us.

End Statements.

(* ================================================================== *)
(** * Concrete stores, turns and streams *)
(* ================================================================== *)

Module Examples.

Import A2AClient UseChat.

Definition user_hello : ChatMessage :=
  {| msg_id := lit "m1"; role := user; parts := [TextPart (lit "hello")];
     status := done; displayText := None; agentName := None;
     timestamp := 1000%Z |}.

Definition conversation_a : Conversation :=
  {| conv_id := lit "a"; agentId := lit "echo"; title := lit "hello";
     messages := [user_hello]; createdAt := 1000%Z; updatedAt := 1000%Z |}.

Definition conversation_b : Conversation :=
  {| conv_id := lit "b"; agentId := lit "echo"; title := lit "other";
     messages := []; createdAt := 2000%Z; updatedAt := 2000%Z |}.

Definition two_conversations : list Conversation :=
  [conversation_a; conversation_b].

Definition echo_agent : AgentOption :=
  {| agent_id := lit "echo"; card_name := lit "Echo";
     card_streaming := Some false |}.

(** The hook showing conversation [a], nothing typed. *)
Definition hook_on_a : hook :=
  {| conversations := two_conversations; activeConvId := Some (lit "a");
     selectedAgent := Some echo_agent; input := []; isLoading := true |}.

Definition turn_on_a : turn :=
  {| localConvId := lit "a"; agentMsgId := lit "m2";
     currentConvIdRef := lit "a" |}.

(** The first user message of a turn, 50 characters long. *)
Definition long_text : string :=
  "Please summarise the quarterly report for me today".

(** The hook with no conversation open and a first message typed. *)
Definition hook_fresh (typed : string) : hook :=
  {| conversations := two_conversations; activeConvId := None;
     selectedAgent := Some echo_agent; input := lit typed;
     isLoading := false |}.

Definition generated_1 : generated :=
  {| uuid_conversation := lit "local-3"; uuid_userMsg := lit "u-1";
     date_userMsg := 3000%Z; uuid_agentMsg := lit "g-1";
     date_agentMsg := 3001%Z; date_now := 3002%Z |}.

(** [send] on a first message of 50 characters, typed after two spaces,
    up to the call. *)
Definition begun : option (hook * turn * AgentOption * jsstring) :=
  send_begin generated_1 (hook_fresh ("  " ++ long_text)).

Definition begun_hook : hook :=
  match begun with
  | Some (h1, _, _, _) => h1
  | None => hook_fresh EmptyString
  end.

Definition begun_turn : turn :=
  {| localConvId := lit "local-3"; agentMsgId := lit "g-1";
     currentConvIdRef := lit "local-3" |}.

(** A gateway that answers every request with status 500. *)
Definition gateway_500 : gateway :=
  fun _ =>
    Responded false 500 (NotJson (Error (lit "Unexpected end of JSON input"))).

(** ** Streams *)

(** Text on the wire, written with ['] for the double quote. *)
Definition wire (s : string) : list byte :=
  map (fun b => if Byte.eqb b x27 then x22 else b) (list_byte_of_string s).

(** The same for a string of the program. *)
Definition text (s : string) : jsstring :=
  map (fun c => if N.eqb c 39 then 34%N else c) (lit s).

Definition CRLF : list byte := [x0d; x0a].

(** The stream of [chunks], then the end of the body, with a caller that
    never cancels and whose callbacks return, and the JSON grammar for
    [JSON.parse]. *)
Definition run (chunks : list (list byte)) : state :=
  A2AClient.streamMessage JsonText.parse never returns
    (delivery chunks [Done]).

(** One event whose JSON is laid out on two [data:] lines, each line
    ended by CR LF. *)
Definition two_line_event : list byte :=
  wire "data: {'kind':'status-update'," ++ CRLF
  ++ wire "data: 'status':{'state':'working'}}" ++ CRLF ++ CRLF.

(** The same bytes in two chunks, the first ending with the CR of the
    first line. *)
Definition two_line_event_split : list (list byte) :=
  [wire "data: {'kind':'status-update'," ++ [x0d];
   [x0a] ++ wire "data: 'status':{'state':'working'}}" ++ CRLF ++ CRLF].

(** A JSON-RPC envelope with a context identifier beside its result. *)
Definition envelope_text : jsstring :=
  text "{'jsonrpc':'2.0','id':'1','contextId':'ctx-top','result':{'kind':'status-update','status':{'state':'working'}}}".

Definition envelope_payload : JSON :=
  JObj [(lit "jsonrpc", JStr (lit "2.0")); (lit "id", JStr (lit "1"));
        (lit "contextId", JStr (lit "ctx-top"));
        (lit "result",
         JObj [(lit "kind", JStr (lit "status-update"));
               (lit "status", JObj [(lit "state", JStr (lit "working"))])])].

Definition envelope_stream : list (list byte) :=
  [wire "data: {'jsonrpc':'2.0','id':'1','contextId':'ctx-top','result':{'kind':'status-update','status':{'state':'working'}}}" ++ [x0a; x0a]].

(** Two payloads of a kind the client does not know, the first with an
    empty context identifier. *)
Definition heartbeat_empty : JSON :=
  JObj [(lit "kind", JStr (lit "heartbeat")); (lit "contextId", JStr [])].

Definition heartbeat_ctx2 : JSON :=
  JObj [(lit "kind", JStr (lit "heartbeat"));
        (lit "contextId", JStr (lit "ctx-2"))].

Definition heartbeat_stream : list (list byte) :=
  [wire "data: {'kind':'heartbeat','contextId':''}" ++ [x0a; x0a];
   wire "data: {'kind':'heartbeat','contextId':'ctx-2'}" ++ [x0a; x0a]].

(** A payload of an unknown kind with a context identifier, inside the
    envelope, then a message without one. *)
Definition ping_stream : list (list byte) :=
  [wire "data: {'jsonrpc':'2.0','result':{'kind':'ping','contextId':'srv-9'}}" ++ [x0a; x0a];
   wire "data: {'jsonrpc':'2.0','result':{'kind':'message','parts':[{'kind':'text','text':'hi'}]}}" ++ [x0a; x0a]].

Definition ping_payload : JSON :=
  JObj [(lit "jsonrpc", JStr (lit "2.0"));
        (lit "result",
         JObj [(lit "kind", JStr (lit "ping"));
               (lit "contextId", JStr (lit "srv-9"))])].

Definition hi_parts : JSON :=
  JArr [JObj [(lit "kind", JStr (lit "text")); (lit "text", JStr (lit "hi"))]].

Definition hi_payload : JSON :=
  JObj [(lit "jsonrpc", JStr (lit "2.0"));
        (lit "result",
         JObj [(lit "kind", JStr (lit "message")); (lit "parts", hi_parts)])].

(** A block that is not JSON, and a block that is. *)
Definition broken_block : jsstring := text "data: {oops".

Definition working_block : jsstring :=
  text "data: {'kind':'status-update','status':{'state':'working'}}".

(** A buffer with a block, a block that is not JSON, a block, and the
    beginning of one more. *)
Definition unfinished_block : jsstring := text "data: {'ki".

Definition buffered : state :=
  set_buffer
    (working_block ++ [LF; LF] ++ broken_block ++ [LF; LF]
     ++ working_block ++ [LF; LF] ++ unfinished_block)
    initial.

(** A stream that carries one part, with a caller that cancels from
    within [onPart]; more events are in the same chunk. *)
Definition part_then_more : list (list byte) :=
  [wire "data: {'kind':'message','parts':['a']}" ++ [x0a; x0a]
   ++ wire "data: {'kind':'message','parts':['b']}" ++ [x0a; x0a]].

Definition cancel_on_first_part (history : list callback) : bool :=
  match history with
  | [onPart _] => true
  | _ => false
  end.

(** A caller whose [onDone] throws, and one whose [onPart] does. *)
Definition onDone_throws (history : list callback) : option thrown :=
  match rev history with
  | onDone _ :: _ => Some (Error (lit "render failed"))
  | _ => None
  end.

Definition onPart_throws (history : list callback) : option thrown :=
  match rev history with
  | onPart _ :: _ => Some (NotAnError (lit "bad part"))
  | _ => None
  end.

(** The same stream and caller; [cancel()] is called once more while the
    second read is pending. *)
Definition cancelled_twice : exchange :=
  {| cancelled_during_fetch := false;
     fetched :=
       Response true 200
         (Some (map undisturbed (map Value part_then_more)
                ++ [{| cancelled := true; result := Done |}])) |}.

End Examples.

(* ================================================================== *)
(** * Agent discovery: [GATEWAY_BASE], [agentUrl], [agentIdFromCard],
      [fetchAgentCards] *)
(* ================================================================== *)

Module Discovery.

Import A2AClient.

Local Open Scope N_scope.

Definition SLASH : N := 47.
Definition DASH : N := 45.

(** [s.replace(/\/$/, '')]: a slash that ends the string is taken off,
    one only. *)
Definition strip_slash (s : jsstring) : jsstring :=
  match rev s with
  | c :: before => if c =? SLASH then rev before else s
  | [] => s
  end.

(** [a || b] for strings that may be [undefined]. *)
Definition or_else (a : option jsstring) (b : jsstring) : jsstring :=
  match a with
  | Some (c :: s) => c :: s
  | _ => b
  end.

(** [GATEWAY_BASE], from [import.meta.env.VITE_GATEWAY_URL] and
    [window.__ENV__.VITE_GATEWAY_URL]. *)
Definition GATEWAY_BASE (buildEnv runtimeEnv : option jsstring) : jsstring :=
  strip_slash (or_else buildEnv (or_else runtimeEnv (lit "/api"))).

(** [agentUrl]; [base] is [GATEWAY_BASE]. *)
Definition agentUrl (base agentId : jsstring) : jsstring :=
  base ++ lit "/agents/" ++ agentId ++ lit "/".

(** [pat] occurs in [s]. *)
Fixpoint occurs (pat s : jsstring) : bool :=
  startsWith pat s
  || match s with
     | [] => false
     | _ :: rest => occurs pat rest
     end.

(** [AgentCard], by what the client and the hook read of it. *)
Record AgentCard : Type := {
  name : jsstring;
  url : jsstring;
  streaming : option bool
}.

(** The longest prefix without a slash, and what follows it: what
    [[^/]+] takes when it is followed by a slash in the pattern. *)
Fixpoint segment (s : jsstring) : jsstring * jsstring :=
  match s with
  | [] => ([], [])
  | c :: rest =>
      if c =? SLASH then ([], s)
      else let (seg, after) := segment rest in (c :: seg, after)
  end.

(** The group of a match of [/\/agents\/([^/]+)\//] that starts where
    [s] starts. *)
Definition match_here (s : jsstring) : option jsstring :=
  if startsWith (lit "/agents/") s then
    match segment (skipn 8 s) with
    | (c :: seg, d :: _) => if d =? SLASH then Some (c :: seg) else None
    | _ => None
    end
  else None.

(** [url.match(/\/agents\/([^/]+)\//)?.[1]]: the group of the leftmost
    match. *)
Fixpoint url_match (s : jsstring) : option jsstring :=
  match match_here s with
  | Some id => Some id
  | None =>
      match s with
      | [] => None
      | _ :: rest => url_match rest
      end
  end.

(** [s.replace(/\s+/g, '-')]: every run of white space becomes one
    dash.  [\s] is the white space [trim] strips. *)
Fixpoint dash_spaces (in_run : bool) (s : jsstring) : jsstring :=
  match s with
  | [] => []
  | c :: rest =>
      if is_space c then
        if in_run then dash_spaces true rest
        else DASH :: dash_spaces true rest
      else c :: dash_spaces false rest
  end.

(** What [await fetch(...)] and [res.json()] come to for the discovery
    document. *)
Inductive cards_body : Type :=
| Cards (cards : list AgentCard)
| NotCards (err : thrown).

Inductive cards_response : Type :=
| Unreachable (err : thrown)
| Answered (ok : bool) (status : N) (body : cards_body).

(** [fetchAgentCards]: [inr] is the value it throws. *)
Definition fetchAgentCards (res : cards_response) : list AgentCard + thrown :=
  match res with
  | Unreachable err => inr err
  | Answered ok status body =>
      if negb ok then
        inr (Error (lit "Failed to fetch agents: HTTP " ++ decimal status))
      else
        match body with
        | Cards cards => inl cards
        | NotCards err => inr err
        end
  end.

Section LowerCase.

(** [String.prototype.toLowerCase], which belongs to the platform. *)
Variable toLowerCase : jsstring -> jsstring.

(** [agentIdFromCard]. *)
Definition agentIdFromCard (card : AgentCard) : jsstring :=
  match url_match (url card) with
  | Some id => id
  | None => dash_spaces false (toLowerCase (name card))
  end.

(** [{ id: agentIdFromCard(card), card }]. *)
Definition option_of (card : AgentCard) : AgentOption :=
  {| agent_id := agentIdFromCard card; card_name := name card;
     card_streaming := streaming card |}.

End LowerCase.

(** [toLowerCase] on the letters A to Z; other code units are kept. *)
Definition ascii_lower (s : jsstring) : jsstring :=
  map (fun c => if (65 <=? c) && (c <=? 90) then c + 32 else c) s.

End Discovery.

(* ================================================================== *)
(** * The [useChat] hook: the other operations it returns *)
(* ================================================================== *)

Module ChatActions.

Import A2AClient UseChat Discovery.

(** [conversations.find((c) => c.id === activeConvId) ?? null]. *)
Definition activeConv (h : hook) : option Conversation :=
  match activeConvId h with
  | Some i => find (fun c => JsString.eqb (conv_id c) i) (conversations h)
  | None => None
  end.

(** The state of the hook about the agents. *)
Record directory : Type := {
  agents : list AgentOption;
  agentsLoading : bool;
  agentsError : option jsstring
}.

Definition no_agents : directory :=
  {| agents := []; agentsLoading := true; agentsError := None |}.

Section LowerCase.

Variable toLowerCase : jsstring -> jsstring.

(** The effect that loads the agents, once [fetchAgentCards] has come to
    an end on the response [res]. *)
Definition loadAgents (res : cards_response) (d : directory) (h : hook)
  : directory * hook :=
  match fetchAgentCards res with
  | inl cards =>
      let options := map (option_of toLowerCase) cards in
      ({| agents := options; agentsLoading := false; agentsError := None |},
       match options with
       | first :: _ => setSelectedAgent (Some first) h
       | [] => h
       end)
  | inr err =>
      ({| agents := agents d; agentsLoading := false;
          agentsError :=
            Some match err with
                 | Error message => message
                 | NotAnError _ => lit "Failed to load agents"
                 end |},
       h)
  end.

End LowerCase.

(** The hook when the page opens with the conversations [loaded]. *)
Definition opened (loaded : list Conversation) : hook :=
  {| conversations := loaded; activeConvId := None; selectedAgent := None;
     input := []; isLoading := false |}.

End ChatActions.

(* ================================================================== *)
(** * [MessageBubble] and the side bar of [App] *)
(* ================================================================== *)

Module Presentation.

Import A2AClient UseChat.

Definition is_sending (s : MessageStatus) : bool :=
  match s with sending => true | _ => false end.

Definition is_streaming (s : MessageStatus) : bool :=
  match s with streaming => true | _ => false end.

Definition is_user (r : Role) : bool :=
  match r with user => true | agent => false end.

(** [fullText] of [MessageBubble]. *)
Definition fullText (m : ChatMessage) : jsstring :=
  match displayText m with
  | Some shown => shown
  | None =>
      join [LF]
        (flat_map
           (fun p => match p with TextPart t => [t] | DataPart _ _ => [] end)
           (parts m))
  end.

(** What a bubble holds: three dots, or [TextContent] with its [text]
    and [animate]. *)
Inductive bubble : Type :=
| streaming_dots
| TextContent (text : jsstring) (animate : bool).

Definition MessageBubble (m : ChatMessage) : bubble :=
  if is_sending (status m) && is_empty (fullText m) then streaming_dots
  else TextContent (fullText m) (is_streaming (status m) && negb (is_user (role m))).

(** [convsByAgent] of [App]: for every agent the conversations with it,
    the agents without any left out. *)
Definition convsByAgent (agents : list AgentOption)
  (conversations : list Conversation)
  : list (AgentOption * list Conversation) :=
  filter
    (fun g => negb (Nat.eqb (List.length (snd g)) 0))
    (map
       (fun a =>
          (a,
           filter (fun c => JsString.eqb (agentId c) (agent_id a))
             conversations))
       agents).

(** The conversations the side bar lists, from top to bottom. *)
Definition listed (agents : list AgentOption)
  (conversations : list Conversation) : list Conversation :=
  flat_map snd (convsByAgent agents conversations).

(** The agent of a conversation is among those loaded. *)
Definition known (agents : list AgentOption) (c : Conversation) : bool :=
  existsb (fun a => JsString.eqb (agentId c) (agent_id a)) agents.

End Presentation.

(* ================================================================== *)
(** * [useTypewriter] *)
(* ================================================================== *)

Module Typewriter.

Section Clock.

(** The numbers of the platform, for the time stamps of the frames and
    [speed]: [zero] is [0], [minus a b] is [a - b], [geq a b] is
    [a >= b]. *)
Variable number : Type.
Variable zero : number.
Variable minus : number -> number -> number.
Variable geq : number -> number -> bool.

(** [TypewriterOptions], by the dependencies of the effect. *)
Record options : Type := {
  text : jsstring;
  speed : number;
  enabled : bool
}.

(** One instance of the hook: its state [displayed], its refs, the frame
    that was requested and has not run yet (the function [animate], by
    the [text] and [speed] it closes over), whether the last effect
    returned a cleanup function, the calls of [onDone] made, and the
    effect React has scheduled at the last render and not run yet, by
    the dependencies it was rendered with. *)
Record instance : Type := {
  displayed : jsstring;
  indexRef : nat;
  lastTimeRef : number;
  requested : option (jsstring * number);
  cleanup : bool;
  onDone_calls : nat;
  scheduled : option options
}.

Definition mounted : instance :=
  {| displayed := []; indexRef := 0; lastTimeRef := zero;
     requested := None; cleanup := false; onDone_calls := 0;
     scheduled := None |}.

Definition setDisplayed (s : jsstring) (i : instance) : instance :=
  {| displayed := s; indexRef := indexRef i; lastTimeRef := lastTimeRef i;
     requested := requested i; cleanup := cleanup i;
     onDone_calls := onDone_calls i; scheduled := scheduled i |}.

Definition set_indexRef (n : nat) (i : instance) : instance :=
  {| displayed := displayed i; indexRef := n; lastTimeRef := lastTimeRef i;
     requested := requested i; cleanup := cleanup i;
     onDone_calls := onDone_calls i; scheduled := scheduled i |}.

Definition set_lastTimeRef (t : number) (i : instance) : instance :=
  {| displayed := displayed i; indexRef := indexRef i; lastTimeRef := t;
     requested := requested i; cleanup := cleanup i;
     onDone_calls := onDone_calls i; scheduled := scheduled i |}.

(** [rafRef.current = requestAnimationFrame(animate)]. *)
Definition requestAnimationFrame (closure : jsstring * number) (i : instance)
  : instance :=
  {| displayed := displayed i; indexRef := indexRef i;
     lastTimeRef := lastTimeRef i; requested := Some closure;
     cleanup := cleanup i; onDone_calls := onDone_calls i;
     scheduled := scheduled i |}.

(** [cancelAnimationFrame(rafRef.current)], and a frame that runs: the
    request is gone. *)
Definition cancelAnimationFrame (i : instance) : instance :=
  {| displayed := displayed i; indexRef := indexRef i;
     lastTimeRef := lastTimeRef i; requested := None;
     cleanup := cleanup i; onDone_calls := onDone_calls i;
     scheduled := scheduled i |}.

Definition set_cleanup (b : bool) (i : instance) : instance :=
  {| displayed := displayed i; indexRef := indexRef i;
     lastTimeRef := lastTimeRef i; requested := requested i;
     cleanup := b; onDone_calls := onDone_calls i;
     scheduled := scheduled i |}.

Definition call_onDone (i : instance) : instance :=
  {| displayed := displayed i; indexRef := indexRef i;
     lastTimeRef := lastTimeRef i; requested := requested i;
     cleanup := cleanup i; onDone_calls := S (onDone_calls i);
     scheduled := scheduled i |}.

Definition set_scheduled (o : option options) (i : instance) : instance :=
  {| displayed := displayed i; indexRef := indexRef i;
     lastTimeRef := lastTimeRef i; requested := requested i;
     cleanup := cleanup i; onDone_calls := onDone_calls i;
     scheduled := o |}.

(** The effect on [text], [speed] and [enabled]: first the cleanup the
    effect before it returned, if it returned one, then the body. *)
Definition effect (o : options) (i : instance) : instance :=
  let i0 := if cleanup i then cancelAnimationFrame i else i in
  if negb (enabled o) then set_cleanup false (setDisplayed (text o) i0)
  else
    let i1 :=
      if Nat.ltb (List.length (text o)) (indexRef i0)
      then setDisplayed [] (set_indexRef 0 i0)
      else i0 in
    if Nat.leb (List.length (text o)) (indexRef i1) then set_cleanup false i1
    else set_cleanup true (requestAnimationFrame (text o, speed o) i1).

(** [animate(timestamp)], for the [text] and [speed] it closes over. *)
Definition animate (closure : jsstring * number) (timestamp : number)
  (i : instance) : instance :=
  let (text, speed) := closure in
  if geq (minus timestamp (lastTimeRef i)) speed then
    let i1 := set_indexRef (S (indexRef i)) (set_lastTimeRef timestamp i) in
    let i2 := setDisplayed (slice_to (indexRef i1) text) i1 in
    if Nat.leb (List.length text) (indexRef i2) then call_onDone i2
    else requestAnimationFrame closure i2
  else requestAnimationFrame closure i.

(** The browser runs the frame that was requested, if one was. *)
Definition frame (timestamp : number) (i : instance) : instance :=
  match requested i with
  | Some closure => animate closure timestamp (cancelAnimationFrame i)
  | None => i
  end.

(** React runs the effect it has scheduled, if any. *)
Definition flush (i : instance) : instance :=
  match scheduled i with
  | Some o => effect o (set_scheduled None i)
  | None => i
  end.

(** What happens to an instance: it is rendered with dependencies that
    changed (the first time, when it is mounted), which schedules the
    effect; React runs the effect it has scheduled, some time after the
    render; or a frame comes.  An effect that is still scheduled when
    the instance is rendered again is run before that render. *)
Inductive event : Type :=
| Render (o : options)
| Effects
| Frame (timestamp : number).

Definition step (e : event) (i : instance) : instance :=
  match e with
  | Render o => set_scheduled (Some o) (flush i)
  | Effects => flush i
  | Frame timestamp => frame timestamp i
  end.

(** The instance after [events], the first of which mounts it. *)
Definition run (events : list event) : instance :=
  fold_left (fun i e => step e i) events mounted.

(** The text of the last render. *)
Fixpoint current_text (events : list event) (before : jsstring) : jsstring :=
  match events with
  | [] => before
  | Render o :: rest => current_text rest (text o)
  | Effects :: rest => current_text rest before
  | Frame _ :: rest => current_text rest before
  end.

(** The text of the last render whose effect has run, and the text of
    the render whose effect is still to run, if there is one. *)
Definition texts_step (s : jsstring * option jsstring) (e : event)
  : jsstring * option jsstring :=
  let ran := match snd s with Some t => t | None => fst s end in
  match e with
  | Render o => (ran, Some (text o))
  | Effects => (ran, None)
  | Frame _ => s
  end.

Definition text_history (events : list event) : jsstring * option jsstring :=
  fold_left texts_step events ([], None).

Definition effect_text (events : list event) : jsstring :=
  fst (text_history events).

Definition renders (events : list event) : nat :=
  List.length
    (filter (fun e => match e with Render _ => true | _ => false end)
       events).

(** [before] is how [s] begins. *)
Definition begins (before s : jsstring) : Prop :=
  exists rest, s = before ++ rest.

(** Every render that has the animation enabled has a text that begins
    with the text of the render before it. *)
Fixpoint grows (events : list event) (before : jsstring) : Prop :=
  match events with
  | [] => True
  | Render o :: rest =>
      (enabled o = true -> begins before (text o)) /\ grows rest (text o)
  | Effects :: rest => grows rest before
  | Frame _ :: rest => grows rest before
  end.

(** A frame is requested for the text of the last effect only, by an
    effect that returned its cleanup, and while some of the text is
    still to be displayed. *)
Definition pending_ok (current : jsstring) (i : instance) : Prop :=
  forall t sp, requested i = Some (t, sp) ->
  t = current /\ cleanup i = true
  /\ (indexRef i < List.length current)%nat.

(** Frames that come one after the other. *)
Definition frames (timestamps : list number) (i : instance) : instance :=
  fold_left (fun i timestamp => frame timestamp i) timestamps i.

(** Each of the time stamps is at least [speed] after the one before it,
    the first after [last]. *)
Fixpoint all_due (last speed : number) (timestamps : list number) : Prop :=
  match timestamps with
  | [] => True
  | timestamp :: rest =>
      geq (minus timestamp last) speed = true /\ all_due timestamp speed rest
  end.

End Clock.

(** Time in whole milliseconds, to run the hook on. *)
Definition ms_minus (a b : Z) : Z := (a - b)%Z.
Definition ms_geq (a b : Z) : bool := (b <=? a)%Z.

(** A message is rendered with [Hel], its effect runs, two frames come,
    the text grows, a frame comes too early, the effect of the second
    render runs, and a frame comes in time. *)
Definition typed_events : list (event Z) :=
  [Render {| text := lit "Hel"; speed := 10%Z; enabled := true |};
   Effects Z; Frame 16%Z; Frame 33%Z;
   Render {| text := lit "Hel" ++ [JsString.LF] ++ lit "lo"; speed := 10%Z;
             enabled := true |};
   Frame 40%Z; Effects Z; Frame 50%Z].

(** [Hel] is rendered and displayed but for its last character; the text
    grows, and a frame comes in time before the effect of the second
    render has run. *)
Definition stale_frame_events : list (event Z) :=
  [Render {| text := lit "Hel"; speed := 10%Z; enabled := true |};
   Effects Z; Frame 16%Z; Frame 33%Z;
   Render {| text := lit "Hel" ++ [JsString.LF] ++ lit "lo"; speed := 10%Z;
             enabled := true |}].

End Typewriter.

(* ================================================================== *)
(** * The callbacks of [send] on the callbacks of a stream *)
(* ================================================================== *)

(** [streamMessage] hands its callbacks what [JSON.parse] gave; [send]
    takes it for [Part[]] and [string | null].  Here the parts and the
    context identifier are read off the JSON value when it is of that
    type; a value that is not is outside of what follows ([None]). *)
Module StreamTurn.

Import A2AClient UseChat.

(** A JSON value that is a [TextPart] or a [DataPart]. *)
Definition as_Part (j : JSON) : option Part :=
  let kind := get (Some j) (lit "kind") in
  if is_string kind "text" then
    match get (Some j) (lit "text") with
    | Some (JStr t) => Some (TextPart t)
    | _ => None
    end
  else if is_string kind "data" then
    let data := get (Some j) (lit "data") in
    match get data (lit "type"), get data (lit "payload") with
    | Some (JStr type), Some payload => Some (DataPart type payload)
    | _, _ => None
    end
  else None.

Fixpoint as_Parts_of (items : list JSON) : option (list Part) :=
  match items with
  | [] => Some []
  | j :: rest =>
      match as_Part j, as_Parts_of rest with
      | Some p, Some ps => Some (p :: ps)
      | _, _ => None
      end
  end.

(** A JSON value that is a [Part[]]. *)
Definition as_Parts (j : JSON) : option (list Part) :=
  match j with
  | JArr items => as_Parts_of items
  | _ => None
  end.

(** One callback of the stream, made at the time [now]. *)
Definition on_callback (now : Date) (c : callback) (th : turn * hook)
  : option (turn * hook) :=
  match c with
  | onWorking => Some (stream_onWorking (fst th) (snd th))
  | onPart p =>
      match as_Parts p with
      | Some ps => Some (stream_onPart now ps (fst th) (snd th))
      | None => None
      end
  | onDone None => Some (stream_onDone None (fst th) (snd th))
  | onDone (Some (JStr s)) => Some (stream_onDone (Some s) (fst th) (snd th))
  | onDone (Some _) => None
  | onError msg => Some (stream_onError msg (fst th) (snd th))
  end.

(** The callbacks of a stream, one after the other; [clock n] is the
    time of the callback number [n]. *)
Fixpoint deliver (clock : nat -> Date) (n : nat) (cs : list callback)
  (th : turn * hook) : option (turn * hook) :=
  match cs with
  | [] => Some th
  | c :: rest =>
      match on_callback (clock n) c th with
      | Some th' => deliver clock (S n) rest th'
      | None => None
      end
  end.

(** The parts the callbacks bring, in order. *)
Definition received (cs : list callback) : list Part :=
  flat_map
    (fun c =>
       match c with
       | onPart p => match as_Parts p with Some ps => ps | None => [] end
       | _ => []
       end)
    cs.

Definition is_onPart (c : callback) : bool :=
  match c with onPart _ => true | _ => false end.

(** A message but for its status, a conversation but for the status of
    its messages and the time of its last update. *)
Definition content (m : ChatMessage)
  : jsstring * Role * list Part * option jsstring * option jsstring * Date :=
  (msg_id m, role m, parts m, displayText m, agentName m, timestamp m).

Definition forget (c : Conversation)
  : jsstring * jsstring * jsstring * Date
    * list (jsstring * Role * list Part * option jsstring * option jsstring
            * Date) :=
  (conv_id c, agentId c, title c, createdAt c, map content (messages c)).

(** [appendParts] on what [content] and [forget] keep. *)
Definition append_content (msgId : jsstring) (ps : list Part)
  (m : jsstring * Role * list Part * option jsstring * option jsstring * Date)
  : jsstring * Role * list Part * option jsstring * option jsstring * Date :=
  match m with
  | (i, r, old, shown, a, ts) =>
      if JsString.eqb i msgId
      then (i, r, old ++ ps, Some (partsToText (old ++ ps)), a, ts)
      else m
  end.

Definition append_forget (convId msgId : jsstring) (ps : list Part)
  (c : jsstring * jsstring * jsstring * Date
       * list (jsstring * Role * list Part * option jsstring
               * option jsstring * Date))
  : jsstring * jsstring * jsstring * Date
    * list (jsstring * Role * list Part * option jsstring * option jsstring
            * Date) :=
  match c with
  | (i, a, t, created, ms) =>
      if JsString.eqb i convId
      then (i, a, t, created, map (append_content msgId ps) ms)
      else c
  end.

End StreamTurn.

(* ================================================================== *)
(** * More notions the statements use *)
(* ================================================================== *)

Module MoreStatements.

Import A2AClient UseChat Statements ChatActions Presentation.

(** The display text of a message, when it has one, is the text of its
    parts. *)
Definition shown_is_text (m : ChatMessage) : Prop :=
  match displayText m with
  | Some shown => shown = partsToText (parts m)
  | None => True
  end.

(** Every message of the store is so. *)
Definition texts_agree (convs : list Conversation) : Prop :=
  forall c m, In c convs -> In m (messages c) -> shown_is_text m.

(** The identity [send] uses for the conversation of the turn: that of
    the active conversation, or a new one. *)
Definition turn_conversation (g : generated) (h : hook) : jsstring :=
  match activeConvId h with
  | Some (c :: i) => c :: i
  | _ => uuid_conversation g
  end.

(** The closure of the turn [send] begins. *)
Definition turn_of (g : generated) (h : hook) : turn :=
  {| localConvId := turn_conversation g h; agentMsgId := uuid_agentMsg g;
     currentConvIdRef := turn_conversation g h |}.

(** The two messages [send] inserts. *)
Definition userMsg (g : generated) (text : jsstring) : ChatMessage :=
  {| msg_id := uuid_userMsg g; role := user; parts := [TextPart text];
     status := done; displayText := None; agentName := None;
     timestamp := date_userMsg g |}.

Definition agentMsg (g : generated) (a : AgentOption) : ChatMessage :=
  {| msg_id := uuid_agentMsg g; role := agent; parts := [];
     status := sending; displayText := Some []; agentName := Some (card_name a);
     timestamp := date_agentMsg g |}.

(** The conversation [send] creates. *)
Definition newConv (g : generated) (a : AgentOption) (text : jsstring)
  : Conversation :=
  {| conv_id := uuid_conversation g; agentId := agent_id a;
     title := truncate text 42;
     messages := [userMsg g text; agentMsg g a];
     createdAt := date_now g; updatedAt := date_now g |}.

(** The two messages added to the conversations named [convId]. *)
Definition appendMessages (g : generated) (a : AgentOption) (text : jsstring)
  (convId : jsstring) (prev : list Conversation) : list Conversation :=
  map
    (fun c =>
       if JsString.eqb (conv_id c) convId
       then with_messages_updatedAt
              (messages c ++ [userMsg g text; agentMsg g a]) (date_now g) c
       else c)
    prev.

(** What a successful answer gives the turn: its parts, and the
    identity the conversation goes by afterwards. *)
Definition received_parts (r : RpcResult) : list Part :=
  match result_parts r with
  | Some ps => ps
  | None => []
  end.

Definition settled_conversation (r : RpcResult) (g : generated) (h : hook)
  : jsstring :=
  match result_contextId r with
  | Some (c :: i) => c :: i
  | _ => turn_conversation g h
  end.

(** The agent message of a turn holds the answer [ps]. *)
Definition shows_answer (ps : list Part) (m : ChatMessage) : Prop :=
  parts m = ps /\ displayText m = Some (partsToText ps)
  /\ status m = streaming.

Definition texts_agree_in (c : Conversation) : Prop :=
  forall m, In m (messages c) -> shown_is_text m.

(** What a message keeps for good. *)
Definition key (m : ChatMessage)
  : jsstring * Role * option jsstring * Date :=
  (msg_id m, role m, agentName m, timestamp m).

(** [c'] is [c] later on: the same agent, title and time of creation,
    the same messages in the same order, maybe more after them. *)
Definition continues (c c' : Conversation) : Prop :=
  agentId c' = agentId c /\ title c' = title c
  /\ createdAt c' = createdAt c
  /\ exists more, map key (messages c') = map key (messages c) ++ more.

(** The store [after] is the store [before] later on: its conversations
    in their order, each maybe with more messages, maybe with new
    conversations in front of them. *)
Definition extends (before after : list Conversation) : Prop :=
  exists front kept,
    after = front ++ kept /\ Forall2 continues before kept.

(** The conversation [convId] of the store holds a message of the agent
    that goes by [msgId]. *)
Definition holds_agent_message (convId msgId : jsstring)
  (convs : list Conversation) : Prop :=
  exists c m,
    In c convs /\ conv_id c = convId /\ In m (messages c)
    /\ msg_id m = msgId /\ role m = agent.

(** The adoption of [gid] by the turn [t] gives the conversations that
    go by [convId] another identity. *)
Definition renames (gid : option jsstring) (t : turn) (convId : jsstring)
  : bool :=
  match gid with
  | Some g =>
      negb (is_empty g || JsString.eqb g (currentConvIdRef t))
      && JsString.eqb (currentConvIdRef t) convId
  | None => false
  end.

(** What happens leaves the conversations that go by [convId] in the
    store, under that identity: it does not delete them, and is not the
    end of another turn that gives them the context identifier of its
    answer. *)
Definition leaves (convId : jsstring) (a : action) : bool :=
  match a with
  | do_deleteConversation i => negb (JsString.eqb i convId)
  | do_send_settle (inl result) t =>
      negb (renames (sent_contextId result) t convId)
  | do_onDone gid t => negb (renames gid t convId)
  | _ => true
  end.

Definition is_delete (a : action) : bool :=
  match a with
  | do_deleteConversation _ => true
  | _ => false
  end.

(** ** Streams *)

(** The callbacks the payloads lead to, in order. *)
Definition dispatched (payloads : list JSON) : list callback :=
  flat_map
    (fun p => match dispatchSseEvent p with Some c => [c] | None => [] end)
    payloads.

(** A part callback is made with parts of non-zero length only. *)
Definition with_parts (c : callback) : Prop :=
  match c with
  | onPart p => has_length (Some p) = true
  | _ => True
  end.

Section Payloads.

Variable JSON_parse : jsstring -> option JSON.

(** The payload of a block: none when the block is blank, has no data,
    has the data [[DONE]] or data that do not parse. *)
Definition payload_of (eventBlock : jsstring) : option JSON :=
  if is_empty (trim eventBlock) then None
  else
    let raw := block_raw eventBlock in
    if is_empty raw || JsString.eqb raw (lit "[DONE]") then None
    else JSON_parse raw.

Definition payloads (blocks : list jsstring) : list JSON :=
  flat_map
    (fun b => match payload_of b with Some p => [p] | None => [] end)
    blocks.

End Payloads.

(** The blocks of a body whose text is [text]: those a blank line ends
    and, unless it is blank, what follows the last blank line, handled
    as [processBuffer] does once two line feeds are added to it. *)
Definition blocks_of_body (text : jsstring) : list jsstring :=
  fst (feed [] text)
  ++ (if is_empty (trim (snd (feed [] text))) then []
      else fst (feed (snd (feed [] text)) [LF; LF])).

(** A state of the stream once the payloads [ps] went through the
    capture of the context identifier and [dispatchSseEvent], no
    callback calling [cancel()]. *)
Definition advance (ps : list JSON) (st : state) : state :=
  {| buffer := buffer st;
     firstContextId :=
       fold_left (fun cid p => capture p cid) ps (firstContextId st);
     aborted := aborted st; decoder := decoder st;
     trace := trace st ++ map Called (dispatched ps);
     decoded := decoded st ++ ps |}.

(** The texts of the text parts, in order. *)
Definition texts (ps : list Part) : list jsstring :=
  flat_map (fun p => match p with TextPart t => [t] | DataPart _ _ => [] end)
    ps.

(** The lines of a block that count. *)
Definition is_data_line (line : jsstring) : bool :=
  startsWith (lit "data: ") line.

Definition no_LF (line : jsstring) : Prop := Forall (fun c => c <> LF) line.

End MoreStatements.

(* ================================================================== *)
(** * More concrete stores and streams *)
(* ================================================================== *)

Module MoreExamples.

Import A2AClient UseChat Discovery ChatActions Presentation Examples.

(** The card of the agent [echo], as the gateway behind [/api] gives
    it. *)
Definition echo_card : AgentCard :=
  {| name := lit "Echo Agent"; url := lit "/api/agents/echo/";
     streaming := Some false |}.

(** Scenario A: the gateway answers the first message of a session with
    one text part and the context identifier [c1]. *)
Definition answer_hi : RpcResult :=
  {| result_parts := Some [TextPart (lit "hi")];
     result_contextId := Some (lit "c1") |}.

Definition gateway_hi : gateway :=
  fun _ =>
    Responded true 200
      (Json {| rpc_result := Some answer_hi; rpc_error := None |}).

(** A session from the first page load: the agent is selected, [hello]
    is typed and sent, two parts arrive, the stream ends with the
    context identifier [c1], the typewriter finishes. *)
Definition streaming_agent : AgentOption :=
  {| agent_id := lit "echo"; card_name := lit "Echo";
     card_streaming := Some true |}.

Definition turn_1 : turn :=
  {| localConvId := lit "local-3"; agentMsgId := lit "g-1";
     currentConvIdRef := lit "local-3" |}.

Definition turn_1_adopted : turn :=
  {| localConvId := lit "local-3"; agentMsgId := lit "g-1";
     currentConvIdRef := lit "c1" |}.

Definition session : list action :=
  [do_selectAgent streaming_agent; do_setInput (lit "hello");
   do_send_begin generated_1; do_onWorking turn_1;
   do_onPart 3100%Z [TextPart (lit "Hel")] turn_1;
   do_onPart 3200%Z [TextPart (lit "lo")] turn_1;
   do_onDone (Some (lit "c1")) turn_1;
   do_markDone (lit "c1") (lit "g-1")].

(** Scenario B: a stream with [working], then the parts [Hel] and [lo],
    the first with the context identifier [srv-9]; then the body
    ends. *)
Definition scenario_B : list (list byte) :=
  [wire "data: {'jsonrpc':'2.0','result':{'kind':'status-update','status':{'state':'working'}}}" ++ [x0a; x0a];
   wire "data: {'jsonrpc':'2.0','result':{'kind':'artifact-update','contextId':'srv-9','artifact':{'parts':[{'kind':'text','text':'Hel'}]}}}" ++ [x0a; x0a];
   wire "data: {'jsonrpc':'2.0','result':{'kind':'artifact-update','artifact':{'parts':[{'kind':'text','text':'lo'}]}}}" ++ [x0a; x0a]].

Definition scenario_B_callbacks : list callback :=
  called (trace (run scenario_B)).

(** The hook once [send] has begun the turn of [hello] with an agent
    that streams, in a store without conversations. *)
Definition hook_streaming : hook :=
  perform_all
    [do_selectAgent streaming_agent; do_setInput (lit "hello");
     do_send_begin generated_1]
    (opened []).

Definition every_100ms (n : nat) : Date := (3100 + 100 * Z.of_nat n)%Z.

(** The turn and the hook after the callbacks of the stream but the
    last, and after all of them. *)
Definition after_events : turn * hook :=
  match
    StreamTurn.deliver every_100ms 0 (removelast scenario_B_callbacks)
      (turn_1, hook_streaming)
  with
  | Some th => th
  | None => (turn_1, hook_streaming)
  end.

Definition after_stream : turn * hook :=
  match
    StreamTurn.deliver every_100ms 0 scenario_B_callbacks
      (turn_1, hook_streaming)
  with
  | Some th => th
  | None => (turn_1, hook_streaming)
  end.

(** What [uuidv4()] and [new Date()] give during a later call of
    [send]. *)
Definition generated_2 : generated :=
  {| uuid_conversation := lit "local-7"; uuid_userMsg := lit "u-2";
     date_userMsg := 7000%Z; uuid_agentMsg := lit "g-2";
     date_agentMsg := 7001%Z; date_now := 7002%Z |}.

(** No conversation yet, the agent selected, [hello] typed. *)
Definition hook_first (typed : string) : hook :=
  {| conversations := []; activeConvId := None;
     selectedAgent := Some echo_agent; input := lit typed;
     isLoading := false |}.

End MoreExamples.

(* ================================================================== *)
(** * Properties of the conversation store *)
(* ================================================================== *)

Module StoreFacts.

Import A2AClient UseChat Statements Examples.

Lemma eqb_eq (a b : jsstring) : JsString.eqb a b = true <-> a = b.
Proof.
  unfold JsString.eqb.
  destruct (list_eq_dec N.eq_dec a b); split; congruence.
Qed.

Lemma eqb_refl (a : jsstring) : JsString.eqb a a = true.
Proof. now apply eqb_eq. Qed.

Lemma eqb_neq (a b : jsstring) : JsString.eqb a b = false <-> a <> b.
Proof.
  unfold JsString.eqb.
  destruct (list_eq_dec N.eq_dec a b); split; congruence.
Qed.

Ltac by_eqb a b :=
  let E := fresh "E" in
  destruct (JsString.eqb a b) eqn:E;
  [apply eqb_eq in E | apply eqb_neq in E].

(** ** [appendParts] *)

Lemma appendParts_message_once (msgId : jsstring) (A B : list Part)
  (ms : list ChatMessage) :
  map
    (fun m =>
       if negb (JsString.eqb (msg_id m) msgId) then m
       else with_content (parts m ++ B) (partsToText (parts m ++ B)) streaming m)
    (map
       (fun m =>
          if negb (JsString.eqb (msg_id m) msgId) then m
          else
            with_content (parts m ++ A) (partsToText (parts m ++ A)) streaming m)
       ms)
  = map
      (fun m =>
         if negb (JsString.eqb (msg_id m) msgId) then m
         else
           with_content (parts m ++ A ++ B) (partsToText (parts m ++ A ++ B))
             streaming m)
      ms.
Proof.
  rewrite map_map. apply map_ext. intros m.
  by_eqb (msg_id m) msgId; simpl.
  - rewrite (proj2 (eqb_eq _ _) E). simpl.
    unfold with_content. simpl. now rewrite <- app_assoc.
  - now rewrite (proj2 (eqb_neq _ _) E).
Qed.

(** C5.  Appending [A] and then [B] to a message leaves the store that
    appending [A ++ B] at the time of the second call leaves; whatever
    the times of the calls, every conversation has the same messages
    either way: the same parts, the same display text, the same status. *)
Theorem appendParts_app (t1 t2 t3 : Date) (convId msgId : jsstring)
  (A B : list Part) (prev : list Conversation) :
  appendParts t2 convId msgId B (appendParts t1 convId msgId A prev)
  = appendParts t2 convId msgId (A ++ B) prev
  /\ map messages
       (appendParts t2 convId msgId B (appendParts t1 convId msgId A prev))
     = map messages (appendParts t3 convId msgId (A ++ B) prev).
Proof.
  assert (H : forall t,
    map (fun c => (conv_id c, agentId c, title c, messages c, createdAt c))
      (appendParts t2 convId msgId B (appendParts t1 convId msgId A prev))
    = map (fun c => (conv_id c, agentId c, title c, messages c, createdAt c))
        (appendParts t convId msgId (A ++ B) prev)).
  { intros t. unfold appendParts. rewrite !map_map. apply map_ext.
    intros c. by_eqb (conv_id c) convId; simpl.
    - rewrite (proj2 (eqb_eq _ _) E). simpl.
      now rewrite appendParts_message_once.
    - now rewrite (proj2 (eqb_neq _ _) E). }
  split.
  - unfold appendParts. rewrite map_map. apply map_ext. intros c.
    by_eqb (conv_id c) convId; simpl.
    + rewrite (proj2 (eqb_eq _ _) E). simpl.
      unfold with_messages_updatedAt. simpl.
      now rewrite appendParts_message_once.
    + now rewrite (proj2 (eqb_neq _ _) E).
  - specialize (H t3).
    apply (f_equal (map (fun x : _ * _ * _ * list ChatMessage * _ =>
                           snd (fst x)))) in H.
    rewrite !map_map in H. exact H.
Qed.

Lemma map_messages_absent (msgId : jsstring) (f : ChatMessage -> ChatMessage)
  (ms : list ChatMessage) :
  (forall m, In m ms -> msg_id m <> msgId) ->
  map (fun m => if negb (JsString.eqb (msg_id m) msgId) then m else f m) ms
  = ms.
Proof.
  intros H. rewrite <- (map_id ms) at 2. apply map_ext_in. intros m Hm.
  now rewrite (proj2 (eqb_neq _ _) (H m Hm)).
Qed.

(** C7, as the code has it.  When no conversation is named [convId] the
    store is left as it was.  When one is but holds no message named
    [msgId], it keeps its messages and every field except [updatedAt],
    which becomes the time of the call; the other conversations are left
    as they were. *)
Theorem appendParts_absent (now : Date) (convId msgId : jsstring)
  (newParts : list Part) (prev : list Conversation) :
  (~ In convId (ids prev) ->
   appendParts now convId msgId newParts prev = prev)
  /\ (message_absent convId msgId prev ->
      appendParts now convId msgId newParts prev
      = map
          (fun c =>
             if JsString.eqb (conv_id c) convId
             then with_messages_updatedAt (messages c) now c
             else c)
          prev).
Proof.
  split.
  - intros H. unfold appendParts. rewrite <- (map_id prev) at 2.
    apply map_ext_in. intros c Hc.
    by_eqb (conv_id c) convId; simpl; [|reflexivity].
    exfalso. apply H. subst convId. now apply in_map.
  - intros H. unfold appendParts. apply map_ext_in. intros c Hc.
    by_eqb (conv_id c) convId; simpl; [|reflexivity].
    now rewrite map_messages_absent by (now apply H).
Qed.

Ltac in_cases H := repeat (destruct H as [H|H]; [subst|]); try contradiction.

(** No conversation is named [zz]; conversation [a] holds no message
    named [zz]. *)
Lemma appendParts_absent_witness :
  appendParts 5000%Z (lit "zz") (lit "m1") [TextPart (lit "x")] two_conversations
  = two_conversations
  /\ appendParts 5000%Z (lit "a") (lit "zz") [TextPart (lit "x")]
       two_conversations
     = [with_messages_updatedAt [user_hello] 5000%Z conversation_a;
        conversation_b].
Proof.
  split.
  - apply (proj1 (appendParts_absent 5000%Z (lit "zz") (lit "m1")
                      [TextPart (lit "x")] two_conversations)).
    vm_compute. intros H. in_cases H; discriminate.
  - apply (proj2 (appendParts_absent 5000%Z (lit "a") (lit "zz")
                      [TextPart (lit "x")] two_conversations)).
    intros c Hc Hid m Hm. simpl in Hc. in_cases Hc.
    simpl in Hm. in_cases Hm. vm_compute. discriminate.
Defined.

(** C7 as stated fails: conversation [a] holds no message [zz], and
    [appendParts] on that message still changes the store, by [updatedAt]
    of [a]. *)
Lemma appendParts_absent_message_changes_store :
  message_absent (lit "a") (lit "zz") two_conversations
  /\ appendParts 5000%Z (lit "a") (lit "zz") [TextPart (lit "x")]
       two_conversations
     <> two_conversations
  /\ map updatedAt
       (appendParts 5000%Z (lit "a") (lit "zz") [TextPart (lit "x")]
          two_conversations)
     = [5000%Z; 2000%Z]
  /\ map updatedAt two_conversations = [1000%Z; 2000%Z].
Proof.
  split; [|split; [|split]].
  - intros c Hc Hid m Hm. simpl in Hc. in_cases Hc.
    simpl in Hm. in_cases Hm. vm_compute. discriminate.
  - vm_compute. discriminate.
  - reflexivity.
  - reflexivity.
Qed.

(** ** [adoptContextId] *)

Lemma same_but_id_refl (c : Conversation) : same_but_id c c.
Proof. unfold same_but_id. tauto. Qed.

Lemma renameConversation_adopted (old g : jsstring) (prev : list Conversation) :
  is_empty g = false ->
  Forall2 (adopted (Some g) old) prev (renameConversation old g prev).
Proof.
  intros Hg. induction prev as [|c prev IH]; simpl; constructor; trivial.
  unfold adopted. rewrite Hg.
  by_eqb (conv_id c) old; simpl.
  - split; [unfold same_but_id; simpl; tauto|]. split; congruence.
  - split; [apply same_but_id_refl|]. split; congruence.
Qed.

Lemma renameConversation_absent (old g : jsstring) (prev : list Conversation) :
  ~ In old (ids prev) -> renameConversation old g prev = prev.
Proof.
  intros H. unfold renameConversation. rewrite <- (map_id prev) at 2.
  apply map_ext_in. intros c Hc.
  by_eqb (conv_id c) old; [|reflexivity].
  exfalso. apply H. subst old. now apply in_map.
Qed.

Lemma renameConversation_ids (old g : jsstring) (prev : list Conversation) :
  forall i, In i (ids (renameConversation old g prev)) ->
  i = g \/ In i (ids prev).
Proof.
  induction prev as [|c prev IH]; simpl; [tauto|].
  intros i [Hi|Hi].
  - by_eqb (conv_id c) old; simpl in Hi; auto.
  - destruct (IH i Hi); auto.
Qed.

Lemma renameConversation_NoDup (old g : jsstring) (prev : list Conversation) :
  NoDup (ids prev) -> ~ In g (ids prev) ->
  NoDup (ids (renameConversation old g prev)).
Proof.
  induction prev as [|c prev IH]; simpl; intros Hnd Hg; [constructor|].
  inversion Hnd as [|i l Hc Hrest]; subst.
  by_eqb (conv_id c) old; simpl.
  - rewrite renameConversation_absent by (now subst old).
    constructor; tauto.
  - constructor; [|apply IH; tauto].
    intros Hin. apply renameConversation_ids in Hin. destruct Hin; [|tauto].
    apply Hg. now left.
Qed.

Lemma adopted_refl (gid : option jsstring) (old : jsstring)
  (convs : list Conversation) :
  match gid with
  | Some g => if is_empty g then old else g
  | None => old
  end = old ->
  Forall2 (adopted gid old) convs convs.
Proof.
  intros Hold. induction convs; constructor; trivial.
  split; [apply same_but_id_refl|]. split; congruence.
Qed.

(** C3, as the code has it.  In a store whose identities are distinct,
    adoption keeps the conversations in place with all they hold and
    changes no identity but that of the conversation the turn goes by; it
    leaves the store as it was when no conversation has that identity; it
    does nothing at all when the identifier is [null], empty or the one
    the turn goes by already; and the identities stay distinct provided
    the adopted identifier is not already that of another conversation.
    (The code does not look for such a conversation.) *)
Theorem adoptContextId_store (gid : option jsstring) (t : turn) (h : hook) :
  NoDup (ids (conversations h)) ->
  Forall2 (adopted gid (currentConvIdRef t))
    (conversations h) (conversations (snd (adoptContextId gid t h)))
  /\ (~ In (currentConvIdRef t) (ids (conversations h)) ->
      conversations (snd (adoptContextId gid t h)) = conversations h)
  /\ (gid = None \/ gid = Some [] \/ gid = Some (currentConvIdRef t) ->
      adoptContextId gid t h = (t, h))
  /\ ((forall g, gid = Some g -> g <> currentConvIdRef t ->
       ~ In g (ids (conversations h))) ->
      NoDup (ids (conversations (snd (adoptContextId gid t h))))).
Proof.
  intros Hnd.
  assert (Hnoop : gid = None \/ gid = Some [] \/ gid = Some (currentConvIdRef t)
                  -> adoptContextId gid t h = (t, h)).
  { intros [->|[->| ->]]; trivial. unfold adoptContextId.
    now rewrite eqb_refl, orb_true_r. }
  split; [|split; [|split; [exact Hnoop|]]]; clear Hnoop;
    unfold adoptContextId; destruct gid as [g|]; simpl; trivial;
    try (now apply adopted_refl);
    destruct (is_empty g) eqn:Hg; simpl; trivial;
    try (apply adopted_refl; now rewrite Hg);
    by_eqb g (currentConvIdRef t); simpl; trivial;
    try (apply adopted_refl; now rewrite Hg).
  - now apply renameConversation_adopted.
  - apply renameConversation_absent.
  - intros H. apply renameConversation_NoDup; trivial. now apply (H g).
Qed.

(** Scenario C: the turn in [a] adopts [srv-9], which names no
    conversation. *)
Lemma adoptContextId_store_witness :
  NoDup (ids (conversations (snd (adoptContextId (Some (lit "srv-9"))
                                    turn_on_a hook_on_a)))).
Proof.
  assert (Hnd : NoDup (ids (conversations hook_on_a))).
  { vm_compute. repeat constructor; simpl; intros H; in_cases H;
      discriminate. }
  apply (proj2 (proj2 (proj2
           (adoptContextId_store (Some (lit "srv-9")) turn_on_a hook_on_a Hnd)))).
  intros g Hg _ Hin. injection Hg as <-. vm_compute in Hin.
  in_cases Hin; discriminate.
Defined.

(** C3 as stated fails: the identities [a] and [b] are distinct; the turn
    in [a] adopts [b]; the store changes and two conversations are then
    named [b]. *)
Lemma adoptContextId_collision :
  NoDup (ids (conversations hook_on_a))
  /\ ids (conversations hook_on_a) = [lit "a"; lit "b"]
  /\ currentConvIdRef turn_on_a = lit "a"
  /\ ids (conversations (snd (adoptContextId (Some (lit "b"))
                                turn_on_a hook_on_a)))
     = [lit "b"; lit "b"]
  /\ conversations (snd (adoptContextId (Some (lit "b")) turn_on_a hook_on_a))
     <> conversations hook_on_a
  /\ ~ NoDup (ids (conversations (snd (adoptContextId (Some (lit "b"))
                                         turn_on_a hook_on_a)))).
Proof.
  split; [|split; [|split; [|split; [|split]]]].
  - vm_compute. repeat constructor; simpl; intros H; in_cases H; discriminate.
  - reflexivity.
  - reflexivity.
  - reflexivity.
  - vm_compute. discriminate.
  - intros H. vm_compute in H. inversion H as [|x l Hx Hl]. apply Hx.
    now left.
Qed.

(** ** [send] *)

Lemma truncate_length (text : jsstring) (max : nat) :
  (1 <= max)%nat -> (List.length (truncate text max) <= max)%nat.
Proof.
  intros Hmax. unfold truncate.
  destruct (Nat.leb (List.length text) max) eqn:E.
  - now apply Nat.leb_le.
  - unfold slice_to. rewrite length_app, length_firstn. simpl. lia.
Qed.

(** C10.  When [send] creates a conversation, it puts it in front of the
    others, and its title is the trimmed text if that has at most 42 code
    units, else the first 41 code units of the trimmed text followed by
    the one code unit of the ellipsis; either way the title has at most
    42 code units. *)
Theorem send_title (g : generated) (h h1 : hook) (t : turn)
  (a : AgentOption) (text : jsstring) :
  send_begin g h = Some (h1, t, a, text) ->
  starts_conversation h ->
  exists c,
    conversations h1 = c :: conversations h
    /\ text = trim (input h)
    /\ ((List.length text <= 42)%nat -> title c = text)
    /\ ((42 < List.length text)%nat ->
        title c = firstn 41 text ++ [ELLIPSIS])
    /\ (List.length (title c) <= 42)%nat.
Proof.
  unfold send_begin, starts_conversation. intros Hsend Hnew.
  destruct (selectedAgent h) as [selected|]; [|discriminate].
  destruct (is_empty (trim (input h)) || isLoading h); [discriminate|].
  assert (Hempty :
    match activeConvId h with Some i => is_empty i | None => true end = true).
  { destruct (activeConvId h) as [i|]; [now subst i|reflexivity]. }
  rewrite Hempty in Hsend. injection Hsend as <- <- <- <-.
  eexists. split; [reflexivity|]. simpl.
  split; [reflexivity|]. unfold truncate, slice_to.
  split; [|split].
  - intros Hle. now rewrite (proj2 (Nat.leb_le _ _) Hle).
  - intros Hlt. now rewrite (proj2 (Nat.leb_gt _ _) Hlt).
  - apply (@truncate_length (trim (input h)) 42). lia.
Qed.

(** A first message of 50 characters, typed after two spaces. *)
Lemma send_title_witness :
  exists c,
    conversations begun_hook = c :: two_conversations
    /\ title c = firstn 41 (lit long_text) ++ [ELLIPSIS]
    /\ (List.length (title c) <= 42)%nat.
Proof.
  destruct (@send_title generated_1 (hook_fresh ("  " ++ long_text))
              begun_hook begun_turn echo_agent (lit long_text)
              eq_refl I)
    as (c & Hc & _ & _ & Hlong & Hlen).
  exists c. split; [exact Hc|]. split; [|exact Hlen].
  apply Hlong. vm_compute. repeat constructor.
Defined.

Lemma updateMessage_in (cid mid : jsstring) (upd : ChatMessage -> ChatMessage)
  (prev : list Conversation) (c : Conversation) (m : ChatMessage) :
  In c prev -> conv_id c = cid -> In m (messages c) -> msg_id m = mid ->
  exists c', In c' (updateMessage cid mid upd prev)
             /\ conv_id c' = cid /\ In (upd m) (messages c').
Proof.
  intros Hc Hcid Hm Hmid.
  exists (with_messages
            (map (fun m => if JsString.eqb (msg_id m) mid then upd m else m)
               (messages c)) c).
  split; [|split; [exact Hcid|]].
  - unfold updateMessage.
    apply in_map_iff. exists c. split; [|exact Hc].
    now rewrite (proj2 (eqb_eq _ _) Hcid).
  - simpl. apply in_map_iff. exists m. split; [|exact Hm].
    now rewrite (proj2 (eqb_eq _ _) Hmid).
Qed.

Lemma updateMessage_inv (cid mid : jsstring) (upd : ChatMessage -> ChatMessage)
  (prev : list Conversation) (c' : Conversation) (m' : ChatMessage) :
  (forall m, msg_id (upd m) = msg_id m) ->
  In c' (updateMessage cid mid upd prev) -> conv_id c' = cid ->
  In m' (messages c') -> msg_id m' = mid ->
  exists m, m' = upd m.
Proof.
  intros Hupd Hc Hcid Hm Hmid.
  unfold updateMessage in Hc. apply in_map_iff in Hc.
  destruct Hc as [c [Hcc' Hc]].
  by_eqb (conv_id c) cid; simpl in Hcc'.
  - subst c'. simpl in Hm. apply in_map_iff in Hm.
    destruct Hm as [m [Hmm' Hm]].
    by_eqb (msg_id m) mid.
    + now exists m.
    + subst m'. contradiction.
  - subst c'. contradiction.
Qed.

End StoreFacts.

(* ================================================================== *)
(** * Properties of the streaming call *)
(* ================================================================== *)

Module StreamFacts.

Import A2AClient Statements Examples.

Section Decoding.

Variable JSON_parse : jsstring -> option JSON.
Variable cancels : list callback -> bool.
Variable throws : list callback -> option thrown.

Local Abbreviation call := (call cancels throws).
Local Abbreviation processEvent := (processEvent JSON_parse cancels throws).
Local Abbreviation processEvents := (processEvents JSON_parse cancels throws).
Local Abbreviation processBuffer := (processBuffer JSON_parse cancels throws).
Local Abbreviation catch := (catch cancels throws).
Local Abbreviation read_loop := (read_loop JSON_parse cancels throws).
Local Abbreviation streamMessage := (streamMessage JSON_parse cancels throws).
Local Abbreviation settled := (settled throws).

(** ** The loop over the blocks of a buffer *)

Lemma processEvent_aborted (eventBlock : jsstring) (st : state) :
  aborted st = true ->
  processEvent eventBlock st = (st, Continue)
  \/ processEvent eventBlock st = (st, Return).
Proof.
  intros Hab. unfold A2AClient.processEvent.
  destruct (is_empty (trim eventBlock)); [now left|].
  destruct (is_empty (block_raw eventBlock)
            || JsString.eqb (block_raw eventBlock) (lit "[DONE]"));
    [now left|].
  destruct (JSON_parse (block_raw eventBlock)); [|now left].
  rewrite Hab. now right.
Qed.

Lemma processEvent_return (eventBlock : jsstring) (st st1 : state) :
  processEvent eventBlock st = (st1, Return) ->
  st1 = st /\ aborted st = true.
Proof.
  unfold A2AClient.processEvent.
  destruct (is_empty (trim eventBlock)); [discriminate|].
  destruct (is_empty (block_raw eventBlock)
            || JsString.eqb (block_raw eventBlock) (lit "[DONE]"));
    [discriminate|].
  destruct (JSON_parse (block_raw eventBlock)) as [parsed|]; [|discriminate].
  destruct (aborted st); [intros [= <-]; auto|].
  destruct (dispatchSseEvent parsed) as [c|]; [|discriminate].
  destruct (A2AClient.call cancels throws c (captured parsed st))
    as [st2 [err|]]; discriminate.
Qed.

Lemma processEvents_aborted (events : list jsstring) (st : state) :
  aborted st = true -> processEvents events st = (st, None).
Proof.
  intros Hab. induction events as [|ev rest IH]; [reflexivity|]. simpl.
  destruct (processEvent_aborted ev st Hab) as [-> | ->]; trivial.
Qed.

(** A block, then the blocks after it unless a callback threw. *)
Lemma processEvents_cons (ev : jsstring) (rest : list jsstring) (st : state) :
  processEvents (ev :: rest) st
  = match processEvent ev st with
    | (st1, Throw err) => (st1, Some err)
    | (st1, _) => processEvents rest st1
    end.
Proof.
  simpl. destruct (processEvent ev st) as [st1 [| |err]] eqn:E; trivial.
  apply processEvent_return in E. destruct E as [-> Hab].
  now rewrite processEvents_aborted.
Qed.

Lemma processEvents_app (l1 l2 : list jsstring) (st : state) :
  processEvents (l1 ++ l2) st
  = match processEvents l1 st with
    | (st1, None) => processEvents l2 st1
    | (st1, Some err) => (st1, Some err)
    end.
Proof.
  revert st. induction l1 as [|ev l1 IH]; intros st; [reflexivity|].
  rewrite <- app_comm_cons, !processEvents_cons.
  destruct (processEvent ev st) as [st1 [| |err]]; trivial.
Qed.

Lemma processEvent_malformed (bad : jsstring) (st : state) :
  JSON_parse (block_raw bad) = None -> processEvent bad st = (st, Continue).
Proof.
  intros Hbad. unfold A2AClient.processEvent.
  destruct (is_empty (trim bad)); [reflexivity|].
  destruct (is_empty (block_raw bad)
            || JsString.eqb (block_raw bad) (lit "[DONE]"));
    [reflexivity|].
  now rewrite Hbad.
Qed.

(** C8.  A block whose data lines do not parse leaves everything as it
    was (the buffer, the context identifier, the trace: no callback, no
    error) and the loop goes on to the next block; so the blocks around
    it are handled as if it were not there, in the loop and in
    [processBuffer] on a buffer that holds it. *)
Theorem malformed_block_skipped (bad : jsstring) (pre post : list jsstring)
  (unfinished : jsstring) (st : state) :
  JSON_parse (block_raw bad) = None ->
  processEvent bad st = (st, Continue)
  /\ processEvents (pre ++ bad :: post) st = processEvents (pre ++ post) st
  /\ (split_LFLF (normalize (buffer st)) = pre ++ bad :: post ++ [unfinished]
      -> processBuffer st
         = processEvents (pre ++ post) (set_buffer unfinished st)).
Proof.
  intros Hbad.
  assert (Hskip : forall s,
    processEvents (pre ++ bad :: post) s = processEvents (pre ++ post) s).
  { intros s. rewrite !processEvents_app.
    destruct (processEvents pre s) as [s1 [err|]]; trivial.
    now rewrite processEvents_cons, processEvent_malformed. }
  split; [now apply processEvent_malformed|]. split; [apply Hskip|].
  intros Hsplit. unfold A2AClient.processBuffer. rewrite Hsplit.
  change (pre ++ bad :: post ++ [unfinished])
    with (pre ++ (bad :: post) ++ [unfinished]).
  rewrite app_assoc, removelast_last, last_last. apply Hskip.
Qed.

(** ** Traces *)

Lemma called_app (tr tr' : list observation) :
  called (tr ++ tr') = called tr ++ called tr'.
Proof.
  induction tr as [|[c|] tr IH]; simpl; trivial. now rewrite IH.
Qed.

Lemma quiet_cancel (tr : list observation) :
  quiet (tr ++ [Cancel]) = quiet tr.
Proof.
  induction tr as [|[c|] tr IH]; simpl; trivial.
  now rewrite called_app, app_nil_r.
Qed.

Lemma quiet_after_cancel_free (tr tr' : list observation) :
  cancel_free tr = true -> quiet (tr ++ tr') = quiet tr'.
Proof.
  induction tr as [|[c|] tr IH]; simpl; trivial. discriminate.
Qed.

Lemma quiet_spec (tr : list observation) :
  quiet tr = true ->
  forall pre post, tr = pre ++ Cancel :: post -> called post = [].
Proof.
  intros Hq pre. revert tr Hq.
  induction pre as [|[c|] pre IH]; intros tr Hq post ->; simpl in Hq.
  - now destruct (called post).
  - now apply (IH _ Hq post).
  - rewrite called_app in Hq. simpl in Hq.
    destruct (called pre); simpl in Hq; [|discriminate].
    now destruct (called post).
Qed.

(** ** What the operations keep *)

Lemma first_contextId_truthy (payloads : list JSON) :
  truthy_opt (first_contextId payloads) = false ->
  first_contextId payloads = None.
Proof.
  induction payloads as [|p rest IH]; simpl; trivial.
  destruct (truthy_opt (payload_contextId p)) eqn:E; trivial.
  intros H. congruence.
Qed.

Lemma first_contextId_app (l1 l2 : list JSON) :
  first_contextId (l1 ++ l2)
  = if truthy_opt (first_contextId l1) then first_contextId l1
    else first_contextId l2.
Proof.
  induction l1 as [|p l1 IH]; simpl; trivial.
  destruct (truthy_opt (payload_contextId p)) eqn:E; [now rewrite E|exact IH].
Qed.

Lemma first_contextId_snoc (l : list JSON) (p : JSON) :
  first_contextId (l ++ [p]) = capture p (first_contextId l).
Proof.
  rewrite first_contextId_app. unfold capture. simpl.
  destruct (truthy_opt (first_contextId l)) eqn:E.
  - now rewrite andb_false_r.
  - rewrite andb_true_r.
    destruct (truthy_opt (payload_contextId p)); trivial.
    symmetry. now apply first_contextId_truthy.
Qed.

Lemma running_initial : running initial.
Proof. repeat split. Qed.

Lemma running_set_buffer (b : jsstring) (st : state) :
  running st -> running (set_buffer b st).
Proof. trivial. Qed.

Lemma running_set_decoder (d : TextDecoder.decoder) (st : state) :
  running st -> running (set_decoder d st).
Proof. trivial. Qed.

Lemma running_captured (p : JSON) (st : state) :
  running st -> running (captured p st).
Proof.
  intros (Hq & Hab & Hlive & Hfirst). repeat split; trivial. simpl.
  now rewrite first_contextId_snoc, Hfirst.
Qed.

Lemma running_cancel_free (st : state) :
  running st -> aborted st = false -> cancel_free (trace st) = true.
Proof.
  intros (_ & Hab & _) H. rewrite H in Hab. now destruct (cancel_free _).
Qed.

Lemma running_call (c : callback) (st : state) :
  running st -> aborted st = false -> is_terminal c = false ->
  running (fst (call c st)).
Proof.
  intros Hrun Hnab Hc. pose proof (running_cancel_free Hrun Hnab) as Hcf.
  destruct Hrun as (Hq & Hab & Hlive & Hfirst).
  unfold A2AClient.call. simpl.
  assert (Hl : no_terminal (called (trace st ++ [Called c])) = true).
  { rewrite called_app. unfold no_terminal in *. rewrite forallb_app, Hlive.
    simpl. now rewrite Hc. }
  destruct (cancels (called (trace st ++ [Called c]))).
  - unfold cancel. repeat split; simpl; trivial.
    + rewrite quiet_cancel. now rewrite quiet_after_cancel_free.
    + unfold cancel_free. rewrite !forallb_app. simpl.
      now rewrite andb_false_r.
    + now rewrite called_app, app_nil_r.
  - repeat split; simpl; trivial.
    + now rewrite quiet_after_cancel_free.
    + rewrite Hnab. unfold cancel_free in *. rewrite forallb_app, Hcf.
      reflexivity.
Qed.

Lemma running_cancel (st : state) : running st -> running (cancel st).
Proof.
  intros (Hq & Hab & Hlive & Hfirst). unfold cancel.
  repeat split; simpl; trivial.
  - now rewrite quiet_cancel.
  - unfold cancel_free. rewrite forallb_app. simpl.
    now rewrite andb_false_r.
  - now rewrite called_app, app_nil_r.
Qed.

Lemma dispatchSseEvent_not_terminal (raw : JSON) (c : callback) :
  dispatchSseEvent raw = Some c -> is_terminal c = false.
Proof.
  assert (Hpart : forall parts c, part_callback parts = Some c ->
                                  is_terminal c = false).
  { intros [p|] c'; unfold part_callback; [|now intros [=]].
    destruct (has_length (Some p)); now intros [= <-]. }
  unfold dispatchSseEvent.
  repeat match goal with
         | |- context [if ?b then _ else _] => destruct b
         end;
    try (now intros [=]); try (apply Hpart); now intros [= <-].
Qed.

Lemma running_processEvent (ev : jsstring) (st : state) :
  running st -> running (fst (processEvent ev st)).
Proof.
  intros Hrun. unfold A2AClient.processEvent.
  destruct (is_empty (trim ev)); trivial.
  destruct (is_empty (block_raw ev)
            || JsString.eqb (block_raw ev) (lit "[DONE]")); trivial.
  destruct (JSON_parse (block_raw ev)) as [parsed|]; trivial.
  destruct (aborted st) eqn:Hab; trivial.
  destruct (dispatchSseEvent parsed) as [c|] eqn:Hc.
  - assert (H : running (fst (call c (captured parsed st)))).
    { apply running_call; [now apply running_captured|exact Hab|].
      now apply dispatchSseEvent_not_terminal with parsed. }
    now destruct (A2AClient.call cancels throws c (captured parsed st)).
  - now apply running_captured.
Qed.

Lemma running_processEvents (events : list jsstring) (st : state) :
  running st -> running (fst (processEvents events st)).
Proof.
  revert st. induction events as [|ev rest IH]; intros st Hrun; trivial.
  simpl. pose proof (running_processEvent ev Hrun) as H.
  destruct (processEvent ev st) as [st1 [| |err]]; simpl in *; auto.
Qed.

Lemma running_processBuffer (st : state) :
  running st -> running (fst (processBuffer st)).
Proof.
  intros Hrun. unfold A2AClient.processBuffer.
  now apply running_processEvents, running_set_buffer.
Qed.

Lemma running_settled (st : state) : running st -> settled st.
Proof.
  intros (Hq & Hab & Hlive & Hfirst). split; trivial.
  exists (called (trace st)), []. rewrite app_nil_r. auto.
Qed.

Lemma running_not_ended (st : state) :
  running st -> existsb is_terminal (called (trace st)) = false.
Proof.
  intros (_ & _ & Hlive & _). unfold no_terminal in Hlive.
  induction (called (trace st)) as [|c cs IH]; trivial. simpl in *.
  apply andb_prop in Hlive. destruct Hlive as [Hc Hcs].
  rewrite (IH Hcs). now destruct (is_terminal c).
Qed.

(** A terminal callback, made by a stream that was not cancelled. *)
Lemma settled_call (t : callback) (st : state) :
  running st -> aborted st = false -> is_terminal t = true ->
  quiet (trace (fst (call t st))) = true
  /\ called (trace (fst (call t st))) = called (trace st) ++ [t]
  /\ decoded (fst (call t st)) = decoded st
  /\ aborted (fst (call t st)) = negb (cancel_free (trace (fst (call t st))))
  /\ snd (call t st) = throws (called (trace st) ++ [t]).
Proof.
  intros Hrun Hnab Ht. pose proof (running_cancel_free Hrun Hnab) as Hcf.
  destruct Hrun as (Hq & Hab & Hlive & Hfirst).
  split; [|split; [|split; [|split]]].
  - unfold A2AClient.call. simpl. destruct (cancels _); simpl.
    + rewrite quiet_cancel. now rewrite quiet_after_cancel_free.
    + now rewrite quiet_after_cancel_free.
  - unfold A2AClient.call. simpl.
    destruct (cancels _); simpl; rewrite ?called_app; simpl;
      now rewrite ?called_app, ?app_nil_r.
  - unfold A2AClient.call; simpl; now destruct (cancels _).
  - unfold A2AClient.call. simpl. destruct (cancels _); simpl.
    + unfold cancel_free. rewrite !forallb_app. simpl.
      now rewrite !andb_false_r.
    + unfold cancel_free in *. rewrite forallb_app, Hcf. simpl. exact Hnab.
  - unfold A2AClient.call. simpl. now rewrite called_app.
Qed.

Lemma catch_settled (err : thrown) (st : state) :
  running st ->
  settled (catch err st)
  /\ (cancel_free (trace (catch err st)) = true ->
      called (trace (catch err st))
      = called (trace st) ++ [onError (as_Error err)]).
Proof.
  intros Hrun. unfold A2AClient.catch. destruct (aborted st) eqn:Hab.
  - split; [now apply running_settled|].
    destruct Hrun as (_ & Habs & _). rewrite Hab in Habs.
    intros Hcf. rewrite Hcf in Habs. discriminate.
  - destruct (@settled_call (onError (as_Error err)) st)
      as (Hq & Hc & _); trivial.
    split; [|auto]. split; [exact Hq|].
    exists (called (trace st)), [onError (as_Error err)].
    split; [exact Hc|]. split; [apply Hrun|].
    right. left. exists (onError (as_Error err)).
    split; [reflexivity|]. split; [reflexivity|].
    intros v Hv. discriminate Hv.
Qed.

Lemma ended_snoc (tr : list observation) (pre : list callback)
  (t : callback) :
  called tr = pre ++ [t] -> is_terminal t = true ->
  existsb is_terminal (called tr) = true.
Proof.
  intros -> Ht. rewrite existsb_app. simpl. rewrite Ht.
  now rewrite orb_true_r.
Qed.

(** The end of the body: [onDone], and [onError] when it threw. *)
Lemma done_settled (st : state) :
  running st -> aborted st = false ->
  settled match call (onDone (firstContextId st)) st with
          | (st2, Some err) => catch err st2
          | (st2, None) => st2
          end
  /\ existsb is_terminal
       (called (trace match call (onDone (firstContextId st)) st with
                      | (st2, Some err) => catch err st2
                      | (st2, None) => st2
                      end)) = true.
Proof.
  intros Hrun Hab.
  destruct (@settled_call (onDone (firstContextId st)) st)
    as (Hq & Hc & Hd & Hab2 & Hthrown); trivial.
  assert (Hfirst : firstContextId st = first_contextId (decoded st))
    by apply Hrun.
  destruct (A2AClient.call cancels throws (onDone (firstContextId st)) st)
    as [st2 exn]. simpl in Hq, Hc, Hd, Hab2, Hthrown. subst exn.
  assert (Hone : forall Hcase : (forall err,
                   throws (called (trace st) ++ [onDone (firstContextId st)])
                   = Some err -> cancel_free (trace st2) = false),
                 settled st2).
  { intros Hcase. split; [exact Hq|].
    exists (called (trace st)), [onDone (firstContextId st)].
    split; [exact Hc|]. split; [apply Hrun|].
    right. left. exists (onDone (firstContextId st)).
    split; [reflexivity|]. split; [reflexivity|].
    intros v Hv. injection Hv as <-. split; [now rewrite Hd|exact Hcase]. }
  destruct (throws (called (trace st) ++ [onDone (firstContextId st)]))
    as [err|] eqn:Hthrows.
  - unfold A2AClient.catch. destruct (aborted st2) eqn:Hab3.
    + split.
      * apply Hone. intros _ _.
        destruct (cancel_free (trace st2)); trivial;
          simpl in Hab2; congruence.
      * now apply ended_snoc with (called (trace st))
          (onDone (firstContextId st)).
    + assert (Hcf : cancel_free (trace st2) = true).
      { destruct (cancel_free (trace st2)); trivial;
          simpl in Hab2; congruence. }
      assert (Hcalled :
        called (trace (fst (call (onError (as_Error err)) st2)))
        = called (trace st) ++ [onDone (firstContextId st);
                                onError (as_Error err)]).
      { unfold A2AClient.call. simpl.
        destruct (cancels _); simpl; rewrite ?called_app; simpl;
          rewrite ?called_app, ?app_nil_r, Hc, <- app_assoc; reflexivity. }
      assert (Hdec : decoded (fst (call (onError (as_Error err)) st2))
                     = decoded st).
      { unfold A2AClient.call. simpl. now destruct (cancels _). }
      split.
      * split.
        -- unfold A2AClient.call. simpl. destruct (cancels _); simpl.
           ++ rewrite quiet_cancel. now rewrite quiet_after_cancel_free.
           ++ now rewrite quiet_after_cancel_free.
        -- exists (called (trace st)),
             [onDone (firstContextId st); onError (as_Error err)].
           split; [exact Hcalled|]. split; [apply Hrun|].
           right. right. exists err. rewrite Hdec, <- Hfirst. auto.
      * rewrite Hcalled, existsb_app. simpl. now rewrite orb_true_r.
  - split; [apply Hone; discriminate|].
    now apply ended_snoc with (called (trace st))
      (onDone (firstContextId st)).
Qed.

Lemma catch_ended (err : thrown) (st : state) :
  running st ->
  settled (catch err st)
  /\ (cancel_free (trace (catch err st)) = true ->
      existsb is_terminal (called (trace (catch err st))) = true).
Proof.
  intros Hrun. destruct (catch_settled err Hrun) as [Hs Hc].
  split; trivial. intros Hcf.
  now apply ended_snoc with (called (trace st)) (onError (as_Error err));
    auto.
Qed.

(** The loop: it keeps the trace in order, and once the body ends or
    breaks, or a callback throws, without [cancel()] having been called,
    a terminal callback was made. *)
Lemma read_loop_settled (reads : list read_step) (st : state) :
  running st ->
  settled (read_loop reads st)
  /\ (existsb is_final reads = true ->
      cancel_free (trace (read_loop reads st)) = true ->
      existsb is_terminal (called (trace (read_loop reads st))) = true).
Proof.
  revert st. induction reads as [|r rest IH]; intros st Hrun.
  - split; [now apply running_settled|discriminate].
  - cbn [A2AClient.read_loop existsb].
    set (st0 := if cancelled r then cancel st else st).
    assert (Hrun0 : running st0).
    { unfold st0. destruct (cancelled r); trivial. now apply running_cancel. }
    clearbody st0. clear st Hrun.
    assert (Hstop : forall (P : Prop) s,
                    running s -> aborted s = true ->
                    settled s
                    /\ (P -> cancel_free (trace s) = true ->
                        existsb is_terminal (called (trace s)) = true)).
    { intros P s Hrun Hab. split; [now apply running_settled|].
      intros _ Hcf. destruct Hrun as (_ & Habs & _).
      rewrite Hab, Hcf in Habs. discriminate. }
    unfold is_final at 1. destruct (result r) as [value| |err].
    + (* a chunk *)
      destruct (aborted st0) eqn:Hab; [now apply Hstop|].
      destruct (TextDecoder.decode (decoder st0) value) as [d text].
      pose proof (@running_processBuffer
                    (set_buffer (buffer st0 ++ text) (set_decoder d st0))
                    Hrun0) as Hrun1.
      destruct (A2AClient.processBuffer JSON_parse cancels throws
                  (set_buffer (buffer st0 ++ text) (set_decoder d st0)))
        as [st1 [err|]]; simpl in Hrun1.
      * destruct (catch_ended err Hrun1) as [Hs He]. auto.
      * simpl. now apply IH.
    + (* the body ends *)
      destruct (aborted st0) eqn:Hab; [now apply Hstop|].
      assert (Hrun1 :
        running
          (fst (if is_empty (trim (buffer st0)) then (st0, None)
                else processBuffer
                       (set_buffer (buffer st0 ++ [LF; LF]) st0)))).
      { destruct (is_empty (trim (buffer st0))); trivial.
        now apply running_processBuffer, running_set_buffer. }
      destruct (if is_empty (trim (buffer st0)) then (st0, None)
                else processBuffer
                       (set_buffer (buffer st0 ++ [LF; LF]) st0))
        as [st1 [err|]]; simpl in Hrun1.
      * destruct (catch_ended err Hrun1) as [Hs He]. auto.
      * destruct (aborted st1) eqn:Hab1; [now apply Hstop|].
        destruct (done_settled Hrun1 Hab1) as [Hs He]. auto.
    + (* the body breaks *)
      destruct (catch_ended err Hrun0) as [Hs He]. auto.
Qed.

Lemma streamMessage_settled (x : exchange) :
  settled (streamMessage x)
  /\ (completes x = true ->
      cancel_free (trace (streamMessage x)) = true ->
      existsb is_terminal (called (trace (streamMessage x))) = true).
Proof.
  unfold A2AClient.streamMessage, completes.
  set (st := if cancelled_during_fetch x then cancel initial else initial).
  assert (Hrun : running st).
  { unfold st. destruct (cancelled_during_fetch x);
      [apply running_cancel|]; apply running_initial. }
  clearbody st.
  assert (Hcatch : forall err,
    settled (catch err st)
    /\ (cancel_free (trace (catch err st)) = true ->
        existsb is_terminal (called (trace (catch err st))) = true)).
  { intros err. now apply catch_ended. }
  destruct (fetched x) as [err|ok status body].
  - destruct (Hcatch err). auto.
  - destruct ok; simpl.
    + destruct body as [reads|].
      * now apply read_loop_settled.
      * destruct (Hcatch (Error (lit "No response body"))). auto.
    + destruct (Hcatch (Error (lit "HTTP " ++ decimal status))). auto.
Qed.

Lemma no_terminal_not_ended (cs : list callback) :
  no_terminal cs = true -> existsb is_terminal cs = false.
Proof.
  unfold no_terminal. induction cs as [|c cs IH]; trivial. simpl.
  intros H. apply andb_prop in H. destruct H as [Hc Hcs].
  rewrite (IH Hcs). now destruct (is_terminal c).
Qed.

(** With an [onDone] that returns, a stream that made a terminal
    callback made one, the last. *)
Lemma one_terminal (st : state) :
  onDone_returns throws -> settled st ->
  (exists pre tail,
     called (trace st) = pre ++ tail /\ no_terminal pre = true
     /\ (tail = [] \/ exists t, tail = [t] /\ is_terminal t = true))
  /\ (existsb is_terminal (called (trace st)) = true ->
      exists pre t,
        called (trace st) = pre ++ [t]
        /\ is_terminal t = true /\ no_terminal pre = true).
Proof.
  intros Hret (_ & pre & tail & Hc & Hpre & Ht).
  destruct Ht as [->|[(t & -> & Ht & _)|(err & _ & Hthrows)]].
  - split; [exists pre, []; auto|].
    rewrite Hc, app_nil_r, (no_terminal_not_ended _ Hpre). discriminate.
  - split; [exists pre, [t]; repeat split; trivial; right; now exists t|].
    intros _. now exists pre, t.
  - rewrite Hret in Hthrows. discriminate Hthrows.
Qed.

(** C2, as the code has it.  Once [cancel()] was called no callback is
    made, whatever is still in the buffer and whatever the callbacks do.
    The terminal callbacks come last, and when the exchange comes to an
    end and [cancel()] was never called there is one at least; there are
    two when [onDone] threw and [cancel()] was not called, and only
    then: [onError] is called after it, with what it threw.  So with an
    [onDone] that returns, at most one callback is [onDone] or
    [onError], and it is the last; and there is exactly one when the
    exchange comes to an end and [cancel()] was never called. *)
Theorem stream_terminal_and_cancel (x : exchange) :
  (forall pre post,
     trace (streamMessage x) = pre ++ Cancel :: post ->
     called post = [])
  /\ (exists pre tail,
        called (trace (streamMessage x)) = pre ++ tail
        /\ no_terminal pre = true
        /\ (tail = []
            \/ (exists t,
                  tail = [t] /\ is_terminal t = true
                  /\ forall v err,
                       t = onDone v -> throws (pre ++ [t]) = Some err ->
                       cancel_free (trace (streamMessage x)) = false)
            \/ (exists v err,
                  tail = [onDone v; onError (as_Error err)]
                  /\ throws (pre ++ [onDone v]) = Some err)))
  /\ (completes x = true ->
      cancel_free (trace (streamMessage x)) = true ->
      existsb is_terminal (called (trace (streamMessage x))) = true)
  /\ (onDone_returns throws ->
      (exists pre tail,
         called (trace (streamMessage x)) = pre ++ tail
         /\ no_terminal pre = true
         /\ (tail = [] \/ exists t, tail = [t] /\ is_terminal t = true))
      /\ (completes x = true ->
          cancel_free (trace (streamMessage x)) = true ->
          exists pre t,
            called (trace (streamMessage x)) = pre ++ [t]
            /\ is_terminal t = true /\ no_terminal pre = true)).
Proof.
  destruct (streamMessage_settled x) as [Hs Hl].
  split; [|split; [|split; [exact Hl|]]].
  - destruct Hs as [Hq _]. now apply quiet_spec.
  - destruct Hs as (_ & pre & tail & Hc & Hpre & Ht).
    exists pre, tail. repeat split; trivial.
    destruct Ht as [->|[(t & -> & Ht & Hv)|(err & -> & Hthrows)]].
    + now left.
    + right. left. exists t. repeat split; trivial.
      intros v err Hdone. exact (proj2 (Hv v Hdone) err).
    + right. right. now exists (first_contextId (decoded (streamMessage x))), err.
  - intros Hret. destruct (one_terminal Hret Hs) as [Hone Hex].
    split; [exact Hone|]. intros Hends Hcf. apply Hex. now apply Hl.
Qed.

(** The identifier [onDone] receives. *)
Lemma onDone_first_contextId (x : exchange) (v : jsvalue) :
  In (onDone v) (called (trace (streamMessage x))) ->
  v = first_contextId (decoded (streamMessage x)).
Proof.
  destruct (streamMessage_settled x) as [(Hq & pre & tail & Hc & Hpre & Ht) _].
  rewrite Hc. intros Hin. apply in_app_or in Hin. destruct Hin as [Hin|Hin].
  - unfold no_terminal in Hpre. rewrite forallb_forall in Hpre.
    specialize (Hpre _ Hin). discriminate.
  - destruct Ht as [->|[(t & -> & _ & Hv)|(err & -> & _)]]; [contradiction| |].
    + destruct Hin as [Hin|[]]. now apply (Hv v).
    + destruct Hin as [Hin|[Hin|[]]]; [|discriminate Hin].
      now injection Hin as <-.
Qed.

(** C4, as the code has it.  The identifier [onDone] receives is the
    first truthy [contextId] among the payloads decoded, each read after
    the JSON-RPC envelope is taken off: in the result object of an
    envelope that has one, else at the top of the payload.  It is [null]
    when no payload has a truthy one. *)
Theorem onDone_contextId (x : exchange) (v : jsvalue) :
  In (onDone v) (called (trace (streamMessage x))) ->
  v = first_contextId (decoded (streamMessage x))
  /\ (v = None \/ truthy_opt v = true).
Proof.
  intros Hin. apply onDone_first_contextId in Hin. split; trivial.
  destruct (truthy_opt v) eqn:E; [now right|left].
  subst v. now apply first_contextId_truthy.
Qed.

Lemma unrecognized_not_dispatched (payload : JSON) :
  recognized payload = false -> dispatchSseEvent payload = None.
Proof.
  unfold recognized, dispatchSseEvent. intros H.
  destruct (is_object (Some payload)); trivial.
  destruct (is_string (get (Some (unwrap payload)) (lit "kind"))
              "status-update"); [discriminate H|].
  destruct (is_string (get (Some (unwrap payload)) (lit "kind"))
              "artifact-update"); [discriminate H|].
  destruct (is_string (get (Some (unwrap payload)) (lit "kind")) "message");
    [discriminate H|reflexivity].
Qed.

(** C9, as the code has it.  A decoded payload of a kind the client does
    not know leads to no callback; when it carries a truthy [contextId]
    and no payload decoded before it does, that identifier is the one
    [onDone] receives. *)
Theorem unrecognized_kind_contextId (x : exchange) (pre post : list JSON)
  (payload : JSON) (v : jsvalue) :
  decoded (streamMessage x) = pre ++ payload :: post ->
  recognized payload = false ->
  truthy_opt (payload_contextId payload) = true ->
  first_contextId pre = None ->
  dispatchSseEvent payload = None
  /\ (In (onDone v) (called (trace (streamMessage x))) ->
      v = payload_contextId payload).
Proof.
  intros Hdec Hkind Hcid Hpre.
  split; [now apply unrecognized_not_dispatched|].
  intros Hin. apply onDone_first_contextId in Hin.
  rewrite Hin, Hdec, first_contextId_app, Hpre. simpl. now rewrite Hcid.
Qed.

End Decoding.

(** ** The client on concrete streams *)

(** A stream that ends and is never cancelled makes one terminal
    callback, the last; a caller that cancels from within its first
    [onPart] hears nothing more, though another event is in the buffer
    and the body ends. *)
Lemma stream_terminal_and_cancel_witness :
  (exists pre t,
     called (trace (run [two_line_event])) = pre ++ [t]
     /\ is_terminal t = true /\ no_terminal pre = true)
  /\ trace (A2AClient.streamMessage JsonText.parse cancel_on_first_part
              returns cancelled_twice)
     = [Called (onPart (JArr [JStr (lit "a")]))] ++ Cancel :: [Cancel]
  /\ called [Cancel] = [].
Proof.
  split.
  - apply (proj2
             (proj2 (proj2 (proj2
                (@stream_terminal_and_cancel JsonText.parse never returns
                   (delivery [two_line_event] [Done]))))
                (fun _ _ => eq_refl)));
      vm_compute; reflexivity.
  - split; [vm_compute; reflexivity|].
    apply (proj1 (@stream_terminal_and_cancel JsonText.parse
                    cancel_on_first_part returns cancelled_twice)
             [Called (onPart (JArr [JStr (lit "a")]))] [Cancel]).
    vm_compute. reflexivity.
Defined.

(** C2 as stated fails: nobody cancels, the body ends, [onDone] throws;
    [onError] is called after it, with what it threw. *)
Lemma onDone_throws_then_onError :
  cancel_free
    (trace (A2AClient.streamMessage JsonText.parse never onDone_throws
              (delivery [two_line_event] [Done]))) = true
  /\ called
       (trace (A2AClient.streamMessage JsonText.parse never onDone_throws
                 (delivery [two_line_event] [Done])))
     = [onWorking; onDone None; onError (lit "render failed")].
Proof. split; vm_compute; reflexivity. Qed.

(** The first payload carries [srv-9] inside its envelope; [onDone]
    receives it. *)
Lemma onDone_contextId_witness :
  called (trace (run ping_stream))
  = [onPart hi_parts; onDone (Some (JStr (lit "srv-9")))]
  /\ Some (JStr (lit "srv-9")) = first_contextId (decoded (run ping_stream))
  /\ (Some (JStr (lit "srv-9")) = None
      \/ truthy_opt (Some (JStr (lit "srv-9"))) = true).
Proof.
  split; [vm_compute; reflexivity|].
  apply (@onDone_contextId JsonText.parse never returns
           (delivery ping_stream [Done]) (Some (JStr (lit "srv-9")))).
  vm_compute. right. left. reflexivity.
Defined.

(** C4 as stated fails: the one payload of the stream is a JSON-RPC
    envelope with the context identifier [ctx-top] at its top and a
    result object; [onDone] receives [null]. *)
Lemma envelope_contextId_not_captured :
  JsonText.parse envelope_text = Some envelope_payload
  /\ decoded (run envelope_stream) = [envelope_payload]
  /\ get (Some envelope_payload) (lit "contextId")
     = Some (JStr (lit "ctx-top"))
  /\ called (trace (run envelope_stream)) = [onWorking; onDone None].
Proof. repeat split; vm_compute; reflexivity. Qed.

(** The payload that carries [srv-9] is of the unknown kind [ping]: no
    callback for it, and [onDone] receives its identifier. *)
Lemma unrecognized_kind_contextId_witness :
  called (trace (run ping_stream))
  = [onPart hi_parts; onDone (Some (JStr (lit "srv-9")))]
  /\ dispatchSseEvent ping_payload = None
  /\ Some (JStr (lit "srv-9")) = payload_contextId ping_payload.
Proof.
  split; [vm_compute; reflexivity|].
  destruct (@unrecognized_kind_contextId JsonText.parse never returns
              (delivery ping_stream [Done]) [] [hi_payload] ping_payload
              (Some (JStr (lit "srv-9")))) as [Hnone Hid];
    try (vm_compute; reflexivity).
  split; [exact Hnone|]. apply Hid. vm_compute. right. left. reflexivity.
Defined.

(** C9 as stated fails: the first payload is of an unknown kind and its
    context identifier, the empty string, is the first one observed that
    is not [null]; [onDone] receives the identifier of the second
    payload. *)
Lemma empty_contextId_not_captured :
  decoded (run heartbeat_stream) = [heartbeat_empty; heartbeat_ctx2]
  /\ recognized heartbeat_empty = false
  /\ payload_contextId heartbeat_empty = Some (JStr [])
  /\ called (trace (run heartbeat_stream))
     = [onDone (Some (JStr (lit "ctx-2")))].
Proof. repeat split; vm_compute; reflexivity. Qed.

(** C1 does not hold of the code; here is an input on which it fails.
    The same bytes, an event whose JSON takes two [data:] lines ended by
    CR LF, give [onWorking] when they arrive in one chunk and no such
    callback when the first chunk ends between the CR and the LF of the
    first line: [processBuffer] stores the buffer back normalized, so the
    CR left at its end has become a line feed, which with the LF that
    opens the next chunk makes a blank line; each line is then taken for
    a block and neither parses.  ([ChunkFacts.chunks_do_not_matter] shows
    that no other cut changes anything.) *)
Theorem CRLF_split_changes_callbacks :
  concat two_line_event_split = two_line_event
  /\ called (trace (run [two_line_event])) = [onWorking; onDone None]
  /\ called (trace (run two_line_event_split)) = [onDone None].
Proof. repeat split; vm_compute; reflexivity. Qed.

(** A buffer with a block that is not JSON between two that are: both
    are dispatched, the unfinished block stays in the buffer. *)
Lemma malformed_block_skipped_witness :
  A2AClient.processEvent JsonText.parse never returns broken_block buffered
  = (buffered, Continue)
  /\ trace (fst (A2AClient.processBuffer JsonText.parse never returns
                   buffered))
     = [Called onWorking; Called onWorking]
  /\ buffer (fst (A2AClient.processBuffer JsonText.parse never returns
                    buffered))
     = unfinished_block.
Proof.
  destruct (@malformed_block_skipped JsonText.parse never returns broken_block
              [working_block] [working_block] unfinished_block buffered)
    as (Hone & _ & Hbuffer).
  - vm_compute. reflexivity.
  - split; [exact Hone|]. rewrite Hbuffer; [|vm_compute; reflexivity].
    split; vm_compute; reflexivity.
Defined.

End StreamFacts.

(* ================================================================== *)
(** * Chunk boundaries *)
(* ================================================================== *)

(** Where the bytes of a body are cut into chunks does not matter to the
    callbacks, as long as no cut falls between a carriage return and the
    line feed after it. *)
Module ChunkFacts.

Import A2AClient Statements Examples StreamFacts.

Local Open Scope N_scope.

Ltac lia_mod := Zify.zify; Z.to_euclidean_division_equations; lia.

(** ** Normalization of line ends *)

Lemma replace_CRLF_cons (c : N) (rest : jsstring) :
  c <> CR -> replace_CRLF (c :: rest) = c :: replace_CRLF rest.
Proof.
  intros Hc. simpl. destruct rest as [|d rest']; trivial.
  now rewrite (proj2 (N.eqb_neq c CR) Hc).
Qed.

Lemma replace_CRLF_no_CR (b t : jsstring) :
  no_CR b -> replace_CRLF (b ++ t) = b ++ replace_CRLF t.
Proof.
  induction 1 as [|c b Hc Hb IH]; trivial.
  rewrite <- app_comm_cons, replace_CRLF_cons by trivial. now rewrite IH.
Qed.

Lemma replace_CR_no_CR (b : jsstring) : no_CR b -> replace_CR b = b.
Proof.
  induction 1 as [|c b Hc Hb IH]; trivial. unfold replace_CR in *. simpl.
  rewrite (proj2 (N.eqb_neq c CR) Hc). now f_equal.
Qed.

Lemma normalize_no_CR_app (b t : jsstring) :
  no_CR b -> normalize (b ++ t) = b ++ normalize t.
Proof.
  intros Hb. unfold normalize, replace_CR.
  rewrite replace_CRLF_no_CR, map_app by trivial.
  f_equal. now apply replace_CR_no_CR.
Qed.

Lemma normalize_is_no_CR (s : jsstring) : no_CR (normalize s).
Proof.
  unfold normalize, replace_CR, no_CR. apply Forall_forall.
  intros c Hc. apply in_map_iff in Hc. destruct Hc as [x [<- _]].
  destruct (N.eqb_spec x CR); [discriminate|trivial].
Qed.

Lemma ends_CR_cons (c : N) (s : jsstring) :
  s <> [] -> ends_CR (c :: s) = ends_CR s.
Proof.
  intros Hs. unfold ends_CR. simpl.
  destruct (rev s) as [|x r] eqn:E; simpl; trivial.
  apply (f_equal (@rev N)) in E. rewrite rev_involutive in E. contradiction.
Qed.

Lemma replace_CRLF_app_len (n : nat) :
  forall x y : jsstring,
  (List.length x <= n)%nat ->
  ends_CR x && starts_LF y = false ->
  replace_CRLF (x ++ y) = replace_CRLF x ++ replace_CRLF y.
Proof.
  induction n as [|n IH]; intros x y Hlen Hcut.
  - destruct x; [reflexivity|simpl in Hlen; lia].
  - destruct x as [|c [|d x']]; [reflexivity| |].
    + (* one character before the cut *)
      simpl. destruct y as [|e y']; trivial.
      unfold ends_CR, starts_LF in Hcut. simpl in Hcut.
      now rewrite Hcut.
    + change ((c :: d :: x') ++ y) with (c :: d :: (x' ++ y)).
      cbn [replace_CRLF].
      destruct ((c =? CR) && (d =? LF)) eqn:E.
      * simpl. f_equal. apply IH; [simpl in Hlen; lia|].
        destruct x' as [|e x'']; [reflexivity|].
        rewrite !ends_CR_cons in Hcut by discriminate. exact Hcut.
      * change (c :: replace_CRLF ((d :: x') ++ y)
                = (c :: replace_CRLF (d :: x')) ++ replace_CRLF y).
        simpl app. f_equal.
        apply (IH (d :: x') y); [simpl in *; lia|].
        rewrite ends_CR_cons in Hcut by discriminate. exact Hcut.
Qed.

Lemma normalize_app (x y : jsstring) :
  ends_CR x && starts_LF y = false ->
  normalize (x ++ y) = normalize x ++ normalize y.
Proof.
  intros Hcut. unfold normalize, replace_CR.
  rewrite (@replace_CRLF_app_len (List.length x)) by trivial.
  apply map_app.
Qed.

(** ** Splitting at blank lines *)

Lemma push_front_nonempty (c : N) (ps : list jsstring) :
  push_front c ps <> [].
Proof. destruct ps; discriminate. Qed.

(** The two equations of [split_LFLF] on a string of two characters or
    more. *)
Lemma split_LFLF_blank (rest : jsstring) :
  split_LFLF (LF :: LF :: rest) = [] :: split_LFLF rest.
Proof. reflexivity. Qed.

Lemma split_LFLF_step (c d : N) (rest : jsstring) :
  (c =? LF) && (d =? LF) = false ->
  split_LFLF (c :: d :: rest) = push_front c (split_LFLF (d :: rest)).
Proof. intros H. cbn [split_LFLF]. now rewrite H. Qed.

Lemma split_LFLF_cases (c d : N) (rest : jsstring) :
  (c = LF /\ d = LF) \/ (c =? LF) && (d =? LF) = false.
Proof.
  destruct (N.eqb_spec c LF), (N.eqb_spec d LF); auto.
Qed.

Lemma split_LFLF_nonempty (s : jsstring) : split_LFLF s <> [].
Proof.
  destruct s as [|c [|d rest]]; try discriminate.
  destruct (split_LFLF_cases c d rest) as [[-> ->]|Hcd].
  - discriminate.
  - rewrite split_LFLF_step by trivial. apply push_front_nonempty.
Qed.

(** A string with no blank line is its own single piece. *)
Lemma split_LFLF_single_len (n : nat) :
  forall s p : jsstring,
  (List.length s <= n)%nat -> split_LFLF s = [p] -> p = s.
Proof.
  induction n as [|n IH]; intros s p Hlen Hs.
  - destruct s; [now injection Hs|simpl in Hlen; lia].
  - destruct s as [|c [|d rest]]; [now injection Hs|now injection Hs|].
    destruct (split_LFLF_cases c d rest) as [[-> ->]|Hcd].
    + rewrite split_LFLF_blank in Hs. injection Hs as _ Hs.
      now destruct (split_LFLF_nonempty rest).
    + rewrite split_LFLF_step in Hs by trivial.
      destruct (split_LFLF (d :: rest)) as [|q [|q' qs]] eqn:E;
        [now destruct (split_LFLF_nonempty (d :: rest))| |discriminate].
      simpl in Hs. injection Hs as <-. f_equal.
      apply (IH (d :: rest)); [simpl in *; lia|exact E].
Qed.

(** Splitting can stop at any point and go on from the unfinished
    piece: that is what keeping the last piece in [buffer] relies on. *)
Lemma split_LFLF_resume_len (n : nat) :
  forall x y : jsstring,
  (List.length x <= n)%nat ->
  split_LFLF (x ++ y)
  = removelast (split_LFLF x) ++ split_LFLF (last (split_LFLF x) [] ++ y).
Proof.
  induction n as [|n IH]; intros x y Hlen.
  - destruct x; [reflexivity|simpl in Hlen; lia].
  - destruct x as [|c [|d x']]; [reflexivity|reflexivity|].
    change ((c :: d :: x') ++ y) with (c :: d :: (x' ++ y)).
    destruct (split_LFLF_cases c d x') as [[-> ->]|Hcd].
    + rewrite !split_LFLF_blank.
      rewrite (IH x' y) by (simpl in Hlen; lia).
      pose proof (split_LFLF_nonempty x') as Hne.
      destruct (split_LFLF x') as [|p ps]; [contradiction|]. reflexivity.
    + rewrite !split_LFLF_step by trivial.
      change (d :: x' ++ y) with ((d :: x') ++ y).
      rewrite (IH (d :: x') y) by (simpl in *; lia).
      pose proof (split_LFLF_nonempty (d :: x')) as Hne.
      destruct (split_LFLF (d :: x')) as [|p [|q qs]] eqn:E;
        [contradiction| |].
      * (* no blank line in [x] *)
        apply (@split_LFLF_single_len (List.length (d :: x'))) in E;
          trivial.
        subst p. simpl removelast. simpl last.
        change (push_front c (split_LFLF (d :: x' ++ y))
                = split_LFLF (c :: d :: x' ++ y)).
        now rewrite split_LFLF_step.
      * reflexivity.
Qed.

Lemma split_LFLF_resume (x y : jsstring) :
  split_LFLF (x ++ y)
  = removelast (split_LFLF x) ++ split_LFLF (last (split_LFLF x) [] ++ y).
Proof. now apply (@split_LFLF_resume_len (List.length x)). Qed.

Lemma push_front_no_CR (c : N) (ps : list jsstring) :
  c <> CR -> Forall no_CR ps -> Forall no_CR (push_front c ps).
Proof.
  intros Hc Hps. destruct ps as [|p ps]; simpl.
  - constructor; [|apply Forall_nil].
    constructor; [exact Hc|apply Forall_nil].
  - inversion Hps; subst. constructor; trivial. now constructor.
Qed.

Lemma split_LFLF_no_CR_len (n : nat) :
  forall s : jsstring,
  (List.length s <= n)%nat -> no_CR s -> Forall no_CR (split_LFLF s).
Proof.
  assert (Hnil : Forall no_CR [[]])
    by (constructor; [apply Forall_nil|apply Forall_nil]).
  induction n as [|n IH]; intros s Hlen Hs.
  - destruct s; [exact Hnil|simpl in Hlen; lia].
  - destruct s as [|c [|d rest]];
      [exact Hnil|constructor; [exact Hs|apply Forall_nil]|].
    inversion Hs as [|? ? Hc Hrest]; subst.
    destruct (split_LFLF_cases c d rest) as [[-> ->]|Hcd].
    + rewrite split_LFLF_blank. constructor; [apply Forall_nil|].
      apply IH; [simpl in Hlen; lia|]. now inversion Hrest.
    + rewrite split_LFLF_step by trivial. apply push_front_no_CR; trivial.
      apply IH; [simpl in *; lia|trivial].
Qed.

Lemma feed_spec (buf text : jsstring) :
  split_LFLF (normalize (buf ++ text))
  = fst (feed buf text) ++ [snd (feed buf text)].
Proof.
  unfold feed. simpl. apply app_removelast_last, split_LFLF_nonempty.
Qed.

Lemma feed_no_CR (buf text : jsstring) : no_CR (snd (feed buf text)).
Proof.
  pose proof (feed_spec buf text) as H.
  pose proof (@split_LFLF_no_CR_len _ (normalize (buf ++ text))
                (le_n _) (normalize_is_no_CR _)) as Hall.
  rewrite H in Hall. apply Forall_app in Hall. destruct Hall as [_ Hall].
  now inversion Hall.
Qed.

(** [processBuffer], by the blocks and the buffer of [feed]. *)
Lemma processBuffer_feed (JSON_parse : jsstring -> option JSON)
  (cancels : list callback -> bool) (throws : list callback -> option thrown)
  (buf text : jsstring) (st : state) :
  A2AClient.processBuffer JSON_parse cancels throws
    (set_buffer (buf ++ text) st)
  = A2AClient.processEvents JSON_parse cancels throws (fst (feed buf text))
      (set_buffer (snd (feed buf text)) st).
Proof. reflexivity. Qed.

#[local] Opaque feed.

(** The blocks and the buffer after [text ++ more] is added at once are
    those after [text] and then [more] are, when the cut is not between a
    carriage return and its line feed. *)
Lemma feed_app (T t : jsstring) :
  ends_CR T && starts_LF t = false ->
  feed [] (T ++ t)
  = (fst (feed [] T) ++ fst (feed (snd (feed [] T)) t),
     snd (feed (snd (feed [] T)) t)).
Proof.
  intros Hcut.
  assert (H : split_LFLF (normalize (T ++ t))
              = (fst (feed [] T) ++ fst (feed (snd (feed [] T)) t))
                ++ [snd (feed (snd (feed [] T)) t)]).
  { rewrite normalize_app by trivial.
    rewrite split_LFLF_resume.
    pose proof (feed_spec [] T) as HT. change ([] ++ T) with T in HT.
    rewrite HT.
    rewrite removelast_last, last_last.
    rewrite <- normalize_no_CR_app by apply feed_no_CR.
    rewrite feed_spec. now rewrite app_assoc. }
  rewrite (surjective_pairing (feed [] (T ++ t))).
  pose proof (feed_spec [] (T ++ t)) as HW. change ([] ++ T ++ t) with (T ++ t) in HW.
  rewrite H in HW. apply app_inj_tail in HW. destruct HW as [<- <-].
  reflexivity.
Qed.

(** ** The decoder *)

Import TextDecoder.

Lemma decode_app (d : decoder) (v1 v2 : list byte) :
  decode d (v1 ++ v2)
  = let (d1, t1) := decode d v1 in
    let (d2, t2) := decode d1 v2 in (d2, t1 ++ t2).
Proof.
  revert d. induction v1 as [|b v1 IH]; intros d; simpl.
  - now destruct (decode d v2).
  - destruct (push d b) as [d1 s1]. rewrite IH.
    destruct (decode d1 v1) as [d2 s2]. destruct (decode d2 v2) as [d3 s3].
    now rewrite app_assoc.
Qed.

Lemma well_idle (d : decoder) : well (idle d).
Proof. left. reflexivity. Qed.

Lemma first_byte_shape (d : decoder) (b : N) :
  well (fst (first_byte d b))
  /\ BOM_seen (fst (first_byte d b)) = BOM_seen d
  /\ ((snd (first_byte d b) = [] /\ bytes_needed (fst (first_byte d b)) <> 0)
      \/ (snd (first_byte d b) = [b] /\ b <= 127)
      \/ snd (first_byte d b) = [REPLACEMENT]).
Proof.
  unfold first_byte.
  destruct (N.leb_spec b 127).
  { simpl. repeat split; [apply well_idle|auto]. }
  destruct (N.leb_spec 194 b); simpl.
  - destruct (N.leb_spec b 223); simpl.
    { repeat split; [|left; split; [reflexivity|discriminate]].
      right. simpl. repeat split; try lia. left. split; [lia|lia_mod]. }
    destruct (N.leb_spec 224 b); [|lia]. simpl.
    destruct (N.leb_spec b 239); simpl.
    { repeat split; [|left; split; [reflexivity|discriminate]].
      right. simpl.
      destruct (N.eqb_spec b 224), (N.eqb_spec b 237);
        repeat split; try lia; right; split; try lia;
        try (right; lia); left; lia_mod. }
    destruct (N.leb_spec 240 b); [|lia]. simpl.
    destruct (N.leb_spec b 244); simpl.
    { repeat split; [|left; split; [reflexivity|discriminate]].
      right. simpl.
      destruct (N.eqb_spec b 240), (N.eqb_spec b 244);
        repeat split; try lia; right; split; try lia;
        try (right; lia); left; lia_mod. }
    repeat split; [apply well_idle|auto].
  - destruct (N.leb_spec 224 b); [lia|]. destruct (N.leb_spec 240 b); [lia|].
    simpl. repeat split; [apply well_idle|auto].
Qed.

Lemma handler_shape (d : decoder) (b : N) :
  well d ->
  well (fst (handler d b))
  /\ BOM_seen (fst (handler d b)) = BOM_seen d
  /\ shape b d (fst (handler d b)) (snd (handler d b)).
Proof.
  intros Hwell. unfold handler.
  destruct (N.eqb_spec (bytes_needed d) 0) as [Hidle|Hbusy].
  { destruct (first_byte_shape d b) as (Hw & Hbom & Hsh).
    repeat split; trivial.
    destruct Hsh as [[-> Hn]|[[-> Hb]| ->]].
    - now apply shape_none.
    - now apply shape_ascii.
    - apply shape_high; [discriminate|]. repeat constructor; discriminate. }
  destruct Hwell as [Hwell|(Hseen & Hlow & Hup & Hcp)]; [contradiction|].
  destruct ((b <? lower_boundary d) || (upper_boundary d <? b)) eqn:Hrange.
  - (* the byte cannot continue the character *)
    destruct (first_byte_shape (idle d) b) as (Hw & Hbom & Hsh).
    destruct (first_byte (idle d) b) as [d' out]. simpl in *.
    repeat split; trivial.
    destruct Hsh as [[-> Hn]|[[-> Hb]| ->]].
    + apply shape_high; [discriminate|]. repeat constructor; discriminate.
    + now apply shape_broken_ascii.
    + apply shape_high; [discriminate|]. repeat constructor; discriminate.
  - apply orb_false_iff in Hrange. destruct Hrange as [Hge Hle].
    apply N.ltb_ge in Hge, Hle.
    destruct (N.eqb_spec (bytes_seen d + 1) (bytes_needed d)) as [Hlast|Hmore];
      simpl.
    + repeat split; [apply well_idle|].
      apply shape_high; [discriminate|]. repeat constructor.
      destruct Hcp as [[_ Hcp]|[Hcp _]]; [lia_mod|lia].
    + repeat split; [|now apply shape_none].
      right. simpl. repeat split; try lia.
      destruct Hcp as [[Hcp _]|[Hrem Hcp]]; [lia|].
      assert (Hnext : 1 <= code_point d * 64 + b mod 64)
        by (destruct Hcp; lia_mod).
      destruct (N.eq_dec (bytes_needed d) (bytes_seen d + 2)).
      * left. split; [lia|].
        (* two bytes to go before this one: the lead byte was 0xE0 .. 0xEF
           or the character is on its third byte *)
        destruct Hcp; lia_mod.
      * right. split; [lia|]. left. exact Hnext.
Qed.

Lemma code_units_high (c : N) :
  128 <= c -> code_units c <> [] /\ Forall (fun u => 128 <= u) (code_units c).
Proof.
  intros Hc. unfold code_units. destruct (N.ltb_spec c 65536).
  - split; [discriminate|]. constructor; [exact Hc|constructor].
  - split; [discriminate|].
    constructor; [lia_mod|]. constructor; [lia_mod|constructor].
Qed.

Lemma units_high_all (cps : list N) :
  Forall (fun c => 128 <= c) cps ->
  Forall (fun u => 128 <= u) (flat_map code_units cps)
  /\ (cps <> [] -> flat_map code_units cps <> []).
Proof.
  induction 1 as [|c cps Hc Hall [IH1 IH2]]; simpl.
  - split; [constructor|congruence].
  - destruct (code_units_high Hc) as [Hne Hhigh]. split.
    + apply Forall_app. auto.
    + intros _ Habs. apply app_eq_nil in Habs. tauto.
Qed.

Lemma strip_BOM_true (cps : list N) : strip_BOM true cps = (true, cps).
Proof. now destruct cps. Qed.

Lemma push_shape (d : decoder) (b : byte) :
  well d ->
  well (fst (push d b))
  /\ (BOM_seen d = true -> BOM_seen (fst (push d b)) = true)
  /\ (snd (push d b) <> [] -> BOM_seen (fst (push d b)) = true)
  /\ units_shape (Byte.to_N b) d (fst (push d b)) (snd (push d b)).
Proof.
  intros Hwell. unfold push.
  destruct (handler_shape (Byte.to_N b) Hwell) as (Hw & Hbom & Hsh).
  destruct (handler d (Byte.to_N b)) as [d1 cps]. simpl in Hw, Hbom, Hsh.
  assert (Hwell' : forall seen,
    well {| code_point := code_point d1; bytes_seen := bytes_seen d1;
            bytes_needed := bytes_needed d1;
            lower_boundary := lower_boundary d1;
            upper_boundary := upper_boundary d1; BOM_seen := seen |})
    by (intros seen; exact Hw).
  rewrite Hbom. destruct (BOM_seen d) eqn:Hseen.
  - (* the first code point of the stream was seen already *)
    rewrite strip_BOM_true. simpl. repeat split; trivial.
    destruct Hsh as [Hn|Hb Hi|Hb|cs Hne Hall]; simpl.
    + apply units_none. now left.
    + unfold code_units. destruct (N.ltb_spec (Byte.to_N b) 65536); [|lia].
      now apply units_ascii.
    + unfold code_units. destruct (N.ltb_spec (Byte.to_N b) 65536); [|lia].
      now apply units_broken_ascii.
    + destruct (units_high_all Hall) as [H1 H2].
      apply units_high; auto.
  - destruct Hsh as [Hn|Hb Hi|Hb|cs Hne Hall]; simpl.
    + repeat split; trivial; [congruence|]. apply units_none. now right.
    + destruct (N.eqb_spec (Byte.to_N b) 65279); [lia|]. simpl.
      unfold code_units. destruct (N.ltb_spec (Byte.to_N b) 65536); [|lia].
      simpl. repeat split; trivial. now apply units_ascii.
    + simpl. unfold code_units at 2.
      destruct (N.ltb_spec (Byte.to_N b) 65536); [|lia].
      repeat split; trivial. now apply units_broken_ascii.
    + destruct cs as [|c cs]; [contradiction|]. simpl.
      inversion Hall as [|? ? Hc Hcs]; subst.
      destruct (units_high_all Hcs) as [H1 H2].
      destruct (code_units_high Hc) as [Hne' Hhigh].
      destruct (N.eqb_spec c 65279).
      * rewrite strip_BOM_true. simpl. repeat split; trivial.
        destruct (flat_map code_units cs) eqn:E.
        -- apply units_none. now right.
        -- apply units_high; [discriminate|trivial].
      * simpl. repeat split; trivial.
        apply units_high.
        -- intros Habs. apply app_eq_nil in Habs. tauto.
        -- apply Forall_app. auto.
Qed.

Lemma units_first (b : N) (d d' : decoder) (u : N) (us : jsstring) :
  units_shape b d d' (u :: us) -> u < 128 -> bytes_needed d = 0 /\ u = b.
Proof.
  intros Hsh Hu. inversion Hsh as [Hn|Hb Hi|Hb|cs Hne Hall]; subst; auto.
  - unfold REPLACEMENT in Hu. lia.
  - inversion Hall; subst. lia.
Qed.

Lemma units_last (b : N) (d d' : decoder) (u : N) (us : jsstring) :
  units_shape b d d' (us ++ [u]) -> u < 128 -> u = b.
Proof.
  intros Hsh Hu.
  inversion Hsh as [Hn|Hb Hi|Hb|cs Hne Hall]; subst.
  - now destruct us.
  - destruct us as [|x [|y us]]; try discriminate. now injection H.
  - destruct us as [|x [|y [|z us]]]; try discriminate. now injection H.
  - apply Forall_app in Hall. destruct Hall as [_ Hall].
    inversion Hall; subst. lia.
Qed.

(** The decoder, from its first byte on: it is [well]; until it has
    given a code unit it has not met the first code point. *)
Lemma decode_well (v : list byte) :
  forall d, well d ->
  well (fst (decode d v))
  /\ (BOM_seen d = true -> BOM_seen (fst (decode d v)) = true)
  /\ (snd (decode d v) <> [] -> BOM_seen (fst (decode d v)) = true).
Proof.
  induction v as [|b v IH]; intros d Hwell; simpl.
  - repeat split; trivial. congruence.
  - destruct (push_shape b Hwell) as (Hw & Hb1 & Hb2 & _).
    destruct (push d b) as [d1 s1]. simpl in *.
    destruct (IH d1 Hw) as (Hw' & Hb1' & Hb2').
    destruct (decode d1 v) as [d2 s2]. simpl in *.
    repeat split; trivial; [tauto|].
    intros Hne. destruct s1 as [|u s1].
    + now apply Hb2'.
    + apply Hb1', Hb2. discriminate.
Qed.

(** A chunk whose text starts with a code unit below 128 starts with
    that byte, and found the decoder between two characters. *)
Lemma decode_first (v : list byte) :
  forall d u t,
  well d -> BOM_seen d = true ->
  snd (decode d v) = u :: t -> u < 128 ->
  bytes_needed d = 0 /\ exists b v', v = b :: v' /\ Byte.to_N b = u.
Proof.
  induction v as [|b v IH]; intros d u t Hwell Hbom Htext Hu;
    [discriminate|].
  simpl in Htext.
  destruct (push_shape b Hwell) as (Hw & Hb1 & _ & Hsh).
  destruct (push d b) as [d1 s1]. simpl in *.
  destruct (decode d1 v) as [d2 s2] eqn:E. simpl in Htext.
  destruct s1 as [|u1 s1].
  - (* no code unit from the first byte: a character is in progress *)
    exfalso. simpl in Htext. subst s2.
    destruct (IH d1 u t Hw (Hb1 Hbom)) as [Hidle _]; trivial.
    { now rewrite E. }
    inversion Hsh as [[Hn|Hn]| | |]; subst; congruence.
  - injection Htext as -> _.
    destruct (units_first Hsh Hu) as [Hidle ->]. eauto.
Qed.

(** The text of the bytes so far ends with a code unit below 128 and the
    decoder is between two characters: the bytes end with that byte. *)
Lemma decode_last (sofar : list byte) (T : jsstring) (u : N) :
  snd (decode fresh sofar) = T ++ [u] -> u < 128 ->
  bytes_needed (fst (decode fresh sofar)) = 0 ->
  exists s b, sofar = s ++ [b] /\ Byte.to_N b = u.
Proof.
  destruct sofar as [|b s _] using rev_ind; intros Htext Hu Hidle.
  - now destruct T.
  - exists s, b. split; trivial.
    rewrite decode_app in Htext, Hidle.
    assert (Hfresh : well fresh) by (left; reflexivity).
    destruct (decode_well s Hfresh) as (Hw & _ & Hseen).
    destruct (decode fresh s) as [d T0]. simpl in *.
    destruct (push_shape b Hw) as (_ & _ & _ & Hsh).
    destruct (push d b) as [d1 s1]. simpl in *.
    rewrite app_nil_r in Htext.
    destruct s1 as [|x s1 _] using rev_ind.
    + (* the last byte gave no code unit *)
      exfalso. rewrite app_nil_r in Htext. subst T0.
      assert (Hb : BOM_seen d = true) by (apply Hseen; now destruct T).
      inversion Hsh as [[Hn|Hn]| | |]; subst; congruence.
    + rewrite app_assoc in Htext.
      apply app_inj_tail in Htext. destruct Htext as [_ ->].
      symmetry. eapply units_last; eauto.
Qed.

(** A cut between chunks that does not part a carriage return from its
    line feed does not do so in the text either. *)
Lemma text_cut (sofar v : list byte) :
  ends_with_CR sofar && starts_with_LF v = false ->
  ends_CR (snd (decode fresh sofar))
  && starts_LF (snd (decode (fst (decode fresh sofar)) v)) = false.
Proof.
  intros Hcut.
  destruct (ends_CR (snd (decode fresh sofar))) eqn:Hend; trivial.
  destruct (starts_LF (snd (decode (fst (decode fresh sofar)) v))) eqn:Hstart;
    trivial.
  exfalso.
  assert (Hfresh : well fresh) by (left; reflexivity).
  destruct (decode_well sofar Hfresh) as (Hw & _ & Hseen).
  unfold ends_CR in Hend.
  destruct (rev (snd (decode fresh sofar))) as [|u r] eqn:Hrev;
    [discriminate|].
  apply N.eqb_eq in Hend. subst u.
  apply (f_equal (@rev N)) in Hrev. rewrite rev_involutive in Hrev.
  simpl in Hrev.
  unfold starts_LF in Hstart.
  destruct (snd (decode (fst (decode fresh sofar)) v)) as [|u t] eqn:Htext;
    [discriminate|].
  apply N.eqb_eq in Hstart. subst u.
  destruct (@decode_first v (fst (decode fresh sofar)) LF t)
    as (Hidle & b & v' & -> & Hb); trivial.
  { apply Hseen. rewrite Hrev. now destruct (rev r). }
  { reflexivity. }
  destruct (@decode_last sofar (rev r) CR) as (s & b' & -> & Hb');
    trivial; [reflexivity|].
  unfold ends_with_CR, starts_with_LF in Hcut.
  rewrite rev_app_distr in Hcut. simpl in Hcut.
  rewrite Hb, Hb' in Hcut. discriminate.
Qed.

(** ** The blocks of a body *)

Lemma feed_nil : feed [] [] = ([], []).
Proof. now vm_compute. Qed.

(** The blocks and the buffer after [chunks], delivered after the bytes
    [sofar], are those of all the bytes delivered at once. *)
Lemma blocks_of_whole (chunks : list (list byte)) :
  forall sofar : list byte,
  CRLF_kept sofar chunks = true ->
  blocks_of (fst (decode fresh sofar))
    (snd (feed [] (snd (decode fresh sofar)))) chunks
  = (skipn (List.length (fst (feed [] (snd (decode fresh sofar)))))
       (fst (feed [] (snd (decode fresh (sofar ++ concat chunks))))),
     (fst (decode fresh (sofar ++ concat chunks)),
      snd (feed [] (snd (decode fresh (sofar ++ concat chunks))))))
  /\ firstn (List.length (fst (feed [] (snd (decode fresh sofar)))))
       (fst (feed [] (snd (decode fresh (sofar ++ concat chunks)))))
     = fst (feed [] (snd (decode fresh sofar))).
Proof.
  induction chunks as [|v rest IH]; intros sofar Hkept.
  - simpl. rewrite app_nil_r.
    rewrite skipn_all, firstn_all. auto.
  - simpl in Hkept. apply andb_true_iff in Hkept.
    destruct Hkept as [Hcut Hkept]. apply negb_true_iff in Hcut.
    apply text_cut in Hcut.
    specialize (IH (sofar ++ v) Hkept).
    rewrite <- app_assoc in IH.
    change (concat (v :: rest)) with (v ++ concat rest).
    rewrite decode_app in IH.
    destruct (decode fresh sofar) as [d T]. simpl in *.
    destruct (decode d v) as [d1 t]. simpl in *.
    rewrite (feed_app _ _ Hcut) in IH. simpl in IH.
    destruct (feed (snd (feed [] T)) t) as [evs1 buf1]. simpl in *.
    destruct IH as [IH1 IH2]. rewrite IH1.
    set (whole := fst (feed [] (snd (decode fresh (sofar ++ v ++ concat rest)))))
      in *.
    rewrite length_app in IH2.
    assert (Hwhole : whole
                     = (fst (feed [] T) ++ evs1)
                       ++ skipn (List.length (fst (feed [] T))
                                 + List.length evs1) whole).
    { rewrite <- IH2 at 1. now rewrite firstn_skipn. }
    split.
    + f_equal. rewrite Hwhole at 2. rewrite <- app_assoc.
      rewrite skipn_app, skipn_all, Nat.sub_diag. simpl.
      now rewrite length_app.
    + rewrite Hwhole. rewrite <- app_assoc.
      rewrite firstn_app, firstn_all, Nat.sub_diag. simpl.
      now rewrite app_nil_r.
Qed.

(** No cut parts a carriage return from its line feed: the blocks are
    those of the one chunk made of all the bytes. *)
Lemma blocks_of_concat (chunks : list (list byte)) :
  CRLF_kept [] chunks = true ->
  blocks_of fresh [] chunks = blocks_of fresh [] [concat chunks].
Proof.
  intros Hkept.
  destruct (blocks_of_whole chunks [] Hkept) as [H _]. simpl in H.
  rewrite feed_nil in H. simpl in H. rewrite H. simpl.
  destruct (decode fresh (concat chunks)) as [d T]. simpl.
  destruct (feed [] T) as [evs buf]. simpl. now rewrite app_nil_r.
Qed.

(** ** The loop on chunks *)

Section Chunks.

Variable JSON_parse : jsstring -> option JSON.
Variable cancels : list callback -> bool.
Variable throws : list callback -> option thrown.

Local Abbreviation call := (call cancels throws).
Local Abbreviation processEvent := (processEvent JSON_parse cancels throws).
Local Abbreviation processEvents := (processEvents JSON_parse cancels throws).
Local Abbreviation processBuffer := (processBuffer JSON_parse cancels throws).
Local Abbreviation catch := (catch cancels throws).
Local Abbreviation read_loop := (read_loop JSON_parse cancels throws).
Local Abbreviation streamMessage := (streamMessage JSON_parse cancels throws).

(** The buffer and the decoder bear on no callback. *)

Lemma call_frame (c : callback) (b : jsstring) (d : decoder) (st : state) :
  call c (set_buffer b (set_decoder d st))
  = (set_buffer b (set_decoder d (fst (call c st))), snd (call c st)).
Proof. unfold A2AClient.call. simpl. now destruct (cancels _). Qed.

Lemma processEvent_frame (ev b : jsstring) (d : decoder) (st : state) :
  processEvent ev (set_buffer b (set_decoder d st))
  = (set_buffer b (set_decoder d (fst (processEvent ev st))),
     snd (processEvent ev st)).
Proof.
  unfold A2AClient.processEvent.
  destruct (is_empty (trim ev)); trivial.
  destruct (is_empty (block_raw ev)
            || JsString.eqb (block_raw ev) (lit "[DONE]")); trivial.
  destruct (JSON_parse (block_raw ev)) as [parsed|]; trivial.
  change (aborted (set_buffer b (set_decoder d st))) with (aborted st).
  destruct (aborted st); trivial.
  destruct (dispatchSseEvent parsed) as [c|]; trivial.
  change (captured parsed (set_buffer b (set_decoder d st)))
    with (set_buffer b (set_decoder d (captured parsed st))).
  rewrite call_frame.
  now destruct (A2AClient.call cancels throws c (captured parsed st)).
Qed.

Lemma processEvents_frame (events : list jsstring) (b : jsstring)
  (d : decoder) :
  forall st,
  processEvents events (set_buffer b (set_decoder d st))
  = (set_buffer b (set_decoder d (fst (processEvents events st))),
     snd (processEvents events st)).
Proof.
  induction events as [|ev rest IH]; intros st; trivial.
  cbn [A2AClient.processEvents]. rewrite processEvent_frame.
  destruct (processEvent ev st) as [st1 [| |err]]; cbn [fst snd]; trivial.
Qed.

Lemma catch_frame (err : thrown) (b : jsstring) (d : decoder) (st : state) :
  trace (catch err (set_buffer b (set_decoder d st))) = trace (catch err st).
Proof.
  unfold A2AClient.catch.
  change (aborted (set_buffer b (set_decoder d st))) with (aborted st).
  destruct (aborted st); trivial.
  now rewrite call_frame.
Qed.

Lemma state_eta (st : state) :
  set_buffer (buffer st) (set_decoder (A2AClient.decoder st) st) = st.
Proof. now destruct st. Qed.

Lemma read_loop_aborted (rs : list read) (st : state) :
  aborted st = true -> read_loop (map undisturbed rs) st = st.
Proof.
  intros Hab. destruct rs as [|r rs]; trivial. simpl.
  destruct r; simpl; unfold A2AClient.catch; now rewrite Hab.
Qed.

(** The loop on chunks that nobody disturbs: it goes through the blocks
    of the chunks, unless a callback cancels on the way or throws. *)
Lemma read_loop_values (chunks : list (list byte)) (tail : list read) :
  forall st,
  trace (read_loop (map undisturbed (map Value chunks ++ tail)) st)
  = match
      processEvents
        (fst (blocks_of (A2AClient.decoder st) (buffer st) chunks)) st
    with
    | (st1, Some err) => trace (catch err st1)
    | (st1, None) =>
        if aborted st1 then trace st1
        else
          trace
            (read_loop (map undisturbed tail)
               (set_buffer
                  (snd (snd (blocks_of (A2AClient.decoder st) (buffer st)
                               chunks)))
                  (set_decoder
                     (fst (snd (blocks_of (A2AClient.decoder st) (buffer st)
                                  chunks)))
                     st1)))
    end.
Proof.
  induction chunks as [|v rest IH]; intros st.
  - simpl. rewrite state_eta.
    destruct (aborted st) eqn:Hab; trivial. now rewrite read_loop_aborted.
  - cbn [map app A2AClient.read_loop undisturbed cancelled result blocks_of].
    destruct (aborted st) eqn:Hab.
    + rewrite processEvents_aborted by trivial. now rewrite Hab.
    + destruct (decode (A2AClient.decoder st) v) as [d1 t].
      rewrite processBuffer_feed.
      destruct (feed (buffer st) t) as [evs1 buf1]. cbn [fst snd].
      rewrite processEvents_frame.
      destruct (blocks_of d1 buf1 rest) as [more [d buf]] eqn:Hmore.
      cbn [fst snd]. rewrite processEvents_app.
      destruct (A2AClient.processEvents JSON_parse cancels throws evs1 st)
        as [st1 [err|]]; cbn [fst snd].
      * apply catch_frame.
      * rewrite IH. clear IH.
        change (A2AClient.decoder (set_buffer buf1 (set_decoder d1 st1)))
          with d1.
        change (buffer (set_buffer buf1 (set_decoder d1 st1))) with buf1.
        rewrite Hmore. cbn [fst snd].
        rewrite processEvents_frame.
        destruct (A2AClient.processEvents JSON_parse cancels throws more st1)
          as [st2 [err|]]; cbn [fst snd].
        -- apply catch_frame.
        -- reflexivity.
Qed.

Lemma streamMessage_delivery (chunks : list (list byte))
  (ending : list read) :
  streamMessage (delivery chunks ending)
  = read_loop (map undisturbed (map Value chunks ++ ending)) initial.
Proof. reflexivity. Qed.

(** What holds of C1.  The callbacks and the calls of [cancel()] do not
    depend on where the bytes of the body are cut into chunks (inside a
    [data:] line, inside a character of several bytes, between two line
    ends), provided no cut falls between a carriage return and the line
    feed after it; whatever the caller's callbacks do and however the
    body ends. *)
Theorem chunks_do_not_matter (chunks : list (list byte))
  (ending : list read) :
  CRLF_kept [] chunks = true ->
  trace (streamMessage (delivery chunks ending))
  = trace (streamMessage (delivery [concat chunks] ending)).
Proof.
  intros Hkept. rewrite !streamMessage_delivery, !read_loop_values.
  change (A2AClient.decoder initial) with fresh.
  change (buffer initial) with (@nil N).
  now rewrite blocks_of_concat.
Qed.

End Chunks.

(** Three chunks, cut inside a [data:] line and between two CR LF
    pairs. *)
Lemma chunks_do_not_matter_witness :
  trace (A2AClient.streamMessage JsonText.parse never returns
           (delivery
              [wire "data: {'kind':'status-";
               wire "update'," ++ CRLF
               ++ wire "data: 'status':{'state':'working'}}" ++ CRLF;
               CRLF]
              [Done]))
  = trace (A2AClient.streamMessage JsonText.parse never returns
             (delivery
                [concat
                   [wire "data: {'kind':'status-";
                    wire "update'," ++ CRLF
                    ++ wire "data: 'status':{'state':'working'}}" ++ CRLF;
                    CRLF]]
                [Done])).
Proof.
  apply (@chunks_do_not_matter JsonText.parse never returns
           [wire "data: {'kind':'status-";
            wire "update'," ++ CRLF
            ++ wire "data: 'status':{'state':'working'}}" ++ CRLF;
            CRLF]
           [Done]).
  vm_compute. reflexivity.
Defined.

End ChunkFacts.

(* ================================================================== *)
(** * More about the hook: [send], the operations on conversations *)
(* ================================================================== *)

Module ChatFacts.

Import A2AClient UseChat Statements Examples StoreFacts ChatActions
  MoreStatements MoreExamples.

Lemma eqb_sym_false (a b : jsstring) :
  JsString.eqb a b = false -> JsString.eqb b a = false.
Proof. rewrite !eqb_neq. auto. Qed.

(** ** [deleteConversation] *)

Lemma find_filter_other (i convId : jsstring) (convs : list Conversation) :
  i <> convId ->
  find (fun c => JsString.eqb (conv_id c) i)
    (filter (fun c => negb (JsString.eqb (conv_id c) convId)) convs)
  = find (fun c => JsString.eqb (conv_id c) i) convs.
Proof.
  intros Hi. induction convs as [|c convs IH]; simpl; trivial.
  by_eqb (conv_id c) convId; simpl.
  - rewrite IH. by_eqb (conv_id c) i; [congruence|reflexivity].
  - now rewrite IH.
Qed.

(** Deleting a conversation leaves none with its identity, keeps the
    others, never leaves [activeConvId] on the identity deleted, and
    leaves the active conversation what it was unless it was deleted;
    deleting an identity no conversation has changes no conversation. *)
Theorem deleteConversation_store (convId : jsstring) (h : hook) :
  ~ In convId (ids (conversations (deleteConversation convId h)))
  /\ (forall c, In c (conversations (deleteConversation convId h))
                <-> In c (conversations h) /\ conv_id c <> convId)
  /\ activeConvId (deleteConversation convId h) <> Some convId
  /\ activeConv (deleteConversation convId h)
     = (if match activeConvId h with
           | Some cur => JsString.eqb cur convId
           | None => false
           end
        then None else activeConv h)
  /\ (~ In convId (ids (conversations h)) ->
      conversations (deleteConversation convId h) = conversations h)
  /\ deleteConversation convId (deleteConversation convId h)
     = deleteConversation convId h.
Proof.
  assert (Hin : forall c,
    In c (filter (fun c => negb (JsString.eqb (conv_id c) convId))
            (conversations h))
    <-> In c (conversations h) /\ conv_id c <> convId).
  { intros c. rewrite filter_In. by_eqb (conv_id c) convId; simpl.
    - split; [intros [_ [=]]|intros [_ H]; contradiction].
    - tauto. }
  split; [|split; [exact Hin|split; [|split; [|split]]]].
  - unfold deleteConversation, ids. simpl. intros H. apply in_map_iff in H.
    destruct H as [c [Hc H]]. apply Hin in H. tauto.
  - unfold deleteConversation. simpl.
    destruct (activeConvId h) as [cur|]; [|discriminate].
    by_eqb cur convId; [discriminate|congruence].
  - unfold activeConv, deleteConversation. simpl.
    destruct (activeConvId h) as [cur|]; trivial.
    by_eqb cur convId; trivial. now apply find_filter_other.
  - intros Habs. unfold deleteConversation. simpl.
    apply forallb_filter_id. apply forallb_forall. intros c Hc.
    by_eqb (conv_id c) convId; trivial.
    exfalso. apply Habs. subst convId. now apply in_map.
  - unfold deleteConversation, setActiveConvId, setConversations. simpl.
    f_equal.
    + apply forallb_filter_id. apply forallb_forall. intros c Hc.
      apply filter_In in Hc. tauto.
    + destruct (activeConvId h) as [cur|]; trivial.
      by_eqb cur convId; trivial. now rewrite (proj2 (eqb_neq _ _) E).
Qed.

(** ** [send]: the request *)

Lemma sendMessage_request (gw : gateway) (agentId text contextId : jsstring)
  (made : list request) :
  snd (sendMessage gw agentId text contextId made)
  = made ++ [{| method := lit "message/send"; to_agent := agentId;
                text_sent := text; contextId_sent := contextId |}].
Proof. reflexivity. Qed.

Lemma starts_conversation_dec (h : hook) :
  {starts_conversation h} + {exists c i, activeConvId h = Some (c :: i)}.
Proof.
  unfold starts_conversation.
  destruct (activeConvId h) as [[|c i]|]; auto. right. now exists c, i.
Qed.

(** What [send] does before it calls the gateway. *)
Lemma send_begin_shape (g : generated) (h : hook) (a : AgentOption) :
  trim (input h) <> [] -> selectedAgent h = Some a -> isLoading h = false ->
  exists h1,
    send_begin g h = Some (h1, turn_of g h, a, trim (input h))
    /\ input h1 = [] /\ isLoading h1 = true
    /\ selectedAgent h1 = Some a
    /\ activeConvId h1 = Some (turn_conversation g h)
    /\ conversations h1
       = if match activeConvId h with Some (_ :: _) => false | _ => true end
         then newConv g a (trim (input h)) :: conversations h
         else appendMessages g a (trim (input h)) (turn_conversation g h)
                (conversations h).
Proof.
  intros Htext Hsel Hload. unfold send_begin. rewrite Hsel, Hload.
  destruct (trim (input h)) as [|ch rest] eqn:Ht; [congruence|]. simpl.
  unfold turn_of, turn_conversation.
  destruct (activeConvId h) as [[|c i]|] eqn:Hact; simpl;
    eexists; (split; [reflexivity|]); simpl; repeat split; trivial.
  unfold appendMessages. apply map_ext. intros x.
  now destruct (JsString.eqb (conv_id x) (c :: i)).
Qed.

Lemma send_request (g : generated) (gw : gateway) (during : list action)
  (h : hook) (made : list request) (a : AgentOption) :
  trim (input h) <> [] -> selectedAgent h = Some a ->
  isLoading h = false ->
  snd (send g gw during h made)
  = made ++ [{| method :=
                  if supportsStreaming a then lit "message/stream"
                  else lit "message/send";
                to_agent := agent_id a;
                text_sent := trim (input h);
                contextId_sent := turn_conversation g h |}]
  /\ isLoading (fst (send g gw during h made)) = supportsStreaming a
  /\ (supportsStreaming a = true \/ during = [] ->
      input (fst (send g gw during h made)) = []).
Proof.
  intros Htext Hsel Hload.
  destruct (@send_begin_shape g h a Htext Hsel Hload)
    as (h1 & Hbegin & Hin & Hl & _).
  unfold send. rewrite Hbegin.
  destruct (supportsStreaming a) eqn:Hs; [simpl; auto|].
  pose proof (sendMessage_request gw (agent_id a) (trim (input h))
                (localConvId (turn_of g h)) made) as Hrq.
  destruct (sendMessage gw (agent_id a) (trim (input h))
              (localConvId (turn_of g h)) made) as [outcome made1].
  simpl in Hrq. subst made1. cbn [fst snd]. split; [reflexivity|].
  assert (Hsettle : forall H,
    isLoading (snd (send_settle outcome (turn_of g h) H)) = false
    /\ input (snd (send_settle outcome (turn_of g h) H)) = input H).
  { intros H. unfold send_settle.
    destruct outcome as [result|err]; simpl; [|auto].
    unfold adoptContextId.
    destruct (sent_contextId result) as [gid|]; simpl; [|auto].
    destruct (is_empty gid || JsString.eqb gid _); simpl; auto. }
  split; [apply Hsettle|].
  intros [Hyes| ->]; [discriminate Hyes|].
  now rewrite (proj2 (Hsettle _)).
Qed.

(** [send] does nothing at all (no request, no change of state) when the
    trimmed input is empty, no agent is selected or [isLoading] is true;
    otherwise it makes exactly one request, to the selected agent, by
    the method the agent's card calls for, with the trimmed input and
    the identity of the active conversation (a new identifier when none
    is active), and [isLoading] is false when the call is over unless
    the agent streams.  [isLoading] is all that keeps turns apart: once
    [newConversation] has reset it, while the call of a turn is still
    awaited, [send] makes the request of another turn. *)
Theorem send_one_request (g : generated) (gw : gateway)
  (during : list action) (h : hook) (made : list request) :
  (trim (input h) = [] \/ selectedAgent h = None \/ isLoading h = true ->
   send g gw during h made = (h, made))
  /\ (forall a,
        trim (input h) <> [] -> selectedAgent h = Some a ->
        isLoading h = false ->
        snd (send g gw during h made)
        = made ++ [{| method :=
                        if supportsStreaming a then lit "message/stream"
                        else lit "message/send";
                      to_agent := agent_id a;
                      text_sent := trim (input h);
                      contextId_sent := turn_conversation g h |}]
        /\ isLoading (fst (send g gw during h made)) = supportsStreaming a
        /\ (supportsStreaming a = true \/ during = [] ->
            input (fst (send g gw during h made)) = [])
        /\ forall h1 t text typed g' during' made',
             send_begin g h = Some (h1, t, a, text) ->
             trim typed <> [] ->
             snd (send g' gw during' (setInput typed (newConversation h1))
                    made')
             = made' ++ [{| method :=
                              if supportsStreaming a
                              then lit "message/stream"
                              else lit "message/send";
                            to_agent := agent_id a;
                            text_sent := trim typed;
                            contextId_sent := uuid_conversation g' |}]).
Proof.
  split.
  - intros H. unfold send, send_begin.
    destruct (selectedAgent h) as [a|]; trivial.
    destruct H as [H|[H|H]]; [rewrite H|discriminate H|rewrite H]; trivial.
    now rewrite orb_true_r.
  - intros a Htext Hsel Hload.
    destruct (@send_request g gw during h made a Htext Hsel Hload)
      as (Hrq & Hl & Hin).
    repeat (split; trivial).
    intros h1 t text typed g' during' made' Hbegin Htyped.
    destruct (@send_begin_shape g h a Htext Hsel Hload)
      as (h1' & Hbegin' & _ & _ & Hsel1 & _).
    rewrite Hbegin in Hbegin'. injection Hbegin' as <- _ _.
    now destruct (@send_request g' gw during'
                    (setInput typed (newConversation h1)) made' a)
      as [Hrq' _].
Qed.

(** ** [openConversation], then [send] *)

Lemma find_id (i : jsstring) (convs : list Conversation) (c : Conversation) :
  find (fun c => JsString.eqb (conv_id c) i) convs = Some c ->
  In c convs /\ conv_id c = i.
Proof.
  intros H. apply find_some in H. destruct H as [Hc Hi].
  split; trivial. now apply eqb_eq.
Qed.

(** A conversation of the store is opened, its agent being among those
    loaded, a text is typed and sent: the conversation opened is the
    active one; the one request [send] makes goes to the agent of the
    conversation, with the identity of the conversation as context
    identifier; and the two messages of the turn come at the end of the
    conversations of that identity, no conversation being created. *)
Theorem reopen_and_send (agentsRef : list AgentOption) (convId : jsstring)
  (h : hook) (typed : jsstring) (g : generated) (gw : gateway)
  (during : list action) (made : list request) (c : Conversation)
  (a : AgentOption) :
  find (fun c => JsString.eqb (conv_id c) convId) (conversations h) = Some c ->
  find (fun a => JsString.eqb (agent_id a) (agentId c)) agentsRef = Some a ->
  convId <> [] -> trim typed <> [] ->
  activeConv (openConversation agentsRef convId h) = Some c
  /\ agent_id a = agentId c
  /\ snd (send g gw during
            (setInput typed (openConversation agentsRef convId h)) made)
     = made ++ [{| method :=
                     if supportsStreaming a then lit "message/stream"
                     else lit "message/send";
                   to_agent := agentId c;
                   text_sent := trim typed;
                   contextId_sent := convId |}]
  /\ exists h1,
       send_begin g (setInput typed (openConversation agentsRef convId h))
       = Some (h1,
               {| localConvId := convId; agentMsgId := uuid_agentMsg g;
                  currentConvIdRef := convId |},
               a, trim typed)
       /\ conversations h1
          = appendMessages g a (trim typed) convId (conversations h).
Proof.
  intros Hc Ha Hid Htext.
  assert (Hopen :
    openConversation agentsRef convId h
    = setSelectedAgent (Some a)
        (setIsLoading false (setInput [] (setActiveConvId (Some convId) h)))).
  { unfold openConversation. simpl. now rewrite Hc, Ha. }
  assert (Hagent : agent_id a = agentId c).
  { apply find_some in Ha. now apply eqb_eq. }
  split; [|split; [exact Hagent|]].
  - rewrite Hopen. unfold activeConv. simpl. exact Hc.
  - set (h' := setInput typed (openConversation agentsRef convId h)).
    assert (Hturn : turn_conversation g h' = convId).
    { unfold h'. rewrite Hopen. unfold turn_conversation. simpl.
      now destruct convId. }
    assert (Hconvs : conversations h' = conversations h).
    { unfold h'. now rewrite Hopen. }
    assert (Hact : activeConvId h' = Some convId).
    { unfold h'. now rewrite Hopen. }
    assert (Hin : input h' = typed) by reflexivity.
    assert (Hsel : selectedAgent h' = Some a).
    { unfold h'. now rewrite Hopen. }
    assert (Hload : isLoading h' = false).
    { unfold h'. now rewrite Hopen. }
    rewrite <- Hin in Htext.
    split.
    + destruct (@send_request g gw during h' made a Htext Hsel Hload)
        as [Hrq _].
      now rewrite Hrq, Hturn, Hagent, Hin.
    + destruct (@send_begin_shape g h' a Htext Hsel Hload)
        as (h1 & Hbegin & _ & _ & _ & _ & Hh1).
      exists h1. unfold turn_of in Hbegin.
      rewrite Hturn, Hin in Hbegin. split; [exact Hbegin|].
      rewrite Hh1, Hact, Hturn, Hconvs, Hin.
      now destruct convId.
Qed.

(** Conversation [a] is reopened and [more] is sent: the request goes to
    its agent [echo] with the context identifier [a]. *)
Lemma reopen_and_send_witness :
  snd (send generated_1 gateway_500 []
         (setInput (lit "more")
            (openConversation [echo_agent] (lit "a")
               (opened two_conversations)))
         [])
  = [{| method := lit "message/send"; to_agent := lit "echo";
        text_sent := lit "more"; contextId_sent := lit "a" |}].
Proof.
  apply (proj1 (proj2 (proj2
           (@reopen_and_send [echo_agent] (lit "a") (opened two_conversations)
              (lit "more") generated_1 gateway_500 [] [] conversation_a
              echo_agent eq_refl eq_refl
              ltac:(discriminate) ltac:(vm_compute; discriminate))))).
Defined.

(** ** [send]: an answer *)

Lemma with_id_same (c : Conversation) : with_id (conv_id c) c = c.
Proof. now destruct c. Qed.

Lemma renameConversation_same (i : jsstring) (prev : list Conversation) :
  renameConversation i i prev = prev.
Proof.
  unfold renameConversation. rewrite <- (map_id prev) at 2.
  apply map_ext. intros c.
  by_eqb (conv_id c) i; trivial. subst i. apply with_id_same.
Qed.

Lemma renameConversation_in (old new : jsstring) (prev : list Conversation)
  (c : Conversation) :
  In c prev -> conv_id c = old ->
  exists c', In c' (renameConversation old new prev)
             /\ conv_id c' = new /\ messages c' = messages c.
Proof.
  intros Hc Hid. exists (with_id new c). split; [|split; reflexivity].
  unfold renameConversation. apply in_map_iff. exists c.
  split; trivial. now rewrite (proj2 (eqb_eq _ _) Hid).
Qed.

(** The conversation of the turn holds the two messages once [send] has
    inserted them, when the turn creates its conversation or continues
    one that is in the store. *)
Lemma send_begin_inserted (g : generated) (h h1 : hook) (a : AgentOption) :
  send_begin g h = Some (h1, turn_of g h, a, trim (input h)) ->
  starts_conversation h
  \/ (exists i, activeConvId h = Some i /\ In i (ids (conversations h))) ->
  exists c,
    In c (conversations h1) /\ conv_id c = turn_conversation g h
    /\ In (userMsg g (trim (input h))) (messages c)
    /\ In (agentMsg g a) (messages c).
Proof.
  intros Hbegin Hwhere.
  assert (Hgo : trim (input h) <> [] /\ selectedAgent h = Some a
                /\ isLoading h = false).
  { unfold send_begin in Hbegin.
    destruct (selectedAgent h) as [a'|]; [|discriminate].
    destruct (trim (input h)) eqn:Ht; [discriminate|].
    destruct (isLoading h); [discriminate|]. simpl in Hbegin.
    assert (Ha : a' = a) by congruence. subst a'.
    repeat split. discriminate. }
  destruct Hgo as (Htext & Hsel & Hload).
  destruct (@send_begin_shape g h a Htext Hsel Hload)
    as (h1' & Hbegin' & _ & _ & _ & _ & Hconvs).
  rewrite Hbegin in Hbegin'. injection Hbegin' as <-. rewrite Hconvs.
  unfold turn_conversation, starts_conversation in *.
  destruct (activeConvId h) as [[|c0 i0]|] eqn:Hact.
  - exists (newConv g a (trim (input h))). simpl. tauto.
  - destruct Hwhere as [Hnew|(i & [= <-] & Hi)]; [discriminate|].
    unfold ids in Hi. apply in_map_iff in Hi. destruct Hi as [c [Hid Hc]].
    exists (with_messages_updatedAt
              (messages c ++ [userMsg g (trim (input h)); agentMsg g a])
              (date_now g) c).
    split.
    { unfold appendMessages. apply in_map_iff. exists c. split; trivial.
      now rewrite (proj2 (eqb_eq _ _) Hid). }
    simpl. split; trivial.
    split; apply in_or_app; right; simpl; tauto.
  - exists (newConv g a (trim (input h))). simpl. tauto.
Qed.

(** ** What happens while a call is awaited *)

Lemma holds_map (cid mid : jsstring) (f : Conversation -> Conversation)
  (convs : list Conversation) :
  (forall c, conv_id c = cid ->
     conv_id (f c) = cid
     /\ forall m, In m (messages c) ->
          exists m', In m' (messages (f c))
                     /\ msg_id m' = msg_id m /\ role m' = role m) ->
  holds_agent_message cid mid convs ->
  holds_agent_message cid mid (map f convs).
Proof.
  intros Hf (c & m & Hc & Hid & Hm & Hmid & Hrole).
  destruct (Hf c Hid) as [Hid' Hms].
  destruct (Hms m Hm) as (m' & Hm' & Hmid' & Hrole').
  exists (f c), m'. repeat split; trivial; try congruence.
  now apply in_map.
Qed.

Lemma holds_messages (g : ChatMessage -> ChatMessage) (ms : list ChatMessage)
  (m : ChatMessage) :
  (forall m, key (g m) = key m) -> In m ms ->
  exists m', In m' (map g ms) /\ msg_id m' = msg_id m /\ role m' = role m.
Proof.
  intros Hg Hm. exists (g m). split; [now apply in_map|].
  pose proof (Hg m) as K. unfold key in K. injection K as K1 K2 _ _. auto.
Qed.

Lemma holds_updateMessage (cid mid convId msgId : jsstring)
  (upd : ChatMessage -> ChatMessage) (prev : list Conversation) :
  (forall m, key (upd m) = key m) ->
  holds_agent_message cid mid prev ->
  holds_agent_message cid mid (updateMessage convId msgId upd prev).
Proof.
  intros Hupd. unfold updateMessage. apply holds_map. intros c Hid.
  destruct (negb (JsString.eqb (conv_id c) convId)).
  - split; trivial. intros m Hm. now exists m.
  - split; trivial. simpl. intros m Hm. apply holds_messages; trivial.
    intros m0. now destruct (JsString.eqb (msg_id m0) msgId).
Qed.

Lemma holds_appendParts (cid mid : jsstring) (now : Date)
  (convId msgId : jsstring) (ps : list Part) (prev : list Conversation) :
  holds_agent_message cid mid prev ->
  holds_agent_message cid mid (appendParts now convId msgId ps prev).
Proof.
  unfold appendParts. apply holds_map. intros c Hid.
  destruct (negb (JsString.eqb (conv_id c) convId)).
  - split; trivial. intros m Hm. now exists m.
  - split; trivial. simpl. intros m Hm. apply holds_messages; trivial.
    intros m0. now destruct (negb (JsString.eqb (msg_id m0) msgId)).
Qed.

Lemma holds_adopt (cid mid : jsstring) (gid : option jsstring) (t : turn)
  (h : hook) :
  renames gid t cid = false ->
  holds_agent_message cid mid (conversations h) ->
  holds_agent_message cid mid (conversations (snd (adoptContextId gid t h))).
Proof.
  unfold renames, adoptContextId. destruct gid as [g|]; trivial.
  destruct (is_empty g || JsString.eqb g (currentConvIdRef t)); trivial.
  simpl. intros Hother. unfold renameConversation. apply holds_map.
  intros c Hid. rewrite Hid. rewrite eqb_sym_false; [|exact Hother].
  split; trivial. intros m Hm. now exists m.
Qed.

Lemma holds_finalise (cid mid : jsstring) (gid : option jsstring) (t : turn)
  (h : hook) :
  renames gid t cid = false ->
  holds_agent_message cid mid (conversations h) ->
  holds_agent_message cid mid
    (conversations (snd (finaliseAgentMsg gid t h))).
Proof.
  intros Hr H. unfold finaliseAgentMsg.
  pose proof (@holds_adopt cid mid gid t h Hr H) as Ha.
  destruct (adoptContextId gid t h) as [t1 h1]. simpl in *.
  revert Ha. apply holds_map. intros c Hid.
  destruct (negb (JsString.eqb (conv_id c) (currentConvIdRef t1))
            && negb (JsString.eqb (conv_id c) (localConvId t1))).
  - split; trivial. intros m Hm. now exists m.
  - split; trivial. simpl. intros m Hm. apply holds_messages; trivial.
    intros m0. destruct (negb (JsString.eqb (msg_id m0) (agentMsgId t1)));
      trivial.
    now destruct (displayText m0) as [[|ch rest]|].
Qed.

Lemma holds_perform (cid mid : jsstring) (a : action) (h : hook) :
  leaves cid a = true ->
  holds_agent_message cid mid (conversations h) ->
  holds_agent_message cid mid (conversations (perform a h)).
Proof.
  intros Ha H. destruct a; simpl in *; trivial.
  - (* send_begin *)
    destruct (send_begin g h) as [[[[h1 t] a] text]|] eqn:Hbegin; trivial.
    unfold send_begin in Hbegin.
    destruct (selectedAgent h) as [selected|]; [|discriminate].
    destruct (is_empty (trim (input h)) || isLoading h); [discriminate|].
    destruct (match activeConvId h with
              | Some i => is_empty i | None => true end);
      injection Hbegin as <- _ _ _; simpl.
    + destruct H as (c & m & Hc & Hrest). exists c, m.
      split; [now right|exact Hrest].
    + revert H. apply holds_map. intros c Hid.
      destruct (negb (JsString.eqb (conv_id c) _)).
      * split; trivial. intros m Hm. now exists m.
      * split; trivial. simpl. intros m Hm. exists m.
        split; [apply in_or_app; now left|auto].
  - (* send_settle *)
    unfold send_settle. destruct outcome as [result|err].
    + apply negb_true_iff in Ha.
      pose proof (@holds_adopt cid mid (sent_contextId result) t h Ha H)
        as Hadopt.
      destruct (adoptContextId (sent_contextId result) t h) as [t1 h1].
      simpl in *. now apply holds_updateMessage.
    + simpl. now apply holds_updateMessage.
  - now apply holds_updateMessage.
  - now apply holds_appendParts.
  - apply negb_true_iff in Ha. unfold stream_onDone.
    pose proof (@holds_finalise cid mid gatewayContextId t h Ha H) as Hf.
    now destruct (finaliseAgentMsg gatewayContextId t h).
  - now apply holds_updateMessage.
  - now apply holds_updateMessage.
  - unfold openConversation. simpl.
    destruct (find _ (conversations h)) as [conv|]; trivial.
    now destruct (find _ agentsRef).
  - destruct H as (c & m & Hc & Hid & Hrest). exists c, m.
    split; [|split; trivial]. apply filter_In. split; trivial.
    rewrite Hid. apply negb_true_iff in Ha. apply negb_true_iff.
    now apply eqb_sym_false.
Qed.

Lemma holds_perform_all (cid mid : jsstring) (actions : list action) :
  forall h,
  forallb (leaves cid) actions = true ->
  holds_agent_message cid mid (conversations h) ->
  holds_agent_message cid mid (conversations (perform_all actions h)).
Proof.
  induction actions as [|a rest IH]; intros h Hl H; trivial.
  simpl in *. apply andb_prop in Hl. destruct Hl as [Ha Hrest].
  apply IH; trivial. now apply holds_perform.
Qed.

(** The agent message is in the conversation of the turn once [send]
    has begun it. *)
Lemma send_begin_holds (g : generated) (h h1 : hook) (a : AgentOption) :
  send_begin g h = Some (h1, turn_of g h, a, trim (input h)) ->
  starts_conversation h
  \/ (exists i, activeConvId h = Some i /\ In i (ids (conversations h))) ->
  holds_agent_message (turn_conversation g h) (uuid_agentMsg g)
    (conversations h1).
Proof.
  intros Hbegin Hwhere.
  destruct (@send_begin_inserted g h h1 a Hbegin Hwhere)
    as (c & Hc & Hcid & _ & Hm).
  exists c, (agentMsg g a). repeat split; trivial.
Qed.

(** What the end of a turn with an agent that does not stream makes of
    the hook. *)
Lemma send_settle_answer (r : RpcResult) (g : generated) (h H : hook) :
  snd (send_settle
         (inl {| sent_parts := received_parts r;
                 sent_contextId := result_contextId r |})
         (turn_of g h) H)
  = setIsLoading false
      (setConversations
         (updateMessage (settled_conversation r g h) (uuid_agentMsg g)
            (with_content (received_parts r)
               (partsToText (received_parts r)) streaming))
         (if JsString.eqb (settled_conversation r g h)
               (turn_conversation g h)
          then H
          else
            setActiveConvId (Some (settled_conversation r g h))
              (setConversations
                 (renameConversation (turn_conversation g h)
                    (settled_conversation r g h))
                 H))).
Proof.
  unfold send_settle, adoptContextId, settled_conversation. simpl.
  destruct (result_contextId r) as [[|c i]|]; simpl;
    rewrite ?eqb_refl; trivial.
  by_eqb (c :: i) (turn_conversation g h); simpl; trivial.
  now rewrite E.
Qed.

(** A turn with an agent that does not stream, answered with a result,
    whatever else happens to the hook while the call is awaited.  The
    conversations that go by the identity of the turn when the answer
    comes go by the context identifier of the answer from then on, when
    the answer has one other than that identity, and that identifier is
    then the active one; in
    the conversations of that identity every message that goes by the
    agent message's identity holds the parts of the answer (none when
    the answer has no parts), their text as display text and the status
    [streaming]; such a message exists when the turn created its
    conversation or continued one that is in the store, and nothing
    deleted that conversation or gave it another identity meanwhile;
    and [isLoading] is false.  When nothing happened meanwhile the
    conversation of the turn is the active one. *)
Theorem send_success (g : generated) (gw : gateway) (during : list action)
  (h : hook) (made : list request) (a : AgentOption) (http : N)
  (r : RpcResult) :
  selectedAgent h = Some a ->
  supportsStreaming a = false ->
  isLoading h = false ->
  trim (input h) <> [] ->
  gw (List.length made)
  = Responded true http (Json {| rpc_result := Some r; rpc_error := None |}) ->
  exists h1,
    send_begin g h = Some (h1, turn_of g h, a, trim (input h))
    /\ conversations (fst (send g gw during h made))
       = updateMessage (settled_conversation r g h) (uuid_agentMsg g)
           (with_content (received_parts r) (partsToText (received_parts r))
              streaming)
           (renameConversation (turn_conversation g h)
              (settled_conversation r g h)
              (conversations (perform_all during h1)))
    /\ activeConvId (fst (send g gw during h made))
       = (if JsString.eqb (settled_conversation r g h)
               (turn_conversation g h)
          then activeConvId (perform_all during h1)
          else Some (settled_conversation r g h))
    /\ isLoading (fst (send g gw during h made)) = false
    /\ (forall c m,
          In c (conversations (fst (send g gw during h made))) ->
          conv_id c = settled_conversation r g h ->
          In m (messages c) -> msg_id m = uuid_agentMsg g ->
          shows_answer (received_parts r) m)
    /\ ((starts_conversation h
         \/ exists i, activeConvId h = Some i
                      /\ In i (ids (conversations h))) ->
        forallb (leaves (turn_conversation g h)) during = true ->
        exists c m,
          In c (conversations (fst (send g gw during h made)))
          /\ conv_id c = settled_conversation r g h
          /\ In m (messages c) /\ msg_id m = uuid_agentMsg g
          /\ role m = agent /\ shows_answer (received_parts r) m)
    /\ (during = [] ->
        activeConvId (fst (send g gw during h made))
        = Some (settled_conversation r g h)).
Proof.
  intros Hsel Hstream Hload Htext Hgw.
  destruct (@send_begin_shape g h a Htext Hsel Hload)
    as (h1 & Hbegin & Hin & Hl & Hsel1 & Hact & Hconvs).
  exists h1. split; [exact Hbegin|].
  assert (Hsend :
    fst (send g gw during h made)
    = snd (send_settle
             (inl {| sent_parts := received_parts r;
                     sent_contextId := result_contextId r |})
             (turn_of g h) (perform_all during h1))).
  { unfold send. rewrite Hbegin, Hstream. unfold sendMessage, fetch.
    rewrite Hgw. reflexivity. }
  rewrite Hsend, send_settle_answer.
  assert (Hconv :
    conversations
      (if JsString.eqb (settled_conversation r g h) (turn_conversation g h)
       then perform_all during h1
       else
         setActiveConvId (Some (settled_conversation r g h))
           (setConversations
              (renameConversation (turn_conversation g h)
                 (settled_conversation r g h))
              (perform_all during h1)))
    = renameConversation (turn_conversation g h)
        (settled_conversation r g h)
        (conversations (perform_all during h1))).
  { by_eqb (settled_conversation r g h) (turn_conversation g h); trivial.
    now rewrite E, renameConversation_same. }
  cbn [conversations activeConvId isLoading setIsLoading setConversations].
  rewrite Hconv.
  split; [reflexivity|]. split.
  { now destruct (JsString.eqb (settled_conversation r g h)
                    (turn_conversation g h)). }
  split; [reflexivity|]. split; [|split].
  - intros c m Hc Hcid Hm Hmid.
    destruct (@updateMessage_inv (settled_conversation r g h)
                (uuid_agentMsg g)
                (with_content (received_parts r)
                   (partsToText (received_parts r)) streaming)
                (renameConversation (turn_conversation g h)
                   (settled_conversation r g h)
                   (conversations (perform_all during h1))) c m)
      as [m0 ->]; trivial.
    unfold shows_answer. simpl. tauto.
  - intros Hwhere Hleft.
    pose proof (@send_begin_holds g h h1 a Hbegin Hwhere) as Hholds.
    apply (@holds_perform_all _ _ during h1 Hleft) in Hholds.
    destruct Hholds as (c & m & Hc & Hcid & Hm & Hmid & Hrole).
    destruct (@renameConversation_in (turn_conversation g h)
                (settled_conversation r g h)
                (conversations (perform_all during h1)) c Hc Hcid)
      as (c1 & Hc1 & Hcid1 & Hms).
    rewrite <- Hms in Hm.
    destruct (@updateMessage_in (settled_conversation r g h)
                (uuid_agentMsg g)
                (with_content (received_parts r)
                   (partsToText (received_parts r)) streaming)
                _ c1 m Hc1 Hcid1 Hm Hmid)
      as (c' & Hc' & Hcid' & Hm').
    exists c', (with_content (received_parts r)
                  (partsToText (received_parts r)) streaming m).
    unfold shows_answer. simpl. tauto.
  - intros ->. cbn [perform_all].
    destruct (JsString.eqb (settled_conversation r g h)
                (turn_conversation g h)) eqn:E; [|reflexivity].
    apply eqb_eq in E. rewrite E. exact Hact.
Qed.

(** Scenario A: on the first [hello] of a session the gateway answers
    [hi] with the context identifier [c1]; the store then holds one
    conversation, [c1], with the user's [hello] and the agent's [hi],
    also when a draft of the next message is typed meanwhile. *)
Lemma send_success_witness :
  map (fun c => (conv_id c, map (fun m => (role m, parts m, status m))
                              (messages c)))
    (conversations
       (fst (send generated_1 gateway_hi [do_setInput (lit "and")]
               (hook_first "hello") [])))
  = [(lit "c1",
      [(user, [TextPart (lit "hello")], done);
       (agent, [TextPart (lit "hi")], streaming)])]
  /\ exists c m,
       In c (conversations
               (fst (send generated_1 gateway_hi [do_setInput (lit "and")]
                       (hook_first "hello") [])))
       /\ conv_id c = lit "c1" /\ In m (messages c)
       /\ role m = agent /\ displayText m = Some (lit "hi").
Proof.
  split; [vm_compute; reflexivity|].
  destruct (@send_success generated_1 gateway_hi [do_setInput (lit "and")]
              (hook_first "hello") [] echo_agent 200 answer_hi
              eq_refl eq_refl eq_refl)
    as (h1 & _ & _ & _ & _ & _ & Hexists & _).
  - vm_compute. discriminate.
  - reflexivity.
  - destruct Hexists as (c & m & Hc & Hid & Hm & _ & Hrole & _ & Hshown & _).
    { left. exact I. }
    { reflexivity. }
    exists c, m. repeat split; trivial.
Defined.

(** ** [send]: a failure *)

Lemma updateMessage_absent (cid mid : jsstring)
  (upd : ChatMessage -> ChatMessage) (prev : list Conversation) :
  message_absent cid mid prev -> updateMessage cid mid upd prev = prev.
Proof.
  intros Habs. unfold updateMessage. rewrite <- (map_id prev) at 2.
  apply map_ext_in. intros c Hc.
  by_eqb (conv_id c) cid; simpl; trivial.
  replace (map (fun m => if JsString.eqb (msg_id m) mid then upd m else m)
             (messages c)) with (messages c); [now destruct c|].
  rewrite <- (map_id (messages c)) at 1. apply map_ext_in. intros m Hm.
  now rewrite (proj2 (eqb_neq _ _) (Habs c Hc E m Hm)).
Qed.

(** C6, as the code has it.  A turn with an agent that does not stream,
    whose call fails in one of the four ways with the message [msg],
    whatever else happens to the hook while the call is awaited: [send]
    makes one request and no other; the error is written once, on the
    store as it is when the call fails: every message that goes by the
    agent message's identity, in the conversations that go by the
    identity of the turn, has the one text part ["Error: " ++ msg], that
    text as display text and the status [error]; and [isLoading] is
    false.  Such a message exists when the turn created its
    conversation or continued one that is in the store, and nothing
    deleted that conversation or gave it another identity meanwhile;
    and when there is none the store is left as it is: the failure is
    written on no message. *)
Theorem send_failure (g : generated) (gw : gateway) (during : list action)
  (h : hook) (made : list request) (a : AgentOption) (msg : jsstring) :
  selectedAgent h = Some a ->
  supportsStreaming a = false ->
  isLoading h = false ->
  trim (input h) <> [] ->
  fails_with (gw (List.length made)) msg ->
  exists h1,
    send_begin g h = Some (h1, turn_of g h, a, trim (input h))
    /\ snd (send g gw during h made)
       = made ++ [{| method := lit "message/send"; to_agent := agent_id a;
                     text_sent := trim (input h);
                     contextId_sent := turn_conversation g h |}]
    /\ conversations (fst (send g gw during h made))
       = updateMessage (turn_conversation g h) (uuid_agentMsg g)
           (error_content msg) (conversations (perform_all during h1))
    /\ isLoading (fst (send g gw during h made)) = false
    /\ (forall c m,
          In c (conversations (fst (send g gw during h made))) ->
          conv_id c = turn_conversation g h ->
          In m (messages c) -> msg_id m = uuid_agentMsg g ->
          shows_error msg m)
    /\ ((starts_conversation h
         \/ exists i, activeConvId h = Some i
                      /\ In i (ids (conversations h))) ->
        forallb (leaves (turn_conversation g h)) during = true ->
        exists c m,
          In c (conversations (fst (send g gw during h made)))
          /\ conv_id c = turn_conversation g h
          /\ In m (messages c) /\ msg_id m = uuid_agentMsg g
          /\ role m = agent /\ shows_error msg m)
    /\ (message_absent (turn_conversation g h) (uuid_agentMsg g)
          (conversations (perform_all during h1)) ->
        conversations (fst (send g gw during h made))
        = conversations (perform_all during h1)).
Proof.
  intros Hsel Hstream Hload Htext Hfail.
  destruct (@send_begin_shape g h a Htext Hsel Hload)
    as (h1 & Hbegin & _).
  exists h1. split; [exact Hbegin|].
  assert (Hout :
    sendMessage gw (agent_id a) (trim (input h)) (turn_conversation g h) made
    = (inr (Error msg),
       made ++ [{| method := lit "message/send"; to_agent := agent_id a;
                   text_sent := trim (input h);
                   contextId_sent := turn_conversation g h |}])
    \/ exists text,
         msg = lit "Unknown error"
         /\ sendMessage gw (agent_id a) (trim (input h))
              (turn_conversation g h) made
            = (inr (NotAnError text),
               made ++ [{| method := lit "message/send";
                           to_agent := agent_id a;
                           text_sent := trim (input h);
                           contextId_sent := turn_conversation g h |}])).
  { unfold sendMessage, fetch.
    inversion Hfail as [err Herr|status content Herr|status result e Herr
                       |status Herr]; subst; simpl.
    - destruct err as [m|text]; [now left|right; now exists text].
    - now left.
    - now left.
    - now left. }
  assert (Hsend :
    send g gw during h made
    = (setIsLoading false
         (setConversations
            (updateMessage (turn_conversation g h) (uuid_agentMsg g)
               (error_content msg))
            (perform_all during h1)),
       made ++ [{| method := lit "message/send"; to_agent := agent_id a;
                   text_sent := trim (input h);
                   contextId_sent := turn_conversation g h |}])).
  { unfold send. rewrite Hbegin, Hstream.
    change (localConvId (turn_of g h)) with (turn_conversation g h).
    destruct Hout as [Hout|[text [-> Hout]]]; now rewrite Hout. }
  rewrite Hsend. simpl.
  split; [reflexivity|]. split; [reflexivity|]. split; [reflexivity|].
  split; [|split; [|apply updateMessage_absent]].
  - intros c m Hc Hcid Hm Hmid.
    destruct (@updateMessage_inv (turn_conversation g h) (uuid_agentMsg g)
                (error_content msg) (conversations (perform_all during h1))
                c m) as [m0 ->];
      trivial.
    unfold shows_error. simpl. tauto.
  - intros Hwhere Hleft.
    pose proof (@send_begin_holds g h h1 a Hbegin Hwhere) as Hholds.
    apply (@holds_perform_all _ _ during h1 Hleft) in Hholds.
    destruct Hholds as (c & m & Hc & Hcid & Hm & Hmid & Hrole).
    destruct (@updateMessage_in (turn_conversation g h) (uuid_agentMsg g)
                (error_content msg) (conversations (perform_all during h1))
                c m)
      as (c' & Hc' & Hcid' & Hm'); trivial.
    exists c', (error_content msg m).
    unfold shows_error. simpl. tauto.
Qed.

(** Scenario D: the gateway answers 500; a draft of the next message is
    typed meanwhile. *)
Lemma send_failure_witness :
  snd (send generated_1 gateway_500 [do_setInput (lit "and")]
         (hook_fresh "hello") [])
  = [{| method := lit "message/send"; to_agent := lit "echo";
        text_sent := lit "hello"; contextId_sent := lit "local-3" |}]
  /\ exists c m,
       In c (conversations
               (fst (send generated_1 gateway_500 [do_setInput (lit "and")]
                       (hook_fresh "hello") [])))
       /\ In m (messages c) /\ msg_id m = lit "g-1" /\ role m = agent
       /\ displayText m = Some (lit "Error: HTTP 500")
       /\ status m = error.
Proof.
  destruct (@send_failure generated_1 gateway_500 [do_setInput (lit "and")]
              (hook_fresh "hello") [] echo_agent (lit "HTTP 500")
              eq_refl eq_refl eq_refl)
    as (h1 & Hbegin & Hmade & _ & _ & _ & Hexists & _).
  - vm_compute. discriminate.
  - exact (http_status 500
             (NotJson (Error (lit "Unexpected end of JSON input")))).
  - split; [exact Hmade|].
    destruct Hexists as (c & m & Hc & _ & Hm & Hid & Hrole & _ & Hshown & Hst).
    { left. exact I. }
    { reflexivity. }
    exists c, m. repeat split; trivial.
Defined.

(** C6 as stated fails.  The conversation of the turn is deleted while
    the call is awaited: the call fails, and the failure is written on
    no message.  And in a store without conversations whose active
    identifier [c1] is that of a conversation deleted while the call of
    its turn was awaited, and adopted when the answer came: the next
    turn makes its request, the call fails, and the failure is written
    on no message. *)
Lemma send_failure_not_recorded :
  send generated_1 gateway_500 [do_deleteConversation (lit "local-3")]
    (hook_first "hello") []
  = ({| conversations := []; activeConvId := None;
        selectedAgent := Some echo_agent; input := []; isLoading := false |},
     [{| method := lit "message/send"; to_agent := lit "echo";
         text_sent := lit "hello"; contextId_sent := lit "local-3" |}])
  /\ fst (send generated_1 gateway_hi [do_deleteConversation (lit "local-3")]
            (hook_first "hello") [])
     = {| conversations := []; activeConvId := Some (lit "c1");
          selectedAgent := Some echo_agent; input := [];
          isLoading := false |}
  /\ send generated_2 gateway_500 []
       {| conversations := []; activeConvId := Some (lit "c1");
          selectedAgent := Some echo_agent; input := lit "again";
          isLoading := false |} []
     = ({| conversations := []; activeConvId := Some (lit "c1");
           selectedAgent := Some echo_agent; input := [];
           isLoading := false |},
        [{| method := lit "message/send"; to_agent := lit "echo";
            text_sent := lit "again"; contextId_sent := lit "c1" |}]).
Proof. repeat split; vm_compute; reflexivity. Qed.

(** ** What every operation keeps *)

Lemma in_map_keeps (A : Type) (f : A -> A) (P : A -> Prop) (l : list A) :
  (forall x, P x -> P (f x)) -> (forall x, In x l -> P x) ->
  forall y, In y (map f l) -> P y.
Proof.
  intros Hf Hl y Hy. apply in_map_iff in Hy. destruct Hy as [x [<- Hx]].
  auto.
Qed.

Lemma in_map_if_keeps (A : Type) (test : A -> bool) (f : A -> A)
  (P : A -> Prop) (l : list A) :
  (forall x, P x -> P (f x)) -> (forall x, In x l -> P x) ->
  forall y, In y (map (fun x => if test x then f x else x) l) -> P y.
Proof.
  intros Hf. apply in_map_keeps. intros x Hx. destruct (test x); auto.
Qed.

Lemma in_map_unless_keeps (A : Type) (test : A -> bool) (f : A -> A)
  (P : A -> Prop) (l : list A) :
  (forall x, P x -> P (f x)) -> (forall x, In x l -> P x) ->
  forall y, In y (map (fun x => if test x then x else f x) l) -> P y.
Proof.
  intros Hf. apply in_map_keeps. intros x Hx. destruct (test x); auto.
Qed.

Lemma texts_agree_updateMessage (convId msgId : jsstring)
  (upd : ChatMessage -> ChatMessage) (prev : list Conversation) :
  (forall m, shown_is_text m -> shown_is_text (upd m)) ->
  (forall c, In c prev -> texts_agree_in c) ->
  forall c, In c (updateMessage convId msgId upd prev) -> texts_agree_in c.
Proof.
  intros Hupd. unfold updateMessage. apply in_map_unless_keeps.
  intros c Hc. unfold texts_agree_in. simpl.
  now apply in_map_if_keeps.
Qed.

Lemma texts_agree_appendParts (now : Date) (convId msgId : jsstring)
  (ps : list Part) (prev : list Conversation) :
  (forall c, In c prev -> texts_agree_in c) ->
  forall c, In c (appendParts now convId msgId ps prev) -> texts_agree_in c.
Proof.
  unfold appendParts. apply in_map_unless_keeps.
  intros c Hc. unfold texts_agree_in. simpl.
  apply in_map_unless_keeps; trivial. intros m _. reflexivity.
Qed.

Lemma texts_agree_rename (old new : jsstring) (prev : list Conversation) :
  (forall c, In c prev -> texts_agree_in c) ->
  forall c, In c (renameConversation old new prev) -> texts_agree_in c.
Proof. unfold renameConversation. now apply in_map_if_keeps. Qed.

Lemma texts_agree_adopt (gid : option jsstring) (t : turn) (h : hook) :
  (forall c, In c (conversations h) -> texts_agree_in c) ->
  forall c, In c (conversations (snd (adoptContextId gid t h))) ->
            texts_agree_in c.
Proof.
  intros H. unfold adoptContextId. destruct gid as [g|]; trivial.
  destruct (is_empty g || JsString.eqb g (currentConvIdRef t)); trivial.
  simpl. now apply texts_agree_rename.
Qed.

Lemma texts_agree_finalise (gid : option jsstring) (t : turn) (h : hook) :
  (forall c, In c (conversations h) -> texts_agree_in c) ->
  forall c, In c (conversations (snd (finaliseAgentMsg gid t h))) ->
            texts_agree_in c.
Proof.
  intros H. unfold finaliseAgentMsg.
  pose proof (@texts_agree_adopt gid t h H) as Ha.
  destruct (adoptContextId gid t h) as [t1 h1]. simpl in *.
  revert Ha. apply in_map_unless_keeps.
  intros c Hc. unfold texts_agree_in. simpl.
  apply in_map_unless_keeps; trivial.
  intros m Hm. now destruct (displayText m) as [[|ch rest]|] eqn:E.
Qed.

Lemma texts_agree_settle (outcome : SendResult + thrown) (t : turn)
  (h : hook) :
  (forall c, In c (conversations h) -> texts_agree_in c) ->
  forall c, In c (conversations (snd (send_settle outcome t h))) ->
            texts_agree_in c.
Proof.
  intros H. unfold send_settle. destruct outcome as [result|err].
  - pose proof (@texts_agree_adopt (sent_contextId result) t h H) as Ha.
    destruct (adoptContextId (sent_contextId result) t h) as [t1 h1].
    simpl in *. apply texts_agree_updateMessage; trivial.
    intros m _. reflexivity.
  - simpl. apply texts_agree_updateMessage; trivial.
    intros m _. reflexivity.
Qed.

Lemma texts_agree_begin (g : generated) (h h1 : hook) (t : turn)
  (a : AgentOption) (text : jsstring) :
  send_begin g h = Some (h1, t, a, text) ->
  (forall c, In c (conversations h) -> texts_agree_in c) ->
  forall c, In c (conversations h1) -> texts_agree_in c.
Proof.
  unfold send_begin. intros Hbegin H.
  destruct (selectedAgent h) as [selected|]; [|discriminate].
  destruct (is_empty (trim (input h)) || isLoading h); [discriminate|].
  assert (Hnew : forall m,
    In m [ {| msg_id := uuid_userMsg g; role := user;
              parts := [TextPart (trim (input h))]; status := done;
              displayText := None; agentName := None;
              timestamp := date_userMsg g |};
           {| msg_id := uuid_agentMsg g; role := agent; parts := [];
              status := sending; displayText := Some [];
              agentName := Some (card_name selected);
              timestamp := date_agentMsg g |} ] ->
    shown_is_text m).
  { intros m [<-|[<-|[]]]; reflexivity. }
  destruct (match activeConvId h with
            | Some i => is_empty i | None => true end);
    injection Hbegin as <- _ _ _; simpl.
  - intros c [<-|Hc]; [exact Hnew|now apply H].
  - revert H. apply in_map_unless_keeps.
    intros c Hc m Hm. simpl in Hm. apply in_app_or in Hm.
    destruct Hm as [Hm|Hm]; [now apply Hc|now apply Hnew].
Qed.

Lemma texts_agree_perform (a : action) (h : hook) :
  (forall c, In c (conversations h) -> texts_agree_in c) ->
  forall c, In c (conversations (perform a h)) -> texts_agree_in c.
Proof.
  intros H. destruct a; simpl; trivial.
  - destruct (send_begin g h) as [[[[h1 t] a] text]|] eqn:Hbegin; trivial.
    now apply texts_agree_begin with g h t a text.
  - now apply texts_agree_settle.
  - apply texts_agree_updateMessage; trivial.
  - now apply texts_agree_appendParts.
  - unfold stream_onDone.
    pose proof (@texts_agree_finalise gatewayContextId t h H) as Hf.
    now destruct (finaliseAgentMsg gatewayContextId t h).
  - apply texts_agree_updateMessage; trivial. intros m _. reflexivity.
  - apply texts_agree_updateMessage; trivial.
  - unfold openConversation. simpl.
    destruct (find _ (conversations h)) as [conv|]; trivial.
    now destruct (find _ agentsRef).
  - intros c Hc. apply filter_In in Hc. now apply H.
Qed.

(** Whatever happens to the hook, a bubble shows the text of the parts
    of its message, joined by line feeds: the display text the store
    keeps beside the parts never departs from them, provided it did not
    when the page was opened. *)
Theorem bubble_shows_parts (actions : list action) (h : hook) :
  texts_agree (conversations h) ->
  forall c m,
    In c (conversations (perform_all actions h)) -> In m (messages c) ->
    Presentation.fullText m = partsToText (parts m).
Proof.
  revert h. induction actions as [|a rest IH]; intros h H c m Hc Hm.
  - specialize (H c m Hc Hm). unfold shown_is_text in H.
    unfold Presentation.fullText, partsToText in *.
    now destruct (displayText m).
  - simpl in Hc. apply (IH (perform a h)) with c; trivial.
    intros c' m' Hc' Hm'.
    apply (@texts_agree_perform a h) with c'; trivial.
    intros c0 Hc0 m0 Hm0. now apply H with c0.
Qed.

(** A streamed turn from an empty store: the bubble of the agent message
    shows [Hel] and [lo] on two lines. *)
Lemma bubble_shows_parts_witness :
  exists c m,
    In c (conversations (perform_all session (opened [])))
    /\ In m (messages c) /\ role m = agent
    /\ Presentation.fullText m
       = lit "Hel" ++ [LF] ++ lit "lo".
Proof.
  assert (Hin :
    exists c m,
      In c (conversations (perform_all session (opened [])))
      /\ In m (messages c) /\ role m = agent
      /\ parts m = [TextPart (lit "Hel"); TextPart (lit "lo")]).
  { eexists. eexists. split; [left; reflexivity|].
    split; [right; left; reflexivity|]. split; reflexivity. }
  destruct Hin as (c & m & Hc & Hm & Hrole & Hparts).
  exists c, m. repeat split; trivial.
  rewrite (@bubble_shows_parts session (opened [])
             (fun c m (H : In c []) => match H with end) c m Hc Hm).
  now rewrite Hparts.
Defined.

(** ** Nothing is lost *)

Lemma continues_refl (c : Conversation) : continues c c.
Proof. repeat split. exists []. now rewrite app_nil_r. Qed.

Lemma continues_trans (a b c : Conversation) :
  continues a b -> continues b c -> continues a c.
Proof.
  intros (Ha1 & Ht1 & Hc1 & m1 & Hm1) (Ha2 & Ht2 & Hc2 & m2 & Hm2).
  repeat split; try congruence.
  exists (m1 ++ m2). now rewrite Hm2, Hm1, app_assoc.
Qed.

Lemma extends_refl (convs : list Conversation) : extends convs convs.
Proof.
  exists [], convs. split; trivial.
  induction convs; constructor; trivial. apply continues_refl.
Qed.

Lemma Forall2_continues_trans (l1 l2 l3 : list Conversation) :
  Forall2 continues l1 l2 -> Forall2 continues l2 l3 ->
  Forall2 continues l1 l3.
Proof.
  intros H12. revert l3. induction H12 as [|a b l1 l2 Hab H12 IH];
    intros l3 H23; inversion H23; subst; constructor.
  - now apply continues_trans with b.
  - now apply IH.
Qed.

Lemma extends_trans (l1 l2 l3 : list Conversation) :
  extends l1 l2 -> extends l2 l3 -> extends l1 l3.
Proof.
  intros (f1 & k1 & -> & H1) (f2 & k2 & -> & H2).
  apply Forall2_app_inv_l in H2.
  destruct H2 as (k2a & k2b & Ha & Hb & ->).
  exists (f2 ++ k2a), k2b. split; [now rewrite app_assoc|].
  now apply Forall2_continues_trans with k1.
Qed.

Lemma extends_map (f : Conversation -> Conversation)
  (convs : list Conversation) :
  (forall c, continues c (f c)) -> extends convs (map f convs).
Proof.
  intros Hf. exists [], (map f convs). split; trivial.
  induction convs; simpl; constructor; trivial.
Qed.

Lemma continues_messages (g : ChatMessage -> ChatMessage)
  (c : Conversation) :
  (forall m, key (g m) = key m) ->
  continues c (with_messages (map g (messages c)) c).
Proof.
  intros Hg. repeat split. exists []. simpl.
  rewrite app_nil_r, map_map. now apply map_ext.
Qed.

Lemma extends_updateMessage (convId msgId : jsstring)
  (upd : ChatMessage -> ChatMessage) (prev : list Conversation) :
  (forall m, key (upd m) = key m) ->
  extends prev (updateMessage convId msgId upd prev).
Proof.
  intros Hupd. apply extends_map. intros c.
  destruct (negb (JsString.eqb (conv_id c) convId)); [apply continues_refl|].
  apply continues_messages. intros m.
  now destruct (JsString.eqb (msg_id m) msgId).
Qed.

Lemma extends_appendParts (now : Date) (convId msgId : jsstring)
  (ps : list Part) (prev : list Conversation) :
  extends prev (appendParts now convId msgId ps prev).
Proof.
  apply extends_map. intros c.
  destruct (negb (JsString.eqb (conv_id c) convId)); [apply continues_refl|].
  repeat split. exists []. simpl. rewrite app_nil_r, map_map.
  apply map_ext. intros m.
  now destruct (negb (JsString.eqb (msg_id m) msgId)).
Qed.

Lemma extends_adopt (gid : option jsstring) (t : turn) (h : hook) :
  extends (conversations h) (conversations (snd (adoptContextId gid t h))).
Proof.
  unfold adoptContextId. destruct gid as [g|]; [|apply extends_refl].
  destruct (is_empty g || JsString.eqb g (currentConvIdRef t));
    [apply extends_refl|].
  simpl. apply extends_map. intros c.
  destruct (JsString.eqb (conv_id c) (currentConvIdRef t));
    [|apply continues_refl].
  repeat split. exists []. now rewrite app_nil_r.
Qed.

Lemma extends_finalise (gid : option jsstring) (t : turn) (h : hook) :
  extends (conversations h) (conversations (snd (finaliseAgentMsg gid t h))).
Proof.
  unfold finaliseAgentMsg. pose proof (extends_adopt gid t h) as Ha.
  destruct (adoptContextId gid t h) as [t1 h1]. simpl in *.
  apply extends_trans with (conversations h1); trivial.
  apply extends_map. intros c.
  destruct (negb (JsString.eqb (conv_id c) (currentConvIdRef t1))
            && negb (JsString.eqb (conv_id c) (localConvId t1)));
    [apply continues_refl|].
  apply continues_messages. intros m.
  destruct (negb (JsString.eqb (msg_id m) (agentMsgId t1))); trivial.
  now destruct (displayText m) as [[|ch rest]|].
Qed.

Lemma extends_perform (a : action) (h : hook) :
  is_delete a = false ->
  extends (conversations h) (conversations (perform a h)).
Proof.
  intros Ha. destruct a; simpl; try discriminate Ha;
    try apply extends_refl.
  - destruct (send_begin g h) as [[[[h1 t] a] text]|] eqn:Hbegin;
      [|apply extends_refl].
    unfold send_begin in Hbegin.
    destruct (selectedAgent h) as [selected|]; [|discriminate].
    destruct (is_empty (trim (input h)) || isLoading h); [discriminate|].
    destruct (match activeConvId h with
              | Some i => is_empty i | None => true end);
      injection Hbegin as <- _ _ _; simpl.
    + eexists [_], (conversations h). split; [reflexivity|].
      destruct (extends_refl (conversations h)) as (f & k & Hk & H).
      destruct f; simpl in Hk; [now subst k|].
      apply (f_equal (@List.length _)) in Hk. simpl in Hk.
      rewrite length_app in Hk. apply Forall2_length in H. lia.
    + apply extends_map. intros c.
      destruct (negb (JsString.eqb (conv_id c) _)); [apply continues_refl|].
      repeat split. eexists. simpl. now rewrite map_app.
  - unfold send_settle. destruct outcome as [result|err].
    + pose proof (extends_adopt (sent_contextId result) t h) as Hadopt.
      destruct (adoptContextId (sent_contextId result) t h) as [t1 h1].
      simpl in *. apply extends_trans with (conversations h1); trivial.
      now apply extends_updateMessage.
    + simpl. now apply extends_updateMessage.
  - now apply extends_updateMessage.
  - apply extends_appendParts.
  - unfold stream_onDone.
    pose proof (extends_finalise gatewayContextId t h) as Hf.
    now destruct (finaliseAgentMsg gatewayContextId t h).
  - now apply extends_updateMessage.
  - now apply extends_updateMessage.
  - unfold openConversation. simpl.
    destruct (find _ (conversations h)) as [conv|]; [|apply extends_refl].
    destruct (find _ agentsRef); apply extends_refl.
Qed.

(** Short of [deleteConversation], whatever happens to the hook loses
    nothing: the conversations there were are still there in their
    order, after those created since; each has its agent, its title and
    its time of creation, and the messages it had, in their order, with
    their identity, role, agent name and time, before those added
    since. *)
Theorem store_only_grows (actions : list action) (h : hook) :
  forallb (fun a => negb (is_delete a)) actions = true ->
  extends (conversations h) (conversations (perform_all actions h)).
Proof.
  revert h. induction actions as [|a rest IH]; intros h Hnd; simpl.
  - apply extends_refl.
  - simpl in Hnd. apply andb_prop in Hnd. destruct Hnd as [Ha Hrest].
    apply extends_trans with (conversations (perform a h)).
    + apply extends_perform. now destruct (is_delete a).
    + now apply IH.
Qed.

(** A turn in a store that holds two conversations: the new conversation
    is put in front of them. *)
Lemma store_only_grows_witness :
  extends two_conversations
    (conversations
       (perform_all session (opened two_conversations))).
Proof.
  apply (@store_only_grows session (opened two_conversations)).
  reflexivity.
Defined.

End ChatFacts.

(* ================================================================== *)
(** * More about the streaming call *)
(* ================================================================== *)

Module StreamMore.

Import A2AClient Statements Examples StoreFacts StreamFacts ChunkFacts
  MoreStatements MoreExamples.

(** ** The envelope *)

(** A JSON-RPC envelope around an event that is an object and not an
    envelope itself leads to the callback the bare event leads to, and
    carries the context identifier the bare event carries. *)
Theorem envelope_transparent (fields : list (jsstring * JSON)) (ev : JSON)
  (cid : jsvalue) :
  lookup (lit "jsonrpc") fields = Some (JStr (lit "2.0")) ->
  lookup (lit "result") fields = Some ev ->
  is_object (Some ev) = true ->
  unwrap ev = ev ->
  dispatchSseEvent (JObj fields) = dispatchSseEvent ev
  /\ payload_contextId (JObj fields) = payload_contextId ev
  /\ capture (JObj fields) cid = capture ev cid.
Proof.
  intros Hrpc Hres Hobj Hplain.
  assert (Hun : unwrap (JObj fields) = ev).
  { unfold unwrap.
    replace (get (Some (JObj fields)) (lit "result")) with (Some ev)
      by (symmetry; exact Hres).
    replace (get (Some (JObj fields)) (lit "jsonrpc"))
      with (Some (JStr (lit "2.0"))) by (symmetry; exact Hrpc).
    now rewrite Hobj. }
  assert (Hcid : payload_contextId (JObj fields) = payload_contextId ev).
  { unfold payload_contextId. rewrite Hun, Hplain, Hobj. reflexivity. }
  split; [|split; [exact Hcid|]].
  - unfold dispatchSseEvent. rewrite Hun, Hplain, Hobj. reflexivity.
  - unfold capture. now rewrite Hcid.
Qed.

(** The message of [ping_stream], bare and in its envelope. *)
Lemma envelope_transparent_witness :
  dispatchSseEvent hi_payload = Some (onPart hi_parts)
  /\ dispatchSseEvent hi_payload
     = dispatchSseEvent
         (JObj [(lit "kind", JStr (lit "message")); (lit "parts", hi_parts)]).
Proof.
  split; [reflexivity|].
  apply (proj1 (@envelope_transparent
                  [(lit "jsonrpc", JStr (lit "2.0"));
                   (lit "result",
                    JObj [(lit "kind", JStr (lit "message"));
                          (lit "parts", hi_parts)])]
                  (JObj [(lit "kind", JStr (lit "message"));
                         (lit "parts", hi_parts)])
                  None eq_refl eq_refl eq_refl eq_refl)).
Defined.

(** ** What a callback is called with *)

Section Callbacks.

Variable JSON_parse : jsstring -> option JSON.
Variable cancels : list callback -> bool.
Variable throws : list callback -> option thrown.

Variable Q : callback -> Prop.
Hypothesis Q_dispatched :
  forall raw c, dispatchSseEvent raw = Some c -> Q c.
Hypothesis Q_terminal : forall c, is_terminal c = true -> Q c.

Local Abbreviation all_Q := (fun st => Forall Q (called (trace st))).

Lemma all_Q_cancel (st : state) : all_Q st -> all_Q (cancel st).
Proof. unfold cancel. simpl. now rewrite called_app, app_nil_r. Qed.

Lemma all_Q_call (c : callback) (st : state) :
  Q c -> all_Q st -> all_Q (fst (call cancels throws c st)).
Proof.
  intros Hc Hst. unfold call. simpl.
  assert (H : Forall Q (called (trace st ++ [Called c]))).
  { rewrite called_app. apply Forall_app. split; trivial.
    simpl. now constructor. }
  destruct (cancels _); trivial. simpl.
  now rewrite called_app, app_nil_r.
Qed.

Lemma all_Q_processEvent (ev : jsstring) (st : state) :
  all_Q st -> all_Q (fst (processEvent JSON_parse cancels throws ev st)).
Proof.
  intros H. unfold processEvent.
  destruct (is_empty (trim ev)); trivial.
  destruct (is_empty (block_raw ev)
            || JsString.eqb (block_raw ev) (lit "[DONE]")); trivial.
  destruct (JSON_parse (block_raw ev)) as [parsed|]; trivial.
  destruct (aborted st); trivial.
  destruct (dispatchSseEvent parsed) as [c|] eqn:Hc; trivial.
  assert (Hcall : all_Q (fst (call cancels throws c (captured parsed st)))).
  { apply all_Q_call; trivial. now apply Q_dispatched with parsed. }
  now destruct (call cancels throws c (captured parsed st)).
Qed.

Lemma all_Q_processEvents (events : list jsstring) (st : state) :
  all_Q st -> all_Q (fst (processEvents JSON_parse cancels throws events st)).
Proof.
  revert st. induction events as [|ev rest IH]; intros st H; trivial.
  simpl. pose proof (all_Q_processEvent ev H) as H1.
  destruct (processEvent JSON_parse cancels throws ev st) as [st1 [| |err]];
    simpl in *; auto.
Qed.

Lemma all_Q_processBuffer (st : state) :
  all_Q st -> all_Q (fst (processBuffer JSON_parse cancels throws st)).
Proof. intros H. unfold processBuffer. now apply all_Q_processEvents. Qed.

Lemma all_Q_catch (err : thrown) (st : state) :
  all_Q st -> all_Q (catch cancels throws err st).
Proof.
  intros H. unfold catch. destruct (aborted st); trivial.
  apply all_Q_call; trivial. now apply Q_terminal.
Qed.

Lemma all_Q_read_loop (reads : list read_step) (st : state) :
  all_Q st -> all_Q (read_loop JSON_parse cancels throws reads st).
Proof.
  revert st. induction reads as [|r rest IH]; intros st H; trivial.
  cbn [read_loop].
  set (st0 := if cancelled r then cancel st else st).
  assert (H0 : all_Q st0).
  { unfold st0. destruct (cancelled r); trivial. now apply all_Q_cancel. }
  clearbody st0.
  destruct (result r) as [value| |err].
  - destruct (aborted st0); trivial.
    destruct (TextDecoder.decode (decoder st0) value) as [d text].
    pose proof (@all_Q_processBuffer
                  (set_buffer (buffer st0 ++ text) (set_decoder d st0)) H0)
      as H1.
    destruct (processBuffer JSON_parse cancels throws
                (set_buffer (buffer st0 ++ text) (set_decoder d st0)))
      as [st1 [err|]]; simpl in H1.
    + now apply all_Q_catch.
    + now apply IH.
  - destruct (aborted st0); trivial.
    assert (H1 :
      all_Q (fst (if is_empty (trim (buffer st0)) then (st0, None)
                  else processBuffer JSON_parse cancels throws
                         (set_buffer (buffer st0 ++ [LF; LF]) st0)))).
    { destruct (is_empty (trim (buffer st0))); trivial.
      now apply all_Q_processBuffer. }
    destruct (if is_empty (trim (buffer st0)) then (st0, None)
              else processBuffer JSON_parse cancels throws
                     (set_buffer (buffer st0 ++ [LF; LF]) st0))
      as [st1 [err|]]; simpl in H1.
    + now apply all_Q_catch.
    + destruct (aborted st1); trivial.
      assert (H2 : all_Q (fst (call cancels throws
                                 (onDone (firstContextId st1)) st1))).
      { apply all_Q_call; trivial. now apply Q_terminal. }
      destruct (call cancels throws (onDone (firstContextId st1)) st1)
        as [st2 [err|]]; simpl in H2; trivial.
      now apply all_Q_catch.
  - now apply all_Q_catch.
Qed.

Lemma all_Q_streamMessage (x : exchange) :
  all_Q (streamMessage JSON_parse cancels throws x).
Proof.
  unfold streamMessage.
  assert (H0 : all_Q (if cancelled_during_fetch x then cancel initial
                      else initial)).
  { destruct (cancelled_during_fetch x); simpl; constructor. }
  destruct (fetched x) as [err|ok status body].
  - now apply all_Q_catch.
  - destruct ok; simpl; [|now apply all_Q_catch].
    destruct body as [reads|]; [|now apply all_Q_catch].
    now apply all_Q_read_loop.
Qed.

End Callbacks.

Lemma dispatchSseEvent_with_parts (raw : JSON) (c : callback) :
  dispatchSseEvent raw = Some c -> with_parts c.
Proof.
  assert (Hpart : forall parts c, part_callback parts = Some c ->
                                  with_parts c).
  { intros [p|] c'; unfold part_callback; [|now intros [=]].
    destruct (has_length (Some p)) eqn:E; [|now intros [=]].
    intros [= <-]. exact E. }
  unfold dispatchSseEvent.
  repeat match goal with
         | |- context [if ?b then _ else _] => destruct b
         end;
    try (now intros [=]); try (apply Hpart); now intros [= <-].
Qed.

(** Whatever the gateway sends and whatever the caller does, [onPart] is
    never called with parts of length zero: not with an empty array, not
    with an empty string, not with an object whose [length] is falsy. *)
Theorem onPart_never_empty (JSON_parse : jsstring -> option JSON)
  (cancels : list callback -> bool) (throws : list callback -> option thrown)
  (x : exchange) (p : JSON) :
  In (onPart p) (called (trace (streamMessage JSON_parse cancels throws x))) ->
  has_length (Some p) = true
  /\ p <> JArr [] /\ p <> JStr [].
Proof.
  intros Hin.
  pose proof (@all_Q_streamMessage JSON_parse cancels throws with_parts
                dispatchSseEvent_with_parts) as H.
  assert (Hlen : has_length (Some p) = true).
  { specialize (H (fun c Hc => match c return is_terminal c = true -> with_parts c
                             with
                             | onPart _ => fun E => False_ind _ (diff_false_true E)
                             | _ => fun _ => I
                             end Hc) x).
    rewrite Forall_forall in H. exact (H _ Hin). }
  split; [exact Hlen|]. split; intros ->; discriminate Hlen.
Qed.

(** The stream of [ping_stream] calls [onPart] with one part. *)
Lemma onPart_never_empty_witness :
  In (onPart hi_parts)
    (called (trace (streamMessage JsonText.parse never returns
                      (delivery ping_stream [Done]))))
  /\ has_length (Some hi_parts) = true
  /\ hi_parts <> JArr [] /\ hi_parts <> JStr [].
Proof.
  assert (Hin : In (onPart hi_parts)
                  (called (trace (streamMessage JsonText.parse never returns
                                    (delivery ping_stream [Done]))))).
  { vm_compute. left. reflexivity. }
  split; [exact Hin|].
  exact (@onPart_never_empty JsonText.parse never returns
           (delivery ping_stream [Done]) hi_parts Hin).
Defined.

(** ** Blank strings *)

Lemma trimStart_spaces (s : jsstring) :
  forallb is_space s = true -> trimStart s = [].
Proof.
  induction s as [|c s IH]; simpl; trivial.
  destruct (is_space c); [exact IH|discriminate].
Qed.

Lemma trimStart_keeps (s : jsstring) :
  forallb is_space s = false ->
  exists c r, trimStart s = c :: r /\ is_space c = false.
Proof.
  induction s as [|c s IH]; simpl; [discriminate|].
  destruct (is_space c) eqn:E; [exact IH|].
  intros _. now exists c, s.
Qed.

Lemma trim_blank (s : jsstring) : is_empty (trim s) = forallb is_space s.
Proof.
  unfold trim, trimEnd. destruct (forallb is_space s) eqn:E.
  - now rewrite (trimStart_spaces s E).
  - destruct (trimStart_keeps s E) as (c & r & -> & Hc).
    destruct (trimStart_keeps (rev (c :: r))) as (c' & r' & -> & _).
    + simpl. rewrite forallb_app. simpl. rewrite Hc.
      now rewrite andb_false_r.
    + simpl. now destruct (rev r').
Qed.

(** ** The lines of a block *)

Lemma split_LF_line (line : jsstring) :
  no_LF line -> split_LF line = [line].
Proof.
  induction 1 as [|c line Hc _ IH]; trivial. simpl.
  rewrite (proj2 (N.eqb_neq c LF) Hc), IH. reflexivity.
Qed.

Lemma split_LF_cons (line rest : jsstring) :
  no_LF line -> split_LF (line ++ LF :: rest) = line :: split_LF rest.
Proof.
  induction 1 as [|c line Hc _ IH]; trivial. simpl.
  rewrite (proj2 (N.eqb_neq c LF) Hc), IH. reflexivity.
Qed.

(** Lines joined by line feeds and split at line feeds are the lines
    there were. *)
Lemma split_LF_join (line : jsstring) (lines : list jsstring) :
  Forall no_LF (line :: lines) ->
  split_LF (join [LF] (line :: lines)) = line :: lines.
Proof.
  revert line. induction lines as [|l lines IH]; intros line Hall.
  - apply split_LF_line. now inversion Hall.
  - inversion Hall as [|? ? Hline Hrest]; subst.
    change (join [LF] (line :: l :: lines))
      with (line ++ LF :: join [LF] (l :: lines)).
    rewrite split_LF_cons by trivial. now rewrite IH.
Qed.

Lemma dataLines_join (lines : list jsstring) :
  Forall no_LF lines ->
  dataLines (join [LF] lines)
  = flat_map
      (fun line => if is_data_line line then [slice_from 6 line] else [])
      lines.
Proof.
  intros Hall. unfold dataLines. destruct lines as [|line lines]; trivial.
  now rewrite split_LF_join.
Qed.

Lemma flat_map_filter (A B : Type) (test : A -> bool) (f : A -> list B)
  (l : list A) :
  flat_map (fun x => if test x then f x else []) (filter test l)
  = flat_map (fun x => if test x then f x else []) l.
Proof.
  induction l as [|x l IH]; trivial. simpl.
  destruct (test x) eqn:E; simpl; [now rewrite E, IH|exact IH].
Qed.

Lemma in_join (sep line : jsstring) (lines : list jsstring) (c : N) :
  In line lines -> In c line -> In c (join sep lines).
Proof.
  induction lines as [|l lines IH]; [contradiction|].
  intros [->|Hl] Hc.
  - destruct lines; [exact Hc|]. simpl. apply in_or_app. now left.
  - destruct lines as [|l2 lines]; [contradiction|].
    change (join sep (l :: l2 :: lines))
      with (l ++ sep ++ join sep (l2 :: lines)).
    apply in_or_app. right. apply in_or_app. right. now apply IH.
Qed.

Lemma not_blank (s : jsstring) (c : N) :
  In c s -> is_space c = false -> is_empty (trim s) = false.
Proof.
  intros Hc Hs. rewrite trim_blank.
  destruct (forallb is_space s) eqn:E; trivial.
  rewrite forallb_forall in E. specialize (E c Hc). congruence.
Qed.

Lemma data_line_d (line : jsstring) :
  is_data_line line = true -> In 100%N line.
Proof.
  unfold is_data_line. intros H. destruct line as [|c line]; [discriminate H|].
  change (startsWith (lit "data: ") (c :: line))
    with ((100 =? c)%N && startsWith (lit "ata: ") line) in H.
  apply andb_prop in H. destruct H as [H _]. apply N.eqb_eq in H.
  now left.
Qed.

Section Lines.

Variable JSON_parse : jsstring -> option JSON.
Variable cancels : list callback -> bool.
Variable throws : list callback -> option thrown.

(** Of the lines of a block only those that start with [data: ] count:
    the block is handled as the block of these lines alone, whatever the
    other lines are (a comment, an [event:] or [id:] field, [data:]
    without the space). *)
Theorem other_lines_ignored (lines : list jsstring) (st : state) :
  Forall no_LF lines ->
  processEvent JSON_parse cancels throws (join [LF] lines) st
  = processEvent JSON_parse cancels throws
      (join [LF] (filter is_data_line lines)) st.
Proof.
  intros Hall.
  assert (Hfiltered : Forall no_LF (filter is_data_line lines)).
  { rewrite Forall_forall in *. intros l Hl. apply filter_In in Hl.
    now apply Hall. }
  assert (Hraw : block_raw (join [LF] lines)
                 = block_raw (join [LF] (filter is_data_line lines))).
  { unfold block_raw. rewrite !dataLines_join by trivial.
    now rewrite flat_map_filter. }
  unfold processEvent. rewrite <- Hraw.
  destruct (filter is_data_line lines) as [|l ls] eqn:Hf.
  - assert (Hnone : block_raw (join [LF] lines) = []).
    { rewrite Hraw. reflexivity. }
    rewrite Hnone. simpl.
    now destruct (is_empty (trim (join [LF] lines))).
  - assert (Hl : In l (filter is_data_line lines)) by (rewrite Hf; now left).
    apply filter_In in Hl. destruct Hl as [Hl Hdata].
    apply data_line_d in Hdata.
    rewrite (@not_blank (join [LF] lines) 100%N); trivial;
      [|now apply in_join with l].
    rewrite (@not_blank (join [LF] (l :: ls)) 100%N); trivial.
    apply in_join with l; [now left|exact Hdata].
Qed.

End Lines.

(** A block with an [event:] line, the data on two lines and an [id:]
    line between them. *)
Lemma other_lines_ignored_witness :
  processEvent JsonText.parse never returns
    (join [LF]
       [text "event: status"; text "data: {'kind':'status-update',";
        text "id: 7"; text "data: 'status':{'state':'working'}}"])
    initial
  = processEvent JsonText.parse never returns
      (join [LF]
         [text "data: {'kind':'status-update',";
          text "data: 'status':{'state':'working'}}"])
      initial.
Proof.
  apply (@other_lines_ignored JsonText.parse never returns
           [text "event: status"; text "data: {'kind':'status-update',";
            text "id: 7"; text "data: 'status':{'state':'working'}}"]
           initial).
  repeat constructor; vm_compute; discriminate.
Defined.

(** ** The blank line that ends a block *)

(** After a string that ends with a blank line nothing is left but,
    at most, a line feed. *)
Lemma split_LFLF_closed_len (n : nat) :
  forall s : jsstring,
  (List.length s <= n)%nat ->
  exists ps p,
    split_LFLF (s ++ [LF; LF]) = ps ++ [p] /\ ps <> []
    /\ (p = [] \/ p = [LF]).
Proof.
  induction n as [|n IH]; intros s Hlen.
  - destruct s; [|simpl in Hlen; lia].
    exists [[]], []. repeat split; [discriminate|now left].
  - destruct s as [|c [|d rest]].
    + exists [[]], []. repeat split; [discriminate|now left].
    + destruct (N.eqb_spec c LF) as [->|Hc].
      * exists [[]], [LF]. repeat split; [discriminate|now right].
      * exists [[c]], []. split; [|split; [discriminate|now left]].
        change ([c] ++ [LF; LF]) with (c :: LF :: [LF]).
        rewrite split_LFLF_step; [reflexivity|].
        apply andb_false_iff. left. now apply N.eqb_neq.
    + change ((c :: d :: rest) ++ [LF; LF]) with (c :: d :: (rest ++ [LF; LF])).
      destruct (split_LFLF_cases c d rest) as [[-> ->]|Hcd].
      * rewrite split_LFLF_blank.
        destruct (IH rest) as (ps & p & -> & Hps & Hp);
          [simpl in Hlen; lia|].
        exists ([] :: ps), p. repeat split; [discriminate|exact Hp].
      * rewrite split_LFLF_step by trivial.
        change (d :: rest ++ [LF; LF]) with ((d :: rest) ++ [LF; LF]).
        destruct (IH (d :: rest)) as (ps & p & -> & Hps & Hp);
          [simpl in *; lia|].
        destruct ps as [|q qs]; [contradiction|].
        exists ((c :: q) :: qs), p. repeat split; [discriminate|exact Hp].
Qed.

Lemma push_front_Forall (P : N -> Prop) (c : N) (ps : list jsstring) :
  P c -> Forall (Forall P) ps -> Forall (Forall P) (push_front c ps).
Proof.
  intros Hc Hps. destruct ps as [|p ps]; simpl.
  - constructor; [|apply Forall_nil].
    constructor; [exact Hc|apply Forall_nil].
  - inversion Hps; subst. constructor; trivial. now constructor.
Qed.

(** The pieces of a string are made of its characters. *)
Lemma split_LFLF_Forall_len (P : N -> Prop) (n : nat) :
  forall s : jsstring,
  (List.length s <= n)%nat -> Forall P s -> Forall (Forall P) (split_LFLF s).
Proof.
  assert (Hnil : Forall (Forall P) [[]])
    by (constructor; [apply Forall_nil|apply Forall_nil]).
  induction n as [|n IH]; intros s Hlen Hs.
  - destruct s; [exact Hnil|simpl in Hlen; lia].
  - destruct s as [|c [|d rest]];
      [exact Hnil|constructor; [exact Hs|apply Forall_nil]|].
    inversion Hs as [|? ? Hc Hrest]; subst.
    destruct (split_LFLF_cases c d rest) as [[-> ->]|Hcd].
    + rewrite split_LFLF_blank. constructor; [apply Forall_nil|].
      apply IH; [simpl in Hlen; lia|]. now inversion Hrest.
    + rewrite split_LFLF_step by trivial. apply push_front_Forall; trivial.
      apply IH; [simpl in *; lia|trivial].
Qed.

Lemma blank_Forall (s : jsstring) :
  is_empty (trim s) = true <-> Forall (fun c => is_space c = true) s.
Proof. rewrite trim_blank, forallb_forall, Forall_forall. tauto. Qed.

(** What [processBuffer] finds when two line feeds are added to a buffer
    it left: the buffer it leaves then is blank, and so are the blocks
    when the buffer was. *)
Lemma feed_closed (buf text : jsstring) :
  is_empty (trim (snd (feed (snd (feed buf text)) [LF; LF]))) = true
  /\ (is_empty (trim (snd (feed buf text))) = true ->
      Forall (fun b => is_empty (trim b) = true)
        (fst (feed (snd (feed buf text)) [LF; LF]))).
Proof.
  pose proof (feed_no_CR buf text) as Hcr.
  set (rest := snd (feed buf text)) in *.
  pose proof (feed_spec rest [LF; LF]) as Hspec.
  rewrite normalize_no_CR_app in Hspec by trivial.
  change (normalize [LF; LF]) with [LF; LF] in Hspec.
  split.
  - destruct (@split_LFLF_closed_len (List.length rest) rest (le_n _))
      as (ps & p & Hsplit & _ & Hp).
    rewrite Hsplit in Hspec. apply app_inj_tail in Hspec.
    destruct Hspec as [_ <-]. now destruct Hp as [->| ->].
  - intros Hblank. apply blank_Forall in Hblank.
    assert (Hall : Forall (fun c => is_space c = true) (rest ++ [LF; LF])).
    { apply Forall_app. split; trivial. repeat constructor. }
    apply (@split_LFLF_Forall_len _ _ _ (le_n _)) in Hall.
    rewrite Hspec in Hall. apply Forall_app in Hall.
    destruct Hall as [Hall _]. revert Hall. apply Forall_impl.
    intros b. apply blank_Forall.
Qed.

(** ** A body that nobody cancels *)

Section Undisturbed.

Variable JSON_parse : jsstring -> option JSON.

Local Abbreviation payload_of := (payload_of JSON_parse).
Local Abbreviation payloads := (payloads JSON_parse).

Lemma advance_nil (st : state) : advance [] st = st.
Proof. destruct st. unfold advance. simpl. now rewrite !app_nil_r. Qed.

Lemma dispatched_app (ps qs : list JSON) :
  dispatched (ps ++ qs) = dispatched ps ++ dispatched qs.
Proof. unfold dispatched. apply flat_map_app. Qed.

Lemma advance_app (ps qs : list JSON) (st : state) :
  advance qs (advance ps st) = advance (ps ++ qs) st.
Proof.
  unfold advance. simpl.
  now rewrite fold_left_app, dispatched_app, map_app, !app_assoc.
Qed.

Lemma processEvent_never (ev : jsstring) (st : state) :
  aborted st = false ->
  processEvent JSON_parse never returns ev st
  = (advance match payload_of ev with Some p => [p] | None => [] end st,
     Continue).
Proof.
  intros Hab. unfold processEvent, MoreStatements.payload_of.
  destruct (is_empty (trim ev)); [now rewrite advance_nil|].
  destruct (is_empty (block_raw ev)
            || JsString.eqb (block_raw ev) (lit "[DONE]"));
    [now rewrite advance_nil|].
  destruct (JSON_parse (block_raw ev)) as [parsed|];
    [|now rewrite advance_nil].
  rewrite Hab. f_equal. unfold advance, dispatched, captured, call. simpl.
  destruct (dispatchSseEvent parsed) as [c|]; simpl; trivial.
  now rewrite app_nil_r.
Qed.

Lemma processEvents_never (blocks : list jsstring) (st : state) :
  aborted st = false ->
  processEvents JSON_parse never returns blocks st
  = (advance (payloads blocks) st, None).
Proof.
  revert st. induction blocks as [|b rest IH]; intros st Hab.
  - now rewrite advance_nil.
  - rewrite processEvents_cons, processEvent_never by trivial.
    rewrite IH by trivial. now rewrite advance_app.
Qed.

Lemma fold_capture (ps : list JSON) :
  forall before,
  fold_left (fun cid p => capture p cid) ps (first_contextId before)
  = first_contextId (before ++ ps).
Proof.
  induction ps as [|p ps IH]; intros before; simpl.
  - now rewrite app_nil_r.
  - rewrite <- first_contextId_snoc, IH, <- app_assoc. reflexivity.
Qed.

Lemma done_never (st : state) :
  aborted st = false ->
  read_loop JSON_parse never returns [undisturbed Done] st
  = fst
      (call never returns
      (onDone
         (firstContextId
            (if is_empty (trim (buffer st)) then st
             else advance (payloads (fst (feed (buffer st) [LF; LF])))
                    (set_buffer (snd (feed (buffer st) [LF; LF])) st))))
      (if is_empty (trim (buffer st)) then st
       else advance (payloads (fst (feed (buffer st) [LF; LF])))
              (set_buffer (snd (feed (buffer st) [LF; LF])) st))).
Proof.
  intros Hab. cbn [read_loop undisturbed cancelled result]. rewrite Hab.
  destruct (is_empty (trim (buffer st))); [now rewrite Hab|].
  rewrite processBuffer_feed, processEvents_never by trivial.
  change (aborted (advance ?ps (set_buffer ?b st))) with (aborted st).
  now rewrite Hab.
Qed.

(** The trace of a body delivered in chunks and ended, nobody calling
    [cancel()]. *)
Lemma delivery_trace (chunks : list (list byte)) :
  CRLF_kept [] chunks = true ->
  trace (streamMessage JSON_parse never returns (delivery chunks [Done]))
  = map Called
      (dispatched
         (payloads
            (blocks_of_body (snd (TextDecoder.decode TextDecoder.fresh
                                    (concat chunks)))))
       ++ [onDone
             (first_contextId
                (payloads
                   (blocks_of_body
                      (snd (TextDecoder.decode TextDecoder.fresh
                              (concat chunks))))))]).
Proof.
  intros Hkept. rewrite streamMessage_delivery, read_loop_values.
  change (A2AClient.decoder initial) with TextDecoder.fresh.
  change (buffer initial) with (@nil N).
  rewrite blocks_of_concat by trivial. unfold blocks_of_body.
  cbn [blocks_of].
  destruct (TextDecoder.decode TextDecoder.fresh (concat chunks)) as [d text].
  cbn [snd].
  destruct (feed [] text) as [events rest] eqn:Hfeed. cbn [fst snd].
  rewrite app_nil_r, processEvents_never by reflexivity.
  cbn [aborted advance initial].
  rewrite done_never by reflexivity.
  change (buffer (set_buffer rest ?s)) with rest.
  assert (Hfirst : forall ps qs,
    fold_left (fun cid p => capture p cid) qs
      (fold_left (fun cid p => capture p cid) ps None)
    = first_contextId (ps ++ qs)).
  { intros ps qs. rewrite <- fold_left_app.
    apply (fold_capture (ps ++ qs) []). }
  unfold MoreStatements.payloads. rewrite flat_map_app.
  fold payloads.
  assert (Hfirst0 : forall ps,
    fold_left (fun cid p => capture p cid) ps None = first_contextId ps).
  { intros ps. apply (fold_capture ps []). }
  destruct (is_empty (trim rest)); unfold call, never;
    cbn [trace advance set_buffer set_decoder initial firstContextId app];
    rewrite ?Hfirst, ?Hfirst0.
  - now rewrite !app_nil_r, map_app.
  - rewrite dispatched_app, !map_app. reflexivity.
Qed.

Lemma payloads_app (l1 l2 : list jsstring) :
  payloads (l1 ++ l2) = payloads l1 ++ payloads l2.
Proof. unfold MoreStatements.payloads. apply flat_map_app. Qed.

Lemma payloads_blank (blocks : list jsstring) :
  Forall (fun b => is_empty (trim b) = true) blocks -> payloads blocks = [].
Proof.
  induction 1 as [|b blocks Hb _ IH]; trivial.
  unfold MoreStatements.payloads in *. simpl.
  unfold MoreStatements.payload_of at 1. now rewrite Hb.
Qed.

(** The payloads of a body are those of the same body with a blank line
    added at its end. *)
Lemma payloads_closed (text : jsstring) :
  ends_CR text = false ->
  payloads (blocks_of_body (text ++ [LF; LF]))
  = payloads (blocks_of_body text).
Proof.
  intros Hcr. unfold blocks_of_body.
  rewrite feed_app by (now rewrite Hcr). cbn [fst snd].
  destruct (feed_closed [] text) as [Hrest Hblocks].
  change ([] ++ text) with text in *.
  rewrite Hrest, app_nil_r, !payloads_app. f_equal.
  destruct (is_empty (trim (snd (feed [] text)))); trivial.
  now apply payloads_blank, Hblocks.
Qed.

(** A body that nobody cancels, delivered in chunks none of which parts
    a carriage return from its line feed, and ended: the callbacks are
    those the payloads of its blocks lead to, block after block, and
    then [onDone] with the first truthy context identifier among the
    payloads; [cancel()] is not called. *)
Theorem stream_callbacks (chunks : list (list byte)) :
  CRLF_kept [] chunks = true ->
  called
    (trace (streamMessage JSON_parse never returns (delivery chunks [Done])))
  = dispatched
      (payloads
         (blocks_of_body
            (snd (TextDecoder.decode TextDecoder.fresh (concat chunks)))))
    ++ [onDone
          (first_contextId
             (payloads
                (blocks_of_body
                   (snd (TextDecoder.decode TextDecoder.fresh
                           (concat chunks))))))]
  /\ cancel_free
       (trace
          (streamMessage JSON_parse never returns (delivery chunks [Done])))
     = true.
Proof.
  intros Hkept. rewrite delivery_trace by trivial.
  generalize
    (dispatched
       (payloads
          (blocks_of_body
             (snd (TextDecoder.decode TextDecoder.fresh (concat chunks)))))
     ++ [onDone
           (first_contextId
              (payloads
                 (blocks_of_body
                    (snd (TextDecoder.decode TextDecoder.fresh
                            (concat chunks))))))]).
  intros cs. split.
  - induction cs as [|c cs IH]; simpl; [reflexivity|now rewrite IH].
  - induction cs as [|c cs IH]; simpl; trivial.
Qed.

Lemma CRLF_kept_snoc (chunks : list (list byte)) (last : list byte) :
  forall sofar,
  CRLF_kept sofar (chunks ++ [last])
  = CRLF_kept sofar chunks
    && negb (ends_with_CR (sofar ++ concat chunks) && starts_with_LF last).
Proof.
  induction chunks as [|c chunks IH]; intros sofar; simpl.
  - now rewrite app_nil_r, andb_true_r.
  - now rewrite IH, app_assoc, andb_assoc.
Qed.

Lemma decode_blank_line (d : TextDecoder.decoder) :
  TextDecoder.bytes_needed d = 0%N ->
  snd (TextDecoder.decode d [x0a; x0a]) = [LF; LF].
Proof.
  intros Hidle. destruct d as [cp seen needed lower upper bom].
  simpl in Hidle. subst needed. destruct bom; vm_compute; reflexivity.
Qed.

Lemma ends_CR_last (s : jsstring) :
  ends_CR s = true -> exists before, s = before ++ [CR].
Proof.
  unfold ends_CR. intros H. destruct (rev s) as [|c r] eqn:E; [discriminate|].
  apply N.eqb_eq in H. subst c. exists (rev r).
  rewrite <- (rev_involutive s), E. reflexivity.
Qed.

Lemma text_ends_CR (bytes : list byte) :
  TextDecoder.bytes_needed (fst (TextDecoder.decode TextDecoder.fresh bytes))
  = 0%N ->
  ends_with_CR bytes = false ->
  ends_CR (snd (TextDecoder.decode TextDecoder.fresh bytes)) = false.
Proof.
  intros Hidle Hcr.
  destruct (ends_CR (snd (TextDecoder.decode TextDecoder.fresh bytes)))
    eqn:E; trivial.
  apply ends_CR_last in E. destruct E as [before E].
  destruct (@decode_last bytes before CR E) as (s & b & -> & Hb);
    [reflexivity|exact Hidle|].
  unfold ends_with_CR in Hcr. rewrite rev_app_distr in Hcr. simpl in Hcr.
  rewrite Hb in Hcr. discriminate Hcr.
Qed.

(** A body whose last block is not followed by a blank line gives the
    callbacks of the same body followed by one: the block left in the
    buffer when the body ends is decoded like the others.  (The body is
    taken not to end with a carriage return nor inside a character of
    several bytes.) *)
Theorem last_block_flushed (chunks : list (list byte)) :
  CRLF_kept [] chunks = true ->
  TextDecoder.bytes_needed
    (fst (TextDecoder.decode TextDecoder.fresh (concat chunks))) = 0%N ->
  ends_with_CR (concat chunks) = false ->
  trace (streamMessage JSON_parse never returns (delivery chunks [Done]))
  = trace (streamMessage JSON_parse never returns
             (delivery (chunks ++ [[x0a; x0a]]) [Done])).
Proof.
  intros Hkept Hidle Hcr.
  rewrite !delivery_trace; trivial.
  - rewrite concat_app. simpl concat. rewrite ?app_nil_r.
    rewrite decode_app.
    pose proof (text_ends_CR (concat chunks) Hidle Hcr) as Htext.
    pose proof (@decode_blank_line
                  (fst (TextDecoder.decode TextDecoder.fresh (concat chunks)))
                  Hidle) as Hline.
    destruct (TextDecoder.decode TextDecoder.fresh (concat chunks))
      as [d text].
    cbn [fst snd] in *.
    destruct (TextDecoder.decode d [x0a; x0a]) as [d2 line].
    cbn [fst snd] in *. subst line.
    now rewrite payloads_closed.
  - rewrite CRLF_kept_snoc, Hkept. simpl app. now rewrite Hcr.
Qed.

End Undisturbed.

(** The event of [working_block] with nothing after it, and with a blank
    line after it. *)
Lemma last_block_flushed_witness :
  called
    (trace
       (streamMessage JsonText.parse never returns
          (delivery
             [wire "data: {'kind':'status-update','status':{'state':'working'}}"]
             [Done])))
  = [onWorking; onDone None]
  /\ trace
       (streamMessage JsonText.parse never returns
          (delivery
             [wire "data: {'kind':'status-update','status':{'state':'working'}}"]
             [Done]))
     = trace
         (streamMessage JsonText.parse never returns
            (delivery
               ([wire "data: {'kind':'status-update','status':{'state':'working'}}"]
                ++ [[x0a; x0a]])
               [Done])).
Proof.
  split; [vm_compute; reflexivity|].
  apply (@last_block_flushed JsonText.parse
           [wire "data: {'kind':'status-update','status':{'state':'working'}}"]);
    vm_compute; reflexivity.
Defined.

(** The stream of [ping_stream], its second event cut in two. *)
Lemma stream_callbacks_witness :
  called
    (trace
       (streamMessage JsonText.parse never returns
          (delivery
             [wire "data: {'jsonrpc':'2.0','result':{'kind':'ping','contextId':'srv-9'}}" ++ [x0a; x0a] ++ wire "data: {'jsonrpc':'2.0','result':{'kind':'mess";
              wire "age','parts':[{'kind':'text','text':'hi'}]}}" ++ [x0a; x0a]]
             [Done])))
  = [onPart hi_parts; onDone (Some (JStr (lit "srv-9")))].
Proof.
  rewrite (proj1 (@stream_callbacks JsonText.parse
                    [wire "data: {'jsonrpc':'2.0','result':{'kind':'ping','contextId':'srv-9'}}" ++ [x0a; x0a] ++ wire "data: {'jsonrpc':'2.0','result':{'kind':'mess";
                     wire "age','parts':[{'kind':'text','text':'hi'}]}}" ++ [x0a; x0a]]
                    eq_refl)).
  vm_compute. reflexivity.
Defined.

End StreamMore.

(* ================================================================== *)
(** * Agent discovery *)
(* ================================================================== *)

Module DiscoveryFacts.

Import A2AClient UseChat Statements Examples StoreFacts Discovery ChatActions
  MoreStatements MoreExamples.

Local Open Scope N_scope.

(** ** The pattern [/\/agents\/([^/]+)\//] *)

Lemma startsWith_app (p s : jsstring) :
  startsWith p s = true -> exists post, s = p ++ post.
Proof.
  revert s. induction p as [|a p IH]; intros s H; [now exists s|].
  destruct s as [|b s]; [discriminate H|]. simpl in H.
  apply andb_prop in H. destruct H as [Hab H]. apply N.eqb_eq in Hab.
  subst b. destruct (IH s H) as [post ->]. now exists post.
Qed.

Lemma startsWith_prefix (p post : jsstring) : startsWith p (p ++ post) = true.
Proof.
  induction p as [|a p IH]; trivial. simpl. now rewrite N.eqb_refl, IH.
Qed.

Lemma segment_spec (s : jsstring) :
  s = fst (segment s) ++ snd (segment s)
  /\ ~ In SLASH (fst (segment s))
  /\ (snd (segment s) = []
      \/ exists after, snd (segment s) = SLASH :: after).
Proof.
  induction s as [|c s (IH1 & IH2 & IH3)]; simpl; [tauto|].
  destruct (N.eqb_spec c SLASH) as [->|Hc]; simpl.
  - split; trivial. split; [tauto|]. right. now exists s.
  - destruct (segment s) as [seg after]. simpl in *.
    split; [now rewrite IH1 at 1|]. split; [|exact IH3].
    intros [H|H]; [congruence|contradiction].
Qed.

Lemma segment_app (id post : jsstring) :
  ~ In SLASH id -> segment (id ++ SLASH :: post) = (id, SLASH :: post).
Proof.
  induction id as [|c id IH]; intros Hid; [reflexivity|].
  simpl. destruct (N.eqb_spec c SLASH) as [->|Hc].
  - exfalso. apply Hid. now left.
  - rewrite IH; [reflexivity|]. intros H. apply Hid. now right.
Qed.

Lemma match_here_sound (s id : jsstring) :
  match_here s = Some id ->
  id <> [] /\ ~ In SLASH id
  /\ exists post, s = lit "/agents/" ++ id ++ SLASH :: post.
Proof.
  unfold match_here.
  destruct (startsWith (lit "/agents/") s) eqn:Hs; [|discriminate].
  apply startsWith_app in Hs. destruct Hs as [rest ->].
  change (skipn 8 (lit "/agents/" ++ rest)) with rest.
  destruct (segment_spec rest) as (Hrest & Hseg & Hafter).
  destruct (segment rest) as [[|c seg] [|d after]]; try discriminate.
  simpl in *. destruct (N.eqb_spec d SLASH) as [->|]; [|discriminate].
  intros [= <-]. split; [discriminate|]. split; [exact Hseg|].
  exists after. now rewrite Hrest at 1.
Qed.

Lemma match_here_complete (id post : jsstring) :
  id <> [] -> ~ In SLASH id ->
  match_here (lit "/agents/" ++ id ++ SLASH :: post) = Some id.
Proof.
  intros Hne Hid. unfold match_here. rewrite startsWith_prefix.
  change (skipn 8 (lit "/agents/" ++ id ++ SLASH :: post))
    with (id ++ SLASH :: post).
  rewrite segment_app by trivial.
  destruct id; [contradiction|]. reflexivity.
Qed.

Lemma url_match_sound (s id : jsstring) :
  url_match s = Some id ->
  id <> [] /\ ~ In SLASH id
  /\ exists pre post, s = pre ++ lit "/agents/" ++ id ++ SLASH :: post.
Proof.
  induction s as [|c s IH].
  - simpl. intros H. discriminate H.
  - cbn [url_match]. destruct (match_here (c :: s)) as [found|] eqn:E.
    + intros [= <-]. apply match_here_sound in E.
      destruct E as (H1 & H2 & post & H3).
      split; trivial. split; trivial. exists [], post. exact H3.
    + intros H. destruct (IH H) as (H1 & H2 & pre & post & ->).
      split; trivial. split; trivial. now exists (c :: pre), post.
Qed.

Lemma url_match_complete (pre id post : jsstring) :
  id <> [] -> ~ In SLASH id ->
  url_match (pre ++ lit "/agents/" ++ id ++ SLASH :: post) <> None.
Proof.
  intros Hne Hid. induction pre as [|c pre IH].
  - change ([] ++ ?x) with x. cbn [url_match].
    destruct (lit "/agents/" ++ id ++ SLASH :: post) eqn:E;
      cbn [url_match]; rewrite <- ?E, match_here_complete by trivial;
      discriminate.
  - change ((c :: pre) ++ ?x) with (c :: (pre ++ x)). cbn [url_match].
    destruct (match_here _); [discriminate|exact IH].
Qed.

(** White space becomes dashes. *)
Lemma dash_spaces_no_space (s : jsstring) :
  forall in_run, Forall (fun c => is_space c = false) (dash_spaces in_run s).
Proof.
  induction s as [|c s IH]; intros in_run; simpl; [constructor|].
  destruct (is_space c) eqn:E.
  - destruct in_run; [apply IH|]. constructor; [reflexivity|apply IH].
  - constructor; [exact E|apply IH].
Qed.

Lemma dash_spaces_none (s : jsstring) :
  Forall (fun c => is_space c = false) s -> dash_spaces false s = s.
Proof.
  induction 1 as [|c s Hc _ IH]; trivial. simpl. now rewrite Hc, IH.
Qed.

Section LowerCase.

Variable toLowerCase : jsstring -> jsstring.

(** The identity of an agent is a segment of its card's URL: not empty,
    without a slash, between [/agents/] and a slash; or, when the URL
    has no such segment, and only then, the lower-cased name of the card
    with every run of white space made one dash, in which no white space
    is left (and which is the lower-cased name itself when that has no
    white space). *)
Theorem agentIdFromCard_cases (card : AgentCard) :
  (agentIdFromCard toLowerCase card <> []
   /\ ~ In SLASH (agentIdFromCard toLowerCase card)
   /\ exists pre post,
        url card
        = pre ++ lit "/agents/" ++ agentIdFromCard toLowerCase card
          ++ SLASH :: post)
  \/ ((forall pre id post,
         id <> [] -> ~ In SLASH id ->
         url card <> pre ++ lit "/agents/" ++ id ++ SLASH :: post)
      /\ agentIdFromCard toLowerCase card
         = dash_spaces false (toLowerCase (name card))
      /\ Forall (fun c => is_space c = false)
           (agentIdFromCard toLowerCase card)
      /\ (Forall (fun c => is_space c = false) (toLowerCase (name card)) ->
          agentIdFromCard toLowerCase card = toLowerCase (name card))).
Proof.
  unfold agentIdFromCard.
  destruct (url_match (url card)) as [id|] eqn:E.
  - left. now apply url_match_sound.
  - right. split; [|split; [reflexivity|split]].
    + intros pre id post Hne Hid Hurl. rewrite Hurl in E.
      now apply (@url_match_complete pre id post).
    + apply dash_spaces_no_space.
    + apply dash_spaces_none.
Qed.

(** ** [agentUrl] and back *)

Lemma starts_agents (base rest : jsstring) :
  base <> [] ->
  startsWith (lit "/agents/") (base ++ SLASH :: rest) = true ->
  startsWith (lit "/agents") base = true.
Proof.
  intros Hne H.
  destruct base as [|c0 [|c1 [|c2 [|c3 [|c4 [|c5 [|c6 base]]]]]]];
    [contradiction|..];
    cbn -[N.eqb] in H |- *;
    repeat match type of H with
           | (_ && _ = true) =>
               let E := fresh "E" in
               apply andb_prop in H; destruct H as [E H];
               try discriminate E; try rewrite E
           end;
    try discriminate H; reflexivity.
Qed.

Lemma match_here_not (base rest : jsstring) :
  base <> [] ->
  startsWith (lit "/agents") base = false ->
  match_here (base ++ SLASH :: rest) = None.
Proof.
  intros Hne Hclean. unfold match_here.
  destruct (startsWith (lit "/agents/") (base ++ SLASH :: rest)) eqn:E;
    trivial.
  apply starts_agents in E; trivial. congruence.
Qed.

Lemma url_match_after (base id rest : jsstring) :
  id <> [] -> ~ In SLASH id ->
  occurs (lit "/agents") base = false ->
  url_match (base ++ lit "/agents/" ++ id ++ SLASH :: rest) = Some id.
Proof.
  intros Hne Hid. induction base as [|c base IH]; intros Hclean.
  - change ([] ++ ?x) with x.
    change (lit "/agents/" ++ id ++ SLASH :: rest)
      with (SLASH :: lit "agents/" ++ id ++ SLASH :: rest).
    cbn [url_match].
    change (SLASH :: lit "agents/" ++ id ++ SLASH :: rest)
      with (lit "/agents/" ++ id ++ SLASH :: rest).
    now rewrite match_here_complete.
  - cbn [occurs] in Hclean. apply orb_false_elim in Hclean.
    destruct Hclean as [Hhere Hrest].
    change ((c :: base) ++ ?x) with (c :: (base ++ x)). cbn [url_match].
    change (c :: base ++ lit "/agents/" ++ id ++ SLASH :: rest)
      with ((c :: base) ++ SLASH :: lit "agents/" ++ id ++ SLASH :: rest).
    rewrite match_here_not; [|discriminate|exact Hhere].
    now apply IH.
Qed.

(** A card whose URL is the URL the client calls an agent at, maybe with
    more after it, gives back the identity of that agent, and so the
    same URL to call: for an identity that is not empty and has no
    slash, and a gateway base in which [/agents] does not occur. *)
Theorem agentUrl_agentIdFromCard (base id rest : jsstring)
  (card : AgentCard) :
  id <> [] -> ~ In SLASH id ->
  occurs (lit "/agents") base = false ->
  url card = agentUrl base id ++ rest ->
  agentIdFromCard toLowerCase card = id
  /\ agentUrl base (agentIdFromCard toLowerCase card) = agentUrl base id.
Proof.
  intros Hne Hid Hclean Hurl.
  assert (H : agentIdFromCard toLowerCase card = id).
  { unfold agentIdFromCard. rewrite Hurl. unfold agentUrl.
    rewrite <- !app_assoc.
    change (lit "/" ++ rest) with (SLASH :: rest).
    now rewrite url_match_after. }
  now rewrite H.
Qed.

End LowerCase.

(** The card of the agent [echo] behind the gateway base the client
    uses when none is configured, [/api]. *)
Lemma agentUrl_agentIdFromCard_witness :
  GATEWAY_BASE None None = lit "/api"
  /\ agentIdFromCard ascii_lower echo_card = lit "echo".
Proof.
  split; [reflexivity|].
  apply (proj1 (@agentUrl_agentIdFromCard ascii_lower
                  (GATEWAY_BASE None None) (lit "echo") [] echo_card
                  ltac:(discriminate)
                  ltac:(vm_compute; intuition discriminate)
                  eq_refl eq_refl)).
Defined.

End DiscoveryFacts.

(* ================================================================== *)
(** * The typewriter *)
(* ================================================================== *)

Module TypewriterFacts.

Import A2AClient UseChat Statements Examples StoreFacts MoreStatements
  MoreExamples Typewriter.

(** ** The text of parts, as parts are added *)

Lemma join_app (sep : jsstring) (l1 l2 : list jsstring) :
  join sep (l1 ++ l2)
  = match l1, l2 with
    | [], _ => join sep l2
    | _, [] => join sep l1
    | _, _ => join sep l1 ++ sep ++ join sep l2
    end.
Proof.
  induction l1 as [|a l1 IH]; trivial.
  destruct l2 as [|b l2]; [now rewrite app_nil_r|].
  destruct l1 as [|a' l1]; trivial.
  change (join sep ((a :: a' :: l1) ++ b :: l2))
    with (a ++ sep ++ join sep ((a' :: l1) ++ b :: l2)).
  rewrite IH.
  change (join sep (a :: a' :: l1)) with (a ++ sep ++ join sep (a' :: l1)).
  now rewrite <- !app_assoc.
Qed.

(** The text of the parts of a message once more parts are added is the
    text it had, then, on a new line, the text of the parts added (with
    no line feed when either has no text part): the text a bubble shows
    only ever grows at its end while parts arrive. *)
Theorem partsToText_app (A B : list Part) :
  partsToText (A ++ B)
  = match texts A, texts B with
    | [], _ => partsToText B
    | _, [] => partsToText A
    | _, _ => partsToText A ++ [LF] ++ partsToText B
    end
  /\ exists rest, partsToText (A ++ B) = partsToText A ++ rest.
Proof.
  assert (H : partsToText (A ++ B)
              = match texts A, texts B with
                | [], _ => partsToText B
                | _, [] => partsToText A
                | _, _ => partsToText A ++ [LF] ++ partsToText B
                end).
  { unfold partsToText. rewrite flat_map_app. apply join_app. }
  split; [exact H|]. rewrite H. unfold partsToText, texts.
  destruct (flat_map _ A) as [|a ta]; [now eexists|].
  destruct (flat_map _ B) as [|b tb]; [exists []; now rewrite app_nil_r|].
  now eexists.
Qed.

Section Clock.

Variable number : Type.
Variable zero : number.
Variable minus : number -> number -> number.
Variable geq : number -> number -> bool.

Local Abbreviation instance := (instance number).
Local Abbreviation event := (event number).
Local Abbreviation run := (run zero minus geq).
Local Abbreviation step := (step minus geq).
Local Abbreviation frame := (frame minus geq).
Local Abbreviation frames := (frames minus geq).
Local Abbreviation all_due := (all_due minus geq).
Local Abbreviation text_history := (@text_history number).
Local Abbreviation effect_text := (@effect_text number).

Lemma run_snoc (events : list event) (e : event) :
  run (events ++ [e]) = step e (run events).
Proof. unfold Typewriter.run. now rewrite fold_left_app. Qed.

Lemma texts_snoc (events : list event) (e : event) :
  text_history (events ++ [e]) = texts_step (text_history events) e.
Proof. unfold Typewriter.text_history. now rewrite fold_left_app. Qed.

Lemma current_text_snoc (events : list event) (e : event) :
  forall before,
  current_text (events ++ [e]) before
  = match e with
    | Render o => text o
    | _ => current_text events before
    end.
Proof.
  induction events as [|x events IH]; intros before; simpl.
  - now destruct e.
  - destruct x; apply IH.
Qed.

Lemma renders_snoc (events : list event) (e : event) :
  renders (events ++ [e])
  = (renders events
     + match e with Render _ => 1 | _ => 0 end)%nat.
Proof.
  unfold renders. rewrite filter_app, length_app. now destruct e.
Qed.

Lemma grows_snoc (events : list event) (e : event) :
  forall before,
  grows (events ++ [e]) before
  <-> grows events before
      /\ match e with
         | Render o =>
             enabled o = true -> begins (current_text events before) (text o)
         | _ => True
         end.
Proof.
  induction events as [|x events IH]; intros before; simpl.
  - destruct e; tauto.
  - destruct x; rewrite IH; tauto.
Qed.

(** ** What an instance keeps *)

Local Abbreviation pending_ok := (@pending_ok number).

Lemma effect_scheduled (o : options number) (i : instance) :
  scheduled (effect o i) = scheduled i.
Proof.
  unfold effect. destruct (cleanup i); destruct (enabled o); simpl; trivial;
    destruct (Nat.ltb _ _); simpl; destruct (Nat.leb _ _); reflexivity.
Qed.

Lemma effect_onDone_calls (o : options number) (i : instance) :
  onDone_calls (effect o i) = onDone_calls i.
Proof.
  unfold effect. destruct (cleanup i); destruct (enabled o); simpl; trivial;
    destruct (Nat.ltb _ _); simpl; destruct (Nat.leb _ _); reflexivity.
Qed.

Lemma flush_scheduled (i : instance) : scheduled (flush i) = None.
Proof.
  unfold flush. destruct (scheduled i) as [o|] eqn:E; trivial.
  now rewrite effect_scheduled.
Qed.

Lemma flush_onDone_calls (i : instance) :
  onDone_calls (flush i) = onDone_calls i.
Proof.
  unfold flush. destruct (scheduled i) as [o|]; trivial.
  now rewrite effect_onDone_calls.
Qed.

Lemma pending_ok_effect (o : options number) (current : jsstring)
  (i : instance) :
  pending_ok current i -> pending_ok (text o) (effect o i).
Proof.
  intros Hok t sp. unfold effect.
  assert (Hnone : requested (if cleanup i then cancelAnimationFrame i else i)
                  = None).
  { destruct (cleanup i) eqn:Hc; trivial.
    destruct (requested i) as [[t0 sp0]|] eqn:Hr; trivial.
    destruct (Hok t0 sp0 Hr) as (_ & Hcl & _). congruence. }
  set (i0 := if cleanup i then cancelAnimationFrame i else i) in *.
  clearbody i0.
  destruct (enabled o); simpl.
  - destruct (Nat.ltb (List.length (text o)) (indexRef i0)) eqn:Hshrink;
      simpl.
    + destruct (Nat.leb (List.length (text o)) 0) eqn:Hle; simpl.
      * rewrite Hnone. discriminate.
      * intros [= <- <-]. apply Nat.leb_gt in Hle. auto.
    + destruct (Nat.leb (List.length (text o)) (indexRef i0)) eqn:Hle; simpl.
      * rewrite Hnone. discriminate.
      * intros [= <- <-]. apply Nat.leb_gt in Hle. auto.
  - rewrite Hnone. discriminate.
Qed.

(** A frame that was requested for [t] and [sp]. *)
Lemma frame_requested (timestamp : number) (i : instance) (t : jsstring)
  (sp : number) :
  requested i = Some (t, sp) ->
  frame timestamp i
  = if geq (minus timestamp (lastTimeRef i)) sp then
      if Nat.leb (List.length t) (S (indexRef i)) then
        {| displayed := firstn (S (indexRef i)) t;
           indexRef := S (indexRef i); lastTimeRef := timestamp;
           requested := None; cleanup := cleanup i;
           onDone_calls := S (onDone_calls i); scheduled := scheduled i |}
      else
        {| displayed := firstn (S (indexRef i)) t;
           indexRef := S (indexRef i); lastTimeRef := timestamp;
           requested := Some (t, sp); cleanup := cleanup i;
           onDone_calls := onDone_calls i; scheduled := scheduled i |}
    else
      {| displayed := displayed i; indexRef := indexRef i;
         lastTimeRef := lastTimeRef i; requested := Some (t, sp);
         cleanup := cleanup i; onDone_calls := onDone_calls i;
         scheduled := scheduled i |}.
Proof.
  intros Hr. unfold Typewriter.frame. rewrite Hr. unfold animate.
  change (lastTimeRef (cancelAnimationFrame i)) with (lastTimeRef i).
  destruct (geq (minus timestamp (lastTimeRef i)) sp); [|reflexivity].
  unfold call_onDone, requestAnimationFrame, setDisplayed, set_indexRef,
    set_lastTimeRef, cancelAnimationFrame, slice_to.
  cbn [indexRef displayed lastTimeRef requested cleanup onDone_calls
       scheduled].
  destruct (Nat.leb (List.length t) (S (indexRef i))); reflexivity.
Qed.

Lemma frame_idle (timestamp : number) (i : instance) :
  requested i = None -> frame timestamp i = i.
Proof. intros Hr. unfold Typewriter.frame. now rewrite Hr. Qed.

Lemma frame_scheduled (timestamp : number) (i : instance) :
  scheduled (frame timestamp i) = scheduled i.
Proof.
  destruct (requested i) as [[t sp]|] eqn:Hr; [|now rewrite frame_idle].
  rewrite (frame_requested timestamp _ Hr).
  destruct (geq _ _); [destruct (Nat.leb _ _)|]; reflexivity.
Qed.

Lemma pending_ok_frame (timestamp : number) (current : jsstring)
  (i : instance) :
  pending_ok current i -> pending_ok current (frame timestamp i).
Proof.
  intros Hok.
  destruct (requested i) as [[t sp]|] eqn:Hr; [|now rewrite frame_idle].
  destruct (Hok t sp Hr) as (-> & Hcl & Hlt).
  rewrite (frame_requested timestamp _ Hr).
  destruct (geq (minus timestamp (lastTimeRef i)) sp).
  - destruct (Nat.leb (List.length current) (S (indexRef i))) eqn:Hle.
    + intros t0 sp0 H. discriminate H.
    + intros t0 sp0 [= <- <-]. apply Nat.leb_gt in Hle. auto.
  - intros t0 sp0 [= <- <-]. auto.
Qed.

(** The text the scheduled effect was rendered with, if an effect is
    scheduled. *)
Lemma scheduled_run (events : list event) :
  option_map (@text number) (scheduled (run events)) = snd (text_history events).
Proof.
  induction events as [|e events IH] using rev_ind; trivial.
  rewrite run_snoc, texts_snoc. destruct e as [o| |timestamp]; simpl.
  - reflexivity.
  - now rewrite flush_scheduled.
  - now rewrite frame_scheduled.
Qed.

(** The text of the last render is that of the scheduled effect, or of
    the last effect when none is scheduled. *)
Lemma current_text_texts (events : list event) :
  current_text events []
  = match snd (text_history events) with
    | Some t => t
    | None => effect_text events
    end.
Proof.
  unfold Typewriter.effect_text.
  induction events as [|e events IH] using rev_ind; trivial.
  rewrite current_text_snoc, texts_snoc. destruct e as [o| |timestamp]; simpl.
  - reflexivity.
  - exact IH.
  - exact IH.
Qed.

Lemma pending_ok_flush (ran : jsstring) (i : instance) :
  pending_ok ran i ->
  pending_ok match option_map (@text number) (scheduled i) with
             | Some t => t
             | None => ran
             end (flush i).
Proof.
  intros Hok. unfold flush. destruct (scheduled i) as [o|]; simpl; trivial.
  now apply pending_ok_effect with ran.
Qed.

Lemma pending_ok_run (events : list event) :
  pending_ok (effect_text events) (run events).
Proof.
  unfold Typewriter.effect_text.
  induction events as [|e events IH] using rev_ind.
  - intros t sp H. discriminate H.
  - rewrite run_snoc, texts_snoc. pose proof (scheduled_run events) as Hs.
    destruct e as [o| |timestamp]; simpl.
    + rewrite <- Hs. exact (pending_ok_flush IH).
    + rewrite <- Hs. exact (pending_ok_flush IH).
    + now apply pending_ok_frame.
Qed.

(** ** What is displayed *)

Lemma begins_refl (s : jsstring) : begins s s.
Proof. exists []. now rewrite app_nil_r. Qed.

Lemma begins_trans (a b c : jsstring) : begins a b -> begins b c -> begins a c.
Proof.
  intros [r1 ->] [r2 ->]. exists (r1 ++ r2). now rewrite app_assoc.
Qed.

Lemma begins_firstn (n : nat) (s : jsstring) : begins (firstn n s) s.
Proof. exists (skipn n s). now rewrite firstn_skipn. Qed.

Lemma begins_nil (s : jsstring) : begins [] s.
Proof. now exists s. Qed.

Lemma begins_effect (o : options number) (ran : jsstring) (i : instance) :
  begins (displayed i) ran ->
  (enabled o = true -> begins ran (text o)) ->
  begins (displayed (effect o i)) (text o).
Proof.
  intros Hd Hg. unfold effect.
  set (i0 := if cleanup i then cancelAnimationFrame i else i).
  assert (Hd0 : displayed i0 = displayed i).
  { unfold i0. now destruct (cleanup i). }
  clearbody i0.
  destruct (enabled o); simpl; [|apply begins_refl].
  specialize (Hg eq_refl).
  destruct (Nat.ltb (List.length (text o)) (indexRef i0)); simpl.
  - destruct (Nat.leb (List.length (text o)) 0); apply begins_nil.
  - assert (H : begins (displayed i0) (text o)).
    { rewrite Hd0. now apply begins_trans with ran. }
    now destruct (Nat.leb (List.length (text o)) (indexRef i0)).
Qed.

(** The text of a render that has the animation enabled begins with the
    text of the last effect, while its own effect is still to run. *)
Lemma scheduled_grows (events : list event) (o : options number) :
  grows events [] -> scheduled (run events) = Some o ->
  enabled o = true -> begins (effect_text events) (text o).
Proof.
  unfold Typewriter.effect_text.
  induction events as [|e events IH] using rev_ind; [discriminate|].
  intros Hg. apply grows_snoc in Hg. destruct Hg as [Hg He].
  rewrite run_snoc, texts_snoc. destruct e as [o'| |timestamp]; simpl.
  - intros [= ->] Hen. specialize (He Hen).
    now rewrite current_text_texts in He.
  - now rewrite flush_scheduled.
  - rewrite frame_scheduled. now apply IH.
Qed.

Lemma begins_flush (events : list event) :
  grows events [] ->
  begins (displayed (run events)) (effect_text events) ->
  begins (displayed (flush (run events)))
    match snd (text_history events) with
    | Some t => t
    | None => effect_text events
    end.
Proof.
  intros Hg Hd. pose proof (scheduled_run events) as Hs.
  pose proof (@scheduled_grows events) as Hgrow.
  unfold flush. destruct (scheduled (run events)) as [o|];
    simpl in Hs; rewrite <- Hs; trivial.
  apply begins_effect with (effect_text events); trivial.
  now apply Hgrow.
Qed.

Lemma displayed_begins_effect_text (events : list event) :
  grows events [] ->
  begins (displayed (run events)) (effect_text events).
Proof.
  induction events as [|e events IH] using rev_ind; intros Hg.
  - apply begins_nil.
  - pose proof (proj1 (grows_snoc events e []) Hg) as [Hg0 _].
    specialize (IH Hg0). pose proof (pending_ok_run events) as Hok.
    unfold Typewriter.effect_text. rewrite run_snoc, texts_snoc.
    destruct e as [o| |timestamp]; simpl.
    + now apply begins_flush.
    + now apply begins_flush.
    + destruct (requested (run events)) as [[t sp]|] eqn:Hr;
        [|now rewrite frame_idle].
      destruct (Hok t sp Hr) as (-> & _ & _).
      rewrite (frame_requested timestamp _ Hr).
      destruct (geq (minus timestamp (lastTimeRef (run events))) sp);
        trivial.
      destruct (Nat.leb _ _); apply begins_firstn.
Qed.

(** As long as the text of a message only grows at its end while it is
    animated, what the typewriter displays is a beginning of the text of
    the last render whose effect has run, whenever the frames come; and
    so of the text of the last render, never with a character of an
    earlier text that the text no longer has, unless the last render has
    the animation disabled and its effect is still to run. *)
Theorem displayed_begins_text (events : list event) :
  grows events [] ->
  begins (displayed (run events)) (effect_text events)
  /\ ((forall o, scheduled (run events) = Some o -> enabled o = true) ->
      begins (displayed (run events)) (current_text events [])).
Proof.
  intros Hg. pose proof (displayed_begins_effect_text events Hg) as Hd.
  split; [exact Hd|]. intros Hen.
  rewrite current_text_texts. pose proof (scheduled_run events) as Hs.
  destruct (scheduled (run events)) as [o|] eqn:Ho; simpl in Hs;
    rewrite <- Hs; trivial.
  apply begins_trans with (effect_text events); trivial.
  apply scheduled_grows; auto.
Qed.

(** [onDone] is called by a frame only, once, with the whole text of the
    last render whose effect has run displayed (the text of the last
    render, when no effect is still to run), and no frame is requested
    after it. *)
Theorem onDone_when_displayed (events : list event) (timestamp : number) :
  (forall o, onDone_calls (step (Render o) (run events))
             = onDone_calls (run events))
  /\ onDone_calls (step (Effects number) (run events))
     = onDone_calls (run events)
  /\ (onDone_calls (frame timestamp (run events))
      <> onDone_calls (run events) ->
      displayed (frame timestamp (run events)) = effect_text events
      /\ onDone_calls (frame timestamp (run events))
         = S (onDone_calls (run events))
      /\ requested (frame timestamp (run events)) = None
      /\ (scheduled (run events) = None ->
          displayed (frame timestamp (run events))
          = current_text events [])).
Proof.
  split; [intros o; simpl; apply flush_onDone_calls|].
  split; [simpl; apply flush_onDone_calls|].
  pose proof (pending_ok_run events) as Hok.
  destruct (requested (run events)) as [[t sp]|] eqn:Hr;
    [|rewrite frame_idle by trivial; intros H; now destruct H].
  destruct (Hok t sp Hr) as (-> & _ & Hlt).
  rewrite (frame_requested timestamp _ Hr).
  destruct (geq (minus timestamp (lastTimeRef (run events))) sp);
    [|intros H; now destruct H].
  destruct (Nat.leb (List.length (effect_text events))
              (S (indexRef (run events)))) eqn:Hle;
    [|intros H; now destruct H].
  intros _. apply Nat.leb_le in Hle.
  assert (Hall : firstn (S (indexRef (run events))) (effect_text events)
                 = effect_text events) by (apply firstn_all2; lia).
  cbn [displayed onDone_calls requested]. rewrite Hall.
  repeat split. intros Hnone.
  rewrite current_text_texts. pose proof (scheduled_run events) as Hs.
  rewrite Hnone in Hs. simpl in Hs. now rewrite <- Hs.
Qed.

Lemma calls_bound (events : list event) :
  (onDone_calls (run events)
   + match requested (run events) with Some _ => 1 | None => 0 end
   + match scheduled (run events) with Some _ => 1 | None => 0 end
   <= renders events)%nat.
Proof.
  induction events as [|e events IH] using rev_ind; [simpl; lia|].
  assert (Hflush :
    (onDone_calls (flush (run events))
     + match requested (flush (run events)) with Some _ => 1 | None => 0 end
     <= renders events)%nat).
  { rewrite flush_onDone_calls. unfold flush.
    destruct (scheduled (run events)) as [o|].
    - destruct (requested (effect o _)); lia.
    - lia. }
  rewrite run_snoc, renders_snoc. destruct e as [o| |timestamp]; simpl.
  - lia.
  - rewrite flush_scheduled. lia.
  - rewrite frame_scheduled.
    destruct (requested (run events)) as [[t sp]|] eqn:Hr;
      [|rewrite frame_idle, Hr by trivial; lia].
    rewrite (frame_requested timestamp _ Hr).
    destruct (geq (minus timestamp (lastTimeRef (run events))) sp);
      [|simpl; lia].
    destruct (Nat.leb _ _); simpl; lia.
Qed.

(** [onDone] is called at most once for each render: a text that was
    displayed to its end is not reported again, however many frames
    come. *)
Theorem onDone_once_per_render (events : list event) :
  (onDone_calls (run events)
   + match requested (run events) with Some _ => 1 | None => 0 end
   <= renders events)%nat.
Proof. pose proof (calls_bound events). lia. Qed.

(** ** Frames that come in time *)

Lemma frames_idle (timestamps : list number) (i : instance) :
  requested i = None -> frames timestamps i = i.
Proof.
  intros Hr. induction timestamps as [|ts rest IH]; trivial.
  unfold Typewriter.frames in *. simpl. now rewrite frame_idle.
Qed.

(** While a text is being displayed, every frame that comes [speed]
    after the one before it displays one more character, until the
    whole text is displayed; [onDone] is called by the frame that
    displays the last character, and the frames after it do nothing. *)
Theorem typing_progress (timestamps : list number) :
  forall (i : instance) (t : jsstring) (sp : number),
  requested i = Some (t, sp) ->
  (indexRef i < List.length t)%nat ->
  all_due (lastTimeRef i) sp timestamps ->
  indexRef (frames timestamps i)
  = Nat.min (indexRef i + List.length timestamps) (List.length t)
  /\ (timestamps <> [] ->
      displayed (frames timestamps i)
      = firstn (indexRef i + List.length timestamps) t)
  /\ onDone_calls (frames timestamps i)
     = (onDone_calls i
        + if Nat.leb (List.length t) (indexRef i + List.length timestamps)
          then 1 else 0)%nat.
Proof.
  induction timestamps as [|ts rest IH]; intros i t sp Hr Hlt Hdue.
  - unfold Typewriter.frames. simpl. rewrite Nat.add_0_r.
    rewrite (proj2 (Nat.leb_gt _ _) Hlt).
    split; [lia|]. split; [intros H; now destruct H|lia].
  - destruct Hdue as [Hts Hdue].
    change (frames (ts :: rest) i) with (frames rest (frame ts i)).
    rewrite (frame_requested ts _ Hr), Hts. simpl List.length.
    destruct (Nat.leb (List.length t) (S (indexRef i))) eqn:Hle.
    + apply Nat.leb_le in Hle. rewrite frames_idle by reflexivity.
      cbn [indexRef displayed onDone_calls].
      rewrite (proj2 (Nat.leb_le (List.length t)
                        (indexRef i + S (List.length rest)))) by lia.
      split; [lia|]. split; [|lia].
      intros _. now rewrite !firstn_all2 by lia.
    + apply Nat.leb_gt in Hle.
      destruct (IH {| displayed := firstn (S (indexRef i)) t;
                      indexRef := S (indexRef i); lastTimeRef := ts;
                      requested := Some (t, sp); cleanup := cleanup i;
                      onDone_calls := onDone_calls i;
                      scheduled := scheduled i |} t sp
                  eq_refl Hle Hdue) as (Hi & Hd & Hc).
      cbn [indexRef displayed onDone_calls] in Hi, Hd, Hc.
      replace (indexRef i + S (List.length rest))%nat
        with (S (indexRef i) + List.length rest)%nat by lia.
      split; [exact Hi|]. split; [|exact Hc].
      intros _. destruct rest as [|ts' rest']; [|apply Hd; discriminate].
      unfold Typewriter.frames. simpl. now rewrite Nat.add_0_r.
Qed.

(** ** No animation *)

Lemma run_frames (events : list event) (timestamps : list number) :
  run (events ++ map (@Frame number) timestamps)
  = frames timestamps (run events).
Proof.
  unfold Typewriter.run, Typewriter.frames. rewrite fold_left_app.
  generalize (fold_left (fun i e => step e i) events (mounted zero)).
  induction timestamps as [|ts rest IH]; intros i; trivial.
  simpl. apply IH.
Qed.

Lemma frames_scheduled (timestamps : list number) (i : instance) :
  scheduled (frames timestamps i) = scheduled i.
Proof.
  revert i. induction timestamps as [|ts rest IH]; intros i; trivial.
  change (frames (ts :: rest) i) with (frames rest (frame ts i)).
  now rewrite IH, frame_scheduled.
Qed.

(** A render with the animation disabled, or with nothing to display:
    once its effect has run, [onDone] is not called and no frame is
    requested, however many frames come, and with the animation
    disabled the whole text is displayed.  (The frames that come before
    the effect has run, [stale], are those of the text before.) *)
Theorem no_animation (events : list event) (o : options number)
  (stale timestamps : list number) :
  enabled o = false \/ text o = [] ->
  onDone_calls
    (run ((events ++ Render o :: map (@Frame number) stale)
          ++ Effects number :: map (@Frame number) timestamps))
  = onDone_calls (run (events ++ Render o :: map (@Frame number) stale))
  /\ requested
       (run ((events ++ Render o :: map (@Frame number) stale)
             ++ Effects number :: map (@Frame number) timestamps))
     = None
  /\ (enabled o = false ->
      displayed
        (run ((events ++ Render o :: map (@Frame number) stale)
              ++ Effects number :: map (@Frame number) timestamps))
      = text o).
Proof.
  intros Hcase.
  set (before := events ++ Render o :: map (@Frame number) stale).
  assert (Hrun :
    run (before ++ Effects number :: map (@Frame number) timestamps)
    = frames timestamps (flush (run before))).
  { change (before ++ Effects number :: map (@Frame number) timestamps)
      with (before ++ [Effects number] ++ map (@Frame number) timestamps).
    now rewrite app_assoc, run_frames, run_snoc. }
  rewrite Hrun. clear Hrun.
  assert (Hsched : scheduled (run before) = Some o).
  { unfold before.
    change (events ++ Render o :: map (@Frame number) stale)
      with (events ++ [Render o] ++ map (@Frame number) stale).
    now rewrite app_assoc, run_frames, frames_scheduled, run_snoc. }
  pose proof (pending_ok_run before) as Hok.
  set (i := run before) in *. clearbody i.
  assert (Hnone :
    requested (if cleanup i then cancelAnimationFrame (set_scheduled None i)
               else set_scheduled None i) = None).
  { destruct (cleanup i) eqn:Hc; trivial. simpl.
    destruct (requested i) as [[t0 sp0]|] eqn:Hr; trivial.
    destruct (Hok t0 sp0 Hr) as (_ & Hcl & _). congruence. }
  assert (Heffect :
    requested (flush i) = None
    /\ onDone_calls (flush i) = onDone_calls i
    /\ (enabled o = false -> displayed (flush i) = text o)).
  { split; [|split; [apply flush_onDone_calls|]].
    - unfold flush. rewrite Hsched. unfold effect.
      change (cleanup (set_scheduled None i)) with (cleanup i).
      set (i0 := if cleanup i
                 then cancelAnimationFrame (set_scheduled None i)
                 else set_scheduled None i) in *.
      clearbody i0.
      destruct (enabled o) eqn:He; simpl; trivial.
      destruct Hcase as [Hcase|Htext]; [discriminate Hcase|].
      rewrite Htext. simpl.
      destruct (Nat.ltb 0 (indexRef i0)); simpl; trivial.
    - intros He. unfold flush. rewrite Hsched. unfold effect.
      rewrite He. simpl. now destruct (cleanup i). }
  destruct Heffect as (Hr & Hc & Hd).
  rewrite frames_idle by trivial. auto.
Qed.

End Clock.

(** ** The hook on whole milliseconds *)

(** A message is rendered with [Hel], two frames come, the text grows to
    [Hel], line feed, [lo], a frame comes too early and, once the effect
    has run, one in time: [Hel] is displayed. *)
Lemma displayed_begins_text_witness :
  displayed (Typewriter.run 0%Z ms_minus ms_geq typed_events) = lit "Hel"
  /\ begins (displayed (Typewriter.run 0%Z ms_minus ms_geq typed_events))
       (lit "Hel" ++ [LF] ++ lit "lo").
Proof.
  split; [reflexivity|].
  apply (proj2 (@displayed_begins_text Z 0%Z ms_minus ms_geq typed_events
                  ltac:(simpl; repeat split; intros _;
                        [apply begins_nil
                        |exists ([LF] ++ lit "lo"); reflexivity]))).
  vm_compute. discriminate.
Defined.

(** [Hel] is displayed but for its last character when the text grows;
    a frame comes before the effect of the second render has run, and
    calls [onDone] with [Hel] displayed, the text of the first render. *)
Lemma onDone_when_displayed_witness :
  Typewriter.current_text stale_frame_events []
  = lit "Hel" ++ [LF] ++ lit "lo"
  /\ displayed
       (Typewriter.frame ms_minus ms_geq 50%Z
          (Typewriter.run 0%Z ms_minus ms_geq stale_frame_events))
     = lit "Hel"
  /\ onDone_calls
       (Typewriter.frame ms_minus ms_geq 50%Z
          (Typewriter.run 0%Z ms_minus ms_geq stale_frame_events))
     = 1%nat.
Proof.
  split; [reflexivity|].
  destruct (proj2 (proj2
              (@onDone_when_displayed Z 0%Z ms_minus ms_geq
                 stale_frame_events 50%Z))
              ltac:(vm_compute; discriminate))
    as (Hd & Hc & _).
  split; [exact Hd|exact Hc].
Defined.

(** Five characters, four frames 16 ms apart at the speed of 10 ms: four
    characters are displayed and [onDone] is not called yet. *)
Lemma typing_progress_witness :
  indexRef
    (Typewriter.frames ms_minus ms_geq [16; 32; 48; 64]%Z
       (Typewriter.run 0%Z ms_minus ms_geq
          [Render {| text := lit "hello"; speed := 10%Z; enabled := true |};
           Effects Z]))
  = 4%nat.
Proof.
  apply (proj1
           (@typing_progress Z ms_minus ms_geq [16; 32; 48; 64]%Z
              (Typewriter.run 0%Z ms_minus ms_geq
                 [Render {| text := lit "hello"; speed := 10%Z;
                            enabled := true |};
                  Effects Z])
              (lit "hello") 10%Z eq_refl
              ltac:(vm_compute; repeat constructor)
              ltac:(vm_compute; repeat split))).
Defined.

(** An answer without text: the message is animated, its text is empty,
    and [onDone] is never called. *)
Lemma no_animation_witness :
  onDone_calls
    (Typewriter.run 0%Z ms_minus ms_geq
       (([] ++ Render {| text := []; speed := 10%Z; enabled := true |}
            :: map (@Frame Z) [])
        ++ Effects Z :: map (@Frame Z) [16; 32; 48]%Z))
  = 0%nat.
Proof.
  apply (proj1
           (@no_animation Z 0%Z ms_minus ms_geq []
              {| text := []; speed := 10%Z; enabled := true |}
              [] [16; 32; 48]%Z (or_intror eq_refl))).
Defined.

End TypewriterFacts.

(* ================================================================== *)
(** * A streamed turn: the stream and the store together *)
(* ================================================================== *)

Module TurnFacts.

Import A2AClient UseChat Statements Examples StoreFacts StreamFacts
  MoreStatements MoreExamples StreamTurn.

(** ** [appendParts] and [updateMessage] on what [forget] keeps *)

Lemma forget_appendParts (now : Date) (convId msgId : jsstring)
  (ps : list Part) (prev : list Conversation) :
  map forget (appendParts now convId msgId ps prev)
  = map (append_forget convId msgId ps) (map forget prev).
Proof.
  unfold appendParts. rewrite !map_map. apply map_ext. intros c.
  unfold forget at 2. unfold append_forget.
  destruct (JsString.eqb (conv_id c) convId); simpl; [|reflexivity].
  unfold forget. simpl. f_equal. rewrite !map_map. apply map_ext.
  intros m. unfold content at 2. unfold append_content.
  now destruct (JsString.eqb (msg_id m) msgId).
Qed.

Lemma forget_status (convId msgId : jsstring) (st : MessageStatus)
  (prev : list Conversation) :
  map forget (updateMessage convId msgId (with_status st) prev)
  = map forget prev.
Proof.
  unfold updateMessage. rewrite map_map. apply map_ext. intros c.
  destruct (negb (JsString.eqb (conv_id c) convId)); trivial.
  unfold forget. simpl. f_equal. rewrite map_map. apply map_ext.
  intros m. now destruct (JsString.eqb (msg_id m) msgId).
Qed.

Lemma append_content_app (msgId : jsstring) (ps qs : list Part)
  (m : jsstring * Role * list Part * option jsstring * option jsstring * Date) :
  append_content msgId qs (append_content msgId ps m)
  = append_content msgId (ps ++ qs) m.
Proof.
  destruct m as [[[[[i r] old] shown] a] ts]. unfold append_content.
  by_eqb i msgId.
  - rewrite (proj2 (eqb_eq _ _) E). now rewrite <- app_assoc.
  - now rewrite (proj2 (eqb_neq _ _) E).
Qed.

Lemma append_forget_app (convId msgId : jsstring) (ps qs : list Part)
  (c : jsstring * jsstring * jsstring * Date
       * list (jsstring * Role * list Part * option jsstring
               * option jsstring * Date)) :
  append_forget convId msgId qs (append_forget convId msgId ps c)
  = append_forget convId msgId (ps ++ qs) c.
Proof.
  destruct c as [[[[i a] t] created] ms]. unfold append_forget.
  by_eqb i convId.
  - rewrite (proj2 (eqb_eq _ _) E). f_equal. rewrite map_map.
    apply map_ext. apply append_content_app.
  - now rewrite (proj2 (eqb_neq _ _) E).
Qed.

(** ** The callbacks before the last *)

Lemma received_none (cs : list callback) :
  existsb is_onPart cs = false -> received cs = [].
Proof.
  induction cs as [|c cs IH]; trivial. simpl.
  destruct c; simpl; try exact IH. discriminate.
Qed.

Lemma deliver_events (clock : nat -> Date) (cs : list callback) :
  forall n t h t' h',
  deliver clock n cs (t, h) = Some (t', h') ->
  no_terminal cs = true ->
  t' = t /\ isLoading h' = isLoading h
  /\ activeConvId h' = activeConvId h
  /\ map forget (conversations h')
     = if existsb is_onPart cs
       then map (append_forget (currentConvIdRef t) (agentMsgId t)
                   (received cs))
              (map forget (conversations h))
       else map forget (conversations h).
Proof.
  induction cs as [|c cs IH]; intros n t h t' h' Hd Hnt.
  - injection Hd as <- <-. auto.
  - simpl in Hnt. apply andb_prop in Hnt. destruct Hnt as [Hc Hnt].
    simpl in Hd.
    destruct c as [|p|v|msg]; try discriminate Hc; simpl in Hd.
    + destruct (IH _ _ _ _ _ Hd Hnt) as (-> & Hl & Ha & Hf).
      repeat split; trivial. simpl in Hf.
      now rewrite forget_status in Hf.
    + destruct (as_Parts p) as [ps|] eqn:Hp; [|discriminate Hd].
      destruct (IH _ _ _ _ _ Hd Hnt) as (-> & Hl & Ha & Hf).
      repeat split; trivial. simpl in Hf.
      rewrite forget_appendParts in Hf. rewrite Hf.
      unfold received. simpl. rewrite Hp. fold (received cs).
      destruct (existsb is_onPart cs) eqn:Hmore.
      * rewrite map_map. apply map_ext. intros x. apply append_forget_app.
      * now rewrite (received_none cs Hmore), app_nil_r.
Qed.

(** The callbacks a stream makes before it ends leave the store as one
    call of [appendParts] with all the parts received, in the order of
    their arrival, would, but for the status of the agent message and
    the time of the last update: the parts of the agent message are
    those it had and then those received, and its display text is their
    text.  (The parts are those of callbacks whose payload is of the
    type [Part[]].) *)
Theorem stream_parts_accumulate (clock : nat -> Date) (now : Date)
  (cs : list callback) (t t' : turn) (h h' : hook) :
  deliver clock 0 cs (t, h) = Some (t', h') ->
  no_terminal cs = true ->
  existsb is_onPart cs = true ->
  t' = t
  /\ map forget (conversations h')
     = map forget
         (appendParts now (currentConvIdRef t) (agentMsgId t) (received cs)
            (conversations h))
  /\ isLoading h' = isLoading h.
Proof.
  intros Hd Hnt Hp.
  destruct (@deliver_events clock cs 0 t h t' h' Hd Hnt)
    as (-> & Hl & _ & Hf).
  rewrite Hp in Hf. rewrite forget_appendParts. auto.
Qed.

(** Scenario B: [working], then [Hel], then [lo]. *)
Lemma stream_parts_accumulate_witness :
  removelast scenario_B_callbacks
  = [onWorking;
     onPart (JArr [JObj [(lit "kind", JStr (lit "text"));
                         (lit "text", JStr (lit "Hel"))]]);
     onPart (JArr [JObj [(lit "kind", JStr (lit "text"));
                         (lit "text", JStr (lit "lo"))]])]
  /\ map forget (conversations (snd after_events))
     = map forget
         (appendParts 0%Z (lit "local-3") (lit "g-1")
            [TextPart (lit "Hel"); TextPart (lit "lo")]
            (conversations hook_streaming)).
Proof.
  split; [vm_compute; reflexivity|].
  apply (proj1 (proj2
           (@stream_parts_accumulate every_100ms 0%Z
              (removelast scenario_B_callbacks) turn_1 (fst after_events)
              hook_streaming (snd after_events)
              ltac:(vm_compute; reflexivity) ltac:(vm_compute; reflexivity)
              ltac:(vm_compute; reflexivity)))).
Defined.

(** ** The last callback *)

Lemma deliver_app (clock : nat -> Date) (l1 l2 : list callback) :
  forall n th,
  deliver clock n (l1 ++ l2) th
  = match deliver clock n l1 th with
    | Some th' => deliver clock (n + List.length l1) l2 th'
    | None => None
    end.
Proof.
  induction l1 as [|c l1 IH]; intros n th; simpl.
  - now rewrite Nat.add_0_r.
  - destruct (on_callback (clock n) c th) as [th'|]; trivial.
    rewrite IH. now rewrite Nat.add_succ_r.
Qed.

Lemma adoptContextId_agentMsgId (gid : option jsstring) (t : turn) (h : hook) :
  agentMsgId (fst (adoptContextId gid t h)) = agentMsgId t
  /\ isLoading (snd (adoptContextId gid t h)) = isLoading h.
Proof.
  unfold adoptContextId. destruct gid as [g|]; auto.
  now destruct (is_empty g || JsString.eqb g (currentConvIdRef t)).
Qed.

(** What [onDone] leaves of the agent message. *)
Lemma stream_onDone_message (gid : option jsstring) (t : turn) (h : hook)
  (c : Conversation) (m : ChatMessage) :
  In c (conversations (snd (stream_onDone gid t h))) ->
  conv_id c = currentConvIdRef (fst (stream_onDone gid t h)) ->
  In m (messages c) -> msg_id m = agentMsgId t ->
  status m = done \/ exists ch rest, displayText m = Some (ch :: rest).
Proof.
  unfold stream_onDone, finaliseAgentMsg.
  pose proof (adoptContextId_agentMsgId gid t h) as [Hid _].
  destruct (adoptContextId gid t h) as [t1 h1]. simpl in *.
  intros Hc Hcid Hm Hmid. apply in_map_iff in Hc.
  destruct Hc as [c0 [<- Hc0]].
  destruct (negb (JsString.eqb (conv_id c0) (currentConvIdRef t1))
            && negb (JsString.eqb (conv_id c0) (localConvId t1))) eqn:E.
  - apply andb_prop in E. destruct E as [E _].
    rewrite (proj2 (eqb_eq _ _) Hcid) in E. discriminate E.
  - simpl in Hm. apply in_map_iff in Hm. destruct Hm as [m0 [<- Hm0]].
    destruct (negb (JsString.eqb (msg_id m0) (agentMsgId t1))) eqn:Em.
    + rewrite Hid, (proj2 (eqb_eq _ _) Hmid) in Em. discriminate Em.
    + destruct (displayText m0) as [[|ch rest]|] eqn:Ed; simpl; auto.
      right. now exists ch, rest.
Qed.

Section Turn.

Variable JSON_parse : jsstring -> option JSON.

(** A turn with an agent that streams, once the exchange has come to an
    end without [cancel()]: the turn is over ([isLoading] is false);
    after [onError] every message that goes by the agent message's
    identity in the conversation of the turn shows the error in place
    of what had arrived; after [onDone] every such message is [done]
    unless it has display text, which the typewriter is left to
    finish.  (The payloads of the callbacks are of the types [send]
    takes them for.) *)
Theorem stream_turn_ends (x : exchange) (clock : nat -> Date)
  (t t' : turn) (h h' : hook) :
  completes x = true ->
  cancel_free (trace (streamMessage JSON_parse never returns x)) = true ->
  deliver clock 0 (called (trace (streamMessage JSON_parse never returns x))) (t, h)
  = Some (t', h') ->
  isLoading h' = false
  /\ (forall msg c m,
        In (onError msg) (called (trace (streamMessage JSON_parse never returns x))) ->
        In c (conversations h') -> conv_id c = currentConvIdRef t ->
        In m (messages c) -> msg_id m = agentMsgId t ->
        shows_error msg m)
  /\ (forall v c m,
        In (onDone v) (called (trace (streamMessage JSON_parse never returns x))) ->
        In c (conversations h') -> conv_id c = currentConvIdRef t' ->
        In m (messages c) -> msg_id m = agentMsgId t ->
        status m = done \/ exists ch rest, displayText m = Some (ch :: rest)).
Proof.
  intros Hends Hfree Hd.
  destruct (streamMessage_settled JSON_parse never returns x) as [Hs Hlast].
  destruct (proj2 (@one_terminal returns _ (fun _ _ => eq_refl) Hs)
              (Hlast Hends Hfree))
    as (pre & last & Hcalled & Hterm & Hpre).
  rewrite Hcalled in *. rewrite deliver_app in Hd.
  destruct (deliver clock 0 pre (t, h)) as [[t1 h1]|] eqn:Hpre_d;
    [|discriminate Hd].
  destruct (@deliver_events clock pre 0 t h t1 h1 Hpre_d Hpre)
    as (-> & _ & _ & _).
  assert (Hin : forall c0, In c0 (pre ++ [last]) -> is_terminal c0 = true ->
                           c0 = last).
  { intros c0 Hc0 Ht0. apply in_app_or in Hc0. destruct Hc0 as [Hc0|[Hc0|[]]];
      [|now symmetry].
    unfold no_terminal in Hpre. rewrite forallb_forall in Hpre.
    specialize (Hpre _ Hc0). rewrite Ht0 in Hpre. discriminate Hpre. }
  cbn [deliver] in Hd.
  destruct last as [|p|v|msg]; try discriminate Hterm.
  - (* onDone *)
    assert (Hdone : exists gid,
      (t', h') = stream_onDone gid t h1).
    { destruct v as [[| | |s| |]|]; cbn [on_callback fst snd] in Hd;
        try discriminate Hd; eexists; symmetry;
        exact (f_equal (fun o => match o with Some th => th | None => (t', h') end)
                 Hd). }
    destruct Hdone as [gid Hdone]. split; [|split].
    + apply (f_equal snd) in Hdone. simpl in Hdone. rewrite Hdone.
      unfold stream_onDone.
      now destruct (finaliseAgentMsg gid t h1).
    + intros msg c m Hmsg. apply Hin in Hmsg; [discriminate Hmsg|reflexivity].
    + intros v0 c m _ Hc Hcid Hm Hmid.
      pose proof (f_equal fst Hdone) as Ht. pose proof (f_equal snd Hdone) as Hh.
      simpl in Ht, Hh. subst t' h'.
      now apply (@stream_onDone_message gid t h1 c m).
  - (* onError *)
    cbn [on_callback fst snd] in Hd. unfold stream_onError in Hd.
    injection Hd as <- <-. split; [reflexivity|split].
    + intros msg0 c m Hmsg Hc Hcid Hm Hmid.
      apply Hin in Hmsg; [|reflexivity]. injection Hmsg as ->.
      simpl in Hc.
      destruct (@updateMessage_inv (currentConvIdRef t) (agentMsgId t)
                  (error_content msg) (conversations h1) c m)
        as [m0 ->]; trivial.
      unfold shows_error. simpl. tauto.
    + intros v c m Hv. apply Hin in Hv; [discriminate Hv|reflexivity].
Qed.

End Turn.

(** Scenario B and C together: the stream ends; the turn is over, and
    the conversation goes by [srv-9]. *)
Lemma stream_turn_ends_witness :
  isLoading (snd after_stream) = false
  /\ ids (conversations (snd after_stream)) = [lit "srv-9"]
  /\ activeConvId (snd after_stream) = Some (lit "srv-9").
Proof.
  split; [|split; vm_compute; reflexivity].
  apply (proj1
           (@stream_turn_ends JsonText.parse (delivery scenario_B [Done])
              every_100ms turn_1 (fst after_stream) hook_streaming
              (snd after_stream)
              ltac:(vm_compute; reflexivity) ltac:(vm_compute; reflexivity)
              ltac:(vm_compute; reflexivity))).
Defined.

End TurnFacts.

From Stdlib Require Import Permutation.

(* ================================================================== *)
(** * The side bar *)
(* ================================================================== *)

Module SidebarFacts.

Import Types A2AClient UseChat Presentation StoreFacts Examples.

Lemma listed_cons (a : AgentOption) (agents : list AgentOption)
  (convs : list Conversation) :
  listed (a :: agents) convs
  = filter (fun c => JsString.eqb (agentId c) (agent_id a)) convs
    ++ listed agents convs.
Proof.
  unfold listed, convsByAgent. simpl.
  destruct (filter (fun c => JsString.eqb (agentId c) (agent_id a)) convs);
    reflexivity.
Qed.

Lemma known_In (agents : list AgentOption) (c : Conversation) :
  known agents c = true <-> In (agentId c) (map agent_id agents).
Proof.
  unfold known. rewrite existsb_exists, in_map_iff. split.
  - intros [a [Ha E]]. apply eqb_eq in E. now exists a.
  - intros [a [E Ha]]. exists a. split; trivial. apply eqb_eq. now symmetry.
Qed.

Lemma filter_split (A : Type) (p q : A -> bool) (l : list A) :
  (forall x, In x l -> p x = true -> q x = false) ->
  Permutation (filter (fun x => p x || q x) l) (filter p l ++ filter q l).
Proof.
  induction l as [|x l IH]; intros Hpq; simpl; [constructor|].
  assert (IH' := IH (fun y Hy => Hpq y (or_intror Hy))).
  destruct (p x) eqn:Ep; simpl.
  - rewrite (Hpq x (or_introl eq_refl) Ep). now constructor.
  - destruct (q x); trivial.
    apply Permutation_cons_app. exact IH'.
Qed.

(** The side bar lists a conversation of the store when, and only when,
    its agent is among the agents loaded; and when no two agents loaded
    share an identifier it lists each of them once: what it lists is
    the conversations of the store with an agent loaded, in another
    order (by agent, then by the store). *)
Theorem sidebar_lists (agents : list AgentOption)
  (convs : list Conversation) :
  (forall c, In c (listed agents convs)
             <-> In c convs /\ known agents c = true)
  /\ (forall g, In g (convsByAgent agents convs) ->
        In (fst g) agents /\ snd g <> []
        /\ snd g = filter (fun c => JsString.eqb (agentId c) (agent_id (fst g)))
                     convs)
  /\ (NoDup (map agent_id agents) ->
      Permutation (listed agents convs) (filter (known agents) convs)).
Proof.
  split; [|split].
  - induction agents as [|a agents IH]; intros c.
    + simpl. split; [intros []|intros [_ H]; discriminate H].
    + rewrite listed_cons, in_app_iff, filter_In, IH.
      unfold known. simpl. rewrite orb_true_iff. tauto.
  - intros g Hg. unfold convsByAgent in Hg. apply filter_In in Hg.
    destruct Hg as [Hg Hlen]. apply in_map_iff in Hg.
    destruct Hg as [a [<- Ha]]. simpl in *. repeat split; trivial.
    intros E. rewrite E in Hlen. discriminate Hlen.
  - induction agents as [|a agents IH]; intros Hnd.
    + simpl. induction convs; simpl; trivial.
    + inversion Hnd as [|y l Hnot Hnd']; subst.
      rewrite listed_cons.
      apply Permutation_sym.
      eapply Permutation_trans.
      * apply (@filter_split _
                 (fun c => JsString.eqb (agentId c) (agent_id a))
                 (known agents) convs).
        intros c _ E. apply eqb_eq in E.
        destruct (known agents c) eqn:K; trivial.
        apply known_In in K. rewrite E in K. contradiction.
      * apply Permutation_app_head, Permutation_sym, IH, Hnd'.
Qed.

(** One agent loaded, both conversations with it. *)
Lemma sidebar_lists_witness :
  NoDup (map agent_id [echo_agent])
  /\ Permutation (listed [echo_agent] two_conversations)
       (filter (known [echo_agent]) two_conversations).
Proof.
  assert (Hnd : NoDup (map agent_id [echo_agent])).
  { simpl. constructor; [intros []|constructor]. }
  split; [exact Hnd|].
  exact (proj2 (proj2 (sidebar_lists [echo_agent] two_conversations)) Hnd).
Defined.

End SidebarFacts.

(* ================================================================== *)
(** * From the discovery document to the first message *)
(* ================================================================== *)

Module FirstPageFacts.

Import Types A2AClient UseChat Statements Discovery ChatActions
  MoreStatements Examples MoreExamples StoreFacts ChatFacts DiscoveryFacts.

Section LowerCase.

Variable toLowerCase : jsstring -> jsstring.

(** The page is loaded and a text is typed and sent, no turn being
    under way.  When the discovery document lists agents, the first is
    the one selected, and the one request [send] makes goes to it, by
    the method its card calls for: to the identity in its URL when the
    URL is one the client calls agents at.  When the document lists
    none, or could not be had, and no agent was selected, [send] makes
    no request and changes nothing; and when the gateway answered with
    a status that is not ok, the error shown names the status and the
    agents are those there were. *)
Theorem discovered_agent_gets_message (res : cards_response)
  (d : directory) (h : hook) (typed : jsstring) (g : generated)
  (gw : gateway) (during : list action) (made : list request) :
  isLoading h = false -> trim typed <> [] ->
  (forall card cards,
     fetchAgentCards res = inl (card :: cards) ->
     agents (fst (loadAgents toLowerCase res d h))
     = map (option_of toLowerCase) (card :: cards)
     /\ agentsError (fst (loadAgents toLowerCase res d h)) = None
     /\ snd (send g gw during
               (setInput typed (snd (loadAgents toLowerCase res d h))) made)
        = made ++ [{| method :=
                        match streaming card with
                        | Some true => lit "message/stream"
                        | _ => lit "message/send"
                        end;
                      to_agent := agentIdFromCard toLowerCase card;
                      text_sent := trim typed;
                      contextId_sent := turn_conversation g h |}]
     /\ (forall base id rest,
           id <> [] -> ~ In SLASH id ->
           occurs (lit "/agents") base = false ->
           url card = agentUrl base id ++ rest ->
           agentIdFromCard toLowerCase card = id))
  /\ (selectedAgent h = None ->
      (fetchAgentCards res = inl []
       \/ exists err, fetchAgentCards res = inr err) ->
      send g gw during
        (setInput typed (snd (loadAgents toLowerCase res d h))) made
      = (setInput typed h, made))
  /\ (forall status body,
        res = Answered false status body ->
        agentsError (fst (loadAgents toLowerCase res d h))
        = Some (lit "Failed to fetch agents: HTTP " ++ decimal status)
        /\ agents (fst (loadAgents toLowerCase res d h)) = agents d).
Proof.
  intros Hload Htext. split; [|split].
  - intros card cards Hres. unfold loadAgents. rewrite Hres. simpl.
    repeat split.
    + set (h' := setInput typed
                   (setSelectedAgent (Some (option_of toLowerCase card)) h)).
      destruct (@send_request g gw during h' made
                  (option_of toLowerCase card))
        as [Hrq _]; trivial.
      rewrite Hrq. unfold supportsStreaming, option_of. simpl.
      now destruct (streaming card) as [[|]|].
    + intros base id rest Hne Hid Hclean Hurl.
      unfold agentIdFromCard. rewrite Hurl. unfold agentUrl.
      rewrite <- !app_assoc.
      change (lit "/" ++ rest) with (SLASH :: rest).
      now rewrite url_match_after.
  - intros Hsel Hres.
    assert (Hsame : snd (loadAgents toLowerCase res d h) = h).
    { unfold loadAgents. destruct Hres as [-> | [err ->]]; reflexivity. }
    rewrite Hsame. unfold send, send_begin. simpl. now rewrite Hsel.
  - intros status body ->. split; reflexivity.
Qed.

End LowerCase.

(** The discovery document lists the echo agent; [hello] is sent. *)
Lemma discovered_agent_gets_message_witness :
  snd (send generated_1 gateway_hi []
         (setInput (lit "hello")
            (snd (loadAgents ascii_lower (Answered true 200 (Cards [echo_card]))
                    no_agents (opened []))))
         [])
  = [{| method := lit "message/send"; to_agent := lit "echo";
        text_sent := lit "hello";
        contextId_sent := uuid_conversation generated_1 |}].
Proof.
  exact (proj1 (proj2 (proj2
           (proj1 (@discovered_agent_gets_message ascii_lower
                     (Answered true 200 (Cards [echo_card])) no_agents
                     (opened []) (lit "hello") generated_1 gateway_hi [] []
                     eq_refl ltac:(discriminate))
              echo_card [] eq_refl)))).
Defined.

End FirstPageFacts.
